(** * A shallow embedding of the rules engine (engine.py)

    The Python values the engine handles are embedded as a JSON-like
    inductive type; Python floats are the kernel's binary64 floats;
    Python exceptions are explicit outcomes; the mutable [RuleContext]
    is threaded as an explicit state, with the trace nodes living in a
    store addressed by index so that the aliasing between the cursor
    stack and the children lists is kept. *)

From Stdlib Require Import ZArith List String Ascii Bool Lia.
From Stdlib Require Import Floats DecimalString.
From Stdlib Require Import Rbase Rfunctions Lra.
Import ListNotations.

Local Open Scope string_scope.
Local Open Scope Z_scope.

#[local] Set Warnings "-register-all,-inexact-float".

(** ** Outcomes of a Python computation *)

Inductive exn : Type :=
| TypeError
| KeyError
| ValueError
| OverflowError
| ZeroDivisionError
| AttributeError.

(** [Raise e] is a Python exception that propagates to the caller.
    [Unmodelled] marks an input outside what this embedding describes
    (the text says where).  [OutOfFuel] is the interpreter running out
    of its recursion budget. *)
Inductive outcome (A : Type) : Type :=
| Ok (a : A)
| Raise (e : exn)
| Unmodelled
| OutOfFuel.

Arguments Ok {A} a.
Arguments Raise {A} e.
Arguments Unmodelled {A}.
Arguments OutOfFuel {A}.

Definition obind {A B} (c : outcome A) (k : A -> outcome B) : outcome B :=
  match c with
  | Ok a => k a
  | Raise e => Raise e
  | Unmodelled => Unmodelled
  | OutOfFuel => OutOfFuel
  end.

Declare Scope outcome_scope.
Delimit Scope outcome_scope with outcome.
Notation "x <- c ;; k" := (obind c (fun x => k))
  (at level 61, c at next level, right associativity) : outcome_scope.
Notation "' p <- c ;; k" := (obind c (fun x => let 'p := x in k))
  (at level 61, p pattern, c at next level, right associativity)
  : outcome_scope.
Local Open Scope outcome_scope.

(** ** Python values *)

Inductive val : Type :=
| VNone
| VBool (b : bool)
| VInt (z : Z)
| VFloat (f : float)
| VStr (s : string)
| VList (l : list val)
| VDict (d : list (string * val)).

(** A [dict] with string keys, in insertion order. *)
Definition dict := list (string * val).

Fixpoint dict_get {A} (k : string) (d : list (string * A)) : option A :=
  match d with
  | [] => None
  | (k', v) :: r => if String.eqb k k' then Some v else dict_get k r
  end.

Definition dict_mem {A} (k : string) (d : list (string * A)) : bool :=
  match dict_get k d with Some _ => true | None => false end.

(** [d[k] = v]: replaces the value in place when the key is there,
    appends the pair otherwise. *)
Fixpoint dict_set {A} (k : string) (v : A) (d : list (string * A))
  : list (string * A) :=
  match d with
  | [] => [(k, v)]
  | (k', v') :: r =>
      if String.eqb k k' then (k, v) :: r else (k', v') :: dict_set k v r
  end.

Definition dict_keys {A} (d : list (string * A)) : list string := map fst d.

(** ** Numbers

    Python compares and converts integers and floats exactly.  A
    number is read as [m * 2^e], an infinity or a NaN. *)

Inductive xnum : Type :=
| XNaN
| XInf (neg : bool)
| XFin (m e : Z).

Definition xnum_of_float (f : float) : xnum :=
  match Prim2SF f with
  | S754_nan => XNaN
  | S754_infinity s => XInf s
  | S754_zero _ => XFin 0 0
  | S754_finite s m e => XFin (if s then Z.neg m else Z.pos m) e
  end.

Definition xcompare (a b : xnum) : option comparison :=
  match a, b with
  | XNaN, _ | _, XNaN => None
  | XInf true, XInf true => Some Eq
  | XInf false, XInf false => Some Eq
  | XInf true, _ => Some Lt
  | _, XInf true => Some Gt
  | XInf false, _ => Some Gt
  | _, XInf false => Some Lt
  | XFin m1 e1, XFin m2 e2 =>
      let e := Z.min e1 e2 in
      Some (m1 * 2 ^ (e1 - e) ?= m2 * 2 ^ (e2 - e))
  end.

(** [int(x)] on a number: truncation toward zero. *)
Definition xtrunc (a : xnum) : outcome Z :=
  match a with
  | XNaN => Raise ValueError
  | XInf _ => Raise OverflowError
  | XFin m e => Ok (if 0 <=? e then m * 2 ^ e else Z.quot m (2 ^ (- e)))
  end.

(** Quotient of [a >= 0] by [b > 0] rounded to the nearest integer,
    ties to the even one. *)
Definition div_half_even (a b : Z) : Z :=
  let q := a / b in
  let r := a mod b in
  match 2 * r ?= b with
  | Lt => q
  | Gt => q + 1
  | Eq => if Z.even q then q else q + 1
  end.

(** The binary64 number nearest to [n / d] (for [n >= 0], [d > 0]),
    ties to even, as mantissa and exponent; [None] when it is beyond
    the largest finite float. *)
Definition ilog2_ratio (n d : Z) : Z :=
  let l := Z.log2 n - Z.log2 d in
  if (if 0 <=? l then d * 2 ^ l <=? n else d <=? n * 2 ^ (- l))
  then l else l - 1.

Definition round_ratio (n d : Z) : option (Z * Z) :=
  if n =? 0 then Some (0, 0)
  else
    let e := Z.max (ilog2_ratio n d - 52) (-1074) in
    let m := if 0 <=? e then div_half_even n (d * 2 ^ e)
             else div_half_even (n * 2 ^ (- e)) d in
    let '(m, e) := if m =? 2 ^ 53 then (2 ^ 52, e + 1) else (m, e) in
    if 1024 <? Z.log2 m + 1 + e then None else Some (m, e).

Definition float_of_ratio (neg : bool) (n d : Z) : option float :=
  match round_ratio n d with
  | None => None
  | Some (m, e) =>
      Some (SF2Prim (match m with
                     | Z.pos p => S754_finite neg p e
                     | _ => S754_zero neg
                     end))
  end.

(** [float(z)] for a Python int: [OverflowError] when too large. *)
Definition float_of_int (z : Z) : outcome float :=
  match float_of_ratio (z <? 0) (Z.abs z) 1 with
  | Some f => Ok f
  | None => Raise OverflowError
  end.

(** The numeric reading of a value: [bool] is a subclass of [int]. *)
Inductive num : Type :=
| NInt (z : Z)
| NFloat (f : float).

Definition as_num (v : val) : option num :=
  match v with
  | VBool b => Some (NInt (if b then 1 else 0))
  | VInt z => Some (NInt z)
  | VFloat f => Some (NFloat f)
  | _ => None
  end.

Definition xnum_of_num (n : num) : xnum :=
  match n with
  | NInt z => XFin z 0
  | NFloat f => xnum_of_float f
  end.

Definition num_to_float (n : num) : outcome float :=
  match n with
  | NInt z => float_of_int z
  | NFloat f => Ok f
  end.

(** [isinstance(v, (int, float))] *)
Definition is_numeric (v : val) : bool :=
  match as_num v with Some _ => true | None => false end.

(** [int(v)] on a numeric value. *)
Definition py_int (n : num) : outcome Z :=
  match n with
  | NInt z => Ok z
  | NFloat f => xtrunc (xnum_of_float f)
  end.

(** ** Python operators on values *)

(** [bool(v)] *)
Definition truthy (v : val) : bool :=
  match v with
  | VNone => false
  | VBool b => b
  | VInt z => negb (z =? 0)
  | VFloat f =>
      match xcompare (xnum_of_float f) (XFin 0 0) with
      | Some Eq => false
      | _ => true
      end
  | VStr s => negb (String.eqb s "")
  | VList l => match l with [] => false | _ => true end
  | VDict d => match d with [] => false | _ => true end
  end.

Definition num_eqb (x y : num) : bool :=
  match xcompare (xnum_of_num x) (xnum_of_num y) with
  | Some Eq => true
  | _ => false
  end.

(** [a == b] *)
Fixpoint py_eq (a b : val) {struct a} : bool :=
  match a, b with
  | VNone, VNone => true
  | VStr s, VStr t => String.eqb s t
  | VList l, VList l' =>
      (fix eq_list (l l' : list val) : bool :=
         match l, l' with
         | [], [] => true
         | x :: xs, y :: ys => py_eq x y && eq_list xs ys
         | _, _ => false
         end) l l'
  | VDict d, VDict d' =>
      Nat.eqb (List.length d) (List.length d')
      && (fix sub_dict (d : list (string * val)) : bool :=
            match d with
            | [] => true
            | (k, v) :: r =>
                match dict_get k d' with
                | Some v' => py_eq v v'
                | None => false
                end && sub_dict r
            end) d
  | VBool x, _ =>
      match as_num b with
      | Some y => num_eqb (NInt (if x then 1 else 0)) y
      | None => false
      end
  | VInt x, _ =>
      match as_num b with Some y => num_eqb (NInt x) y | None => false end
  | VFloat x, _ =>
      match as_num b with Some y => num_eqb (NFloat x) y | None => false end
  | _, _ => false
  end.

(** The three-way reading of the ordering operators: [Ok None] is an
    unordered pair (a NaN is involved), [Raise TypeError] is
    ['<' not supported between instances]. *)
Fixpoint py_compare (a b : val) {struct a} : outcome (option comparison) :=
  match a, b with
  | VStr s, VStr t => Ok (Some (String.compare s t))
  | VList l, VList l' =>
      (fix cmp_list (l l' : list val) : outcome (option comparison) :=
         match l, l' with
         | [], [] => Ok (Some Eq)
         | [], _ :: _ => Ok (Some Lt)
         | _ :: _, [] => Ok (Some Gt)
         | x :: xs, y :: ys =>
             if py_eq x y then cmp_list xs ys else py_compare x y
         end) l l'
  | VBool x, _ =>
      match as_num b with
      | Some y => Ok (xcompare (XFin (if x then 1 else 0) 0) (xnum_of_num y))
      | None => Raise TypeError
      end
  | VInt x, _ =>
      match as_num b with
      | Some y => Ok (xcompare (XFin x 0) (xnum_of_num y))
      | None => Raise TypeError
      end
  | VFloat x, _ =>
      match as_num b with
      | Some y => Ok (xcompare (xnum_of_float x) (xnum_of_num y))
      | None => Raise TypeError
      end
  | _, _ => Raise TypeError
  end.

Definition py_lt (a b : val) : outcome bool :=
  c <- py_compare a b ;;
  Ok (match c with Some Lt => true | _ => false end).
Definition py_gt (a b : val) : outcome bool :=
  c <- py_compare a b ;;
  Ok (match c with Some Gt => true | _ => false end).
Definition py_le (a b : val) : outcome bool :=
  c <- py_compare a b ;;
  Ok (match c with Some Lt | Some Eq => true | _ => false end).
Definition py_ge (a b : val) : outcome bool :=
  c <- py_compare a b ;;
  Ok (match c with Some Gt | Some Eq => true | _ => false end).

Definition value_of_num (n : num) : val :=
  match n with NInt z => VInt z | NFloat f => VFloat f end.

Definition float_binop (op : float -> float -> float) (x y : num)
  : outcome val :=
  a <- num_to_float x ;;
  b <- num_to_float y ;;
  Ok (VFloat (op a b)).

(** [a + b] *)
Definition py_add (a b : val) : outcome val :=
  match as_num a, as_num b with
  | Some (NInt x), Some (NInt y) => Ok (VInt (x + y))
  | Some x, Some y => float_binop PrimFloat.add x y
  | _, _ =>
      match a, b with
      | VStr s, VStr t => Ok (VStr (s ++ t))
      | VList l, VList l' => Ok (VList (l ++ l'))
      | _, _ => Raise TypeError
      end
  end.

(** [a - b] *)
Definition py_sub (a b : val) : outcome val :=
  match as_num a, as_num b with
  | Some (NInt x), Some (NInt y) => Ok (VInt (x - y))
  | Some x, Some y => float_binop PrimFloat.sub x y
  | _, _ => Raise TypeError
  end.

Definition repeat_string (s : string) (n : Z) : string :=
  String.concat "" (List.repeat s (Z.to_nat n)).

Definition repeat_list {A} (l : list A) (n : Z) : list A :=
  List.concat (List.repeat l (Z.to_nat n)).

(** [a * b]: numbers multiply, a sequence times an int repeats. *)
Definition py_mul (a b : val) : outcome val :=
  match as_num a, as_num b with
  | Some (NInt x), Some (NInt y) => Ok (VInt (x * y))
  | Some x, Some y => float_binop PrimFloat.mul x y
  | Some (NInt n), None | None, Some (NInt n) =>
      match (match as_num a with Some _ => b | None => a end) with
      | VStr s => Ok (VStr (repeat_string s n))
      | VList l => Ok (VList (repeat_list l n))
      | _ => Raise TypeError
      end
  | _, _ => Raise TypeError
  end.

(** [a / b]: true division; the quotient of two ints is rounded once,
    and its sign is that of the operands, also when it is zero
    ([0 / -3] is [-0.0]). *)
Definition py_truediv (a b : val) : outcome val :=
  match as_num a, as_num b with
  | Some x, Some y =>
      if num_eqb y (NInt 0) then Raise ZeroDivisionError
      else
        match x, y with
        | NInt n, NInt d =>
            match float_of_ratio (negb (Bool.eqb (n <? 0) (d <? 0)))
                    (Z.abs n) (Z.abs d) with
            | Some f => Ok (VFloat f)
            | None => Raise OverflowError
            end
        | _, _ => float_binop PrimFloat.div x y
        end
  | _, _ => Raise TypeError
  end.

(** [str(v)] as an f-string inserts it; floats, lists and dicts would
    need [repr] and are left out. *)
Definition py_str (v : val) : outcome string :=
  match v with
  | VNone => Ok "None"
  | VBool true => Ok "True"
  | VBool false => Ok "False"
  | VInt z => Ok (NilZero.string_of_int (Z.to_int z))
  | VStr s => Ok s
  | _ => Unmodelled
  end.

(** [needle in hay] for two strings. *)
Fixpoint substring_in (needle hay : string) : bool :=
  if String.prefix needle hay then true
  else match hay with
       | EmptyString => false
       | String _ r => substring_in needle r
       end.

(** [x in l] for a list. *)
Definition list_contains (x : val) (l : list val) : bool :=
  existsb (fun y => py_eq y x) l.

(** [k in v] for a string [k]. *)
Definition py_in_str (k : string) (v : val) : outcome bool :=
  match v with
  | VDict d => Ok (dict_mem k d)
  | VList l => Ok (list_contains (VStr k) l)
  | VStr s => Ok (substring_in k s)
  | _ => Raise TypeError
  end.

(** [v[k]] for a string [k]. *)
Definition py_getitem (v : val) (k : string) : outcome val :=
  match v with
  | VDict d => match dict_get k d with Some x => Ok x | None => Raise KeyError end
  | _ => Raise TypeError
  end.

(** [v.get(k, default)] *)
Definition py_get (v : val) (k : string) (default : val) : outcome val :=
  match v with
  | VDict d => Ok (match dict_get k d with Some x => x | None => default end)
  | _ => Raise AttributeError
  end.

Definition chars_of (s : string) : list val :=
  map (fun c => VStr (String c EmptyString)) (list_ascii_of_string s).

(** The elements a [for] loop or a comprehension visits. *)
Definition py_iter (v : val) : outcome (list val) :=
  match v with
  | VList l => Ok l
  | VDict d => Ok (map VStr (dict_keys d))
  | VStr s => Ok (chars_of s)
  | _ => Raise TypeError
  end.

(** [k in table] for a table with string keys: an unhashable [k]
    raises, any other non-string is absent. *)
Definition py_in_table {A} (k : val) (d : list (string * A)) : outcome bool :=
  match k with
  | VStr s => Ok (dict_mem s d)
  | VList _ | VDict _ => Raise TypeError
  | _ => Ok false
  end.

(** ** [float(s)] for a string

    Surrounding whitespace is dropped, single underscores between
    digits are removed, and the rest must be a signed decimal literal
    with an optional exponent, or [inf], [infinity] or [nan] in any
    case.  The decimal value is rounded once to the nearest float.  A
    string with a byte outside ASCII is not modelled. *)

Definition is_space (c : ascii) : bool :=
  let n := N.of_nat (nat_of_ascii c) in
  ((9 <=? n) && (n <=? 13) || (28 <=? n) && (n <=? 32))%N.

Definition is_digit (c : ascii) : bool :=
  let n := N.of_nat (nat_of_ascii c) in ((48 <=? n) && (n <=? 57))%N.

Definition digit_val (c : ascii) : Z := Z.of_nat (nat_of_ascii c) - 48.

Definition lower (c : ascii) : ascii :=
  let n := nat_of_ascii c in
  if ((65 <=? n) && (n <=? 90))%nat then ascii_of_nat (n + 32) else c.

Fixpoint drop_spaces (l : list ascii) : list ascii :=
  match l with
  | c :: r => if is_space c then drop_spaces r else l
  | [] => []
  end.

Definition strip (l : list ascii) : list ascii :=
  rev (drop_spaces (rev (drop_spaces l))).

(** An underscore is allowed only after a digit and before a digit. *)
Fixpoint drop_underscores (prev : option ascii) (l : list ascii)
  : option (list ascii) :=
  match l with
  | [] =>
      match prev with
      | Some "_"%char => None
      | _ => Some []
      end
  | c :: r =>
      if Ascii.eqb c "_" then
        match prev with
        | Some p => if is_digit p then drop_underscores (Some c) r else None
        | None => None
        end
      else
        match prev with
        | Some "_"%char =>
            if is_digit c
            then option_map (cons c) (drop_underscores (Some c) r)
            else None
        | _ => option_map (cons c) (drop_underscores (Some c) r)
        end
  end.

Fixpoint take_digits (acc : Z) (count : Z) (l : list ascii)
  : Z * Z * list ascii :=
  match l with
  | c :: r =>
      if is_digit c then take_digits (10 * acc + digit_val c) (count + 1) r
      else (acc, count, l)
  | [] => (acc, count, [])
  end.

Definition take_sign (l : list ascii) : bool * list ascii :=
  match l with
  | "-"%char :: r => (true, r)
  | "+"%char :: r => (false, r)
  | _ => (false, l)
  end.

(** The exponent part: [Some 0] when there is none, [None] when what
    follows the mantissa is not a well-formed exponent. *)
Definition parse_exponent (l : list ascii) : option Z :=
  match l with
  | [] => Some 0
  | c :: r =>
      if Ascii.eqb (lower c) "e" then
        let (neg, r) := take_sign r in
        match take_digits 0 0 r with
        | (x, count, []) =>
            if 0 <? count then Some (if neg then - x else x) else None
        | _ => None
        end
      else None
  end.

Inductive float_literal : Type :=
| LitNaN
| LitInf (neg : bool)
| LitDec (neg : bool) (mantissa : Z) (exponent : Z).

Definition parse_float_literal (l : list ascii) : option float_literal :=
  let (neg, body) := take_sign l in
  let word := string_of_list_ascii (map lower body) in
  if String.eqb word "nan" then Some LitNaN
  else if String.eqb word "inf" || String.eqb word "infinity"
  then Some (LitInf neg)
  else
    let '(ip, n1, r1) := take_digits 0 0 body in
    let '(m, n2, r2) :=
      match r1 with
      | "."%char :: r => take_digits ip 0 r
      | _ => (ip, 0, r1)
      end in
    if n1 + n2 =? 0 then None
    else option_map (fun x => LitDec neg m (x - n2)) (parse_exponent r2).

Definition float_of_literal (lit : float_literal) : float :=
  match lit with
  | LitNaN => nan
  | LitInf neg => if neg then neg_infinity else infinity
  | LitDec neg m x =>
      let r := if 0 <=? x then float_of_ratio neg (m * 10 ^ x) 1
               else float_of_ratio neg m (10 ^ (- x)) in
      match r with
      | Some f => f
      | None => if neg then neg_infinity else infinity
      end
  end.

Definition is_ascii_only (l : list ascii) : bool :=
  forallb (fun c => (nat_of_ascii c <? 128)%nat) l.

(** [float(s)]: [Raise ValueError] is the parse failure. *)
Definition float_of_string (s : string) : outcome float :=
  let l := list_ascii_of_string s in
  if negb (is_ascii_only l) then Unmodelled
  else
    match drop_underscores None (strip l) with
    | None => Raise ValueError
    | Some l' =>
        match parse_float_literal l' with
        | Some lit => Ok (float_of_literal lit)
        | None => Raise ValueError
        end
    end.

(** ** [round(x, ndigits)] *)

(** An int is unchanged by a non-negative [ndigits]; otherwise it is
    rounded to the nearest multiple of [10^(-ndigits)], ties to even. *)
Definition round_int (z : Z) (ndigits : Z) : Z :=
  if 0 <=? ndigits then z
  else let b := 10 ^ (- ndigits) in b * div_half_even z b.

(** A finite float is rounded on its exact value to [ndigits] decimal
    places, ties to even, and the decimal result is converted back to
    the nearest float.  Beyond 323 places the float is returned as it
    is, below -308 places a zero of its sign. *)
Definition round_float (f : float) (ndigits : Z) : outcome float :=
  match Prim2SF f with
  | S754_finite s m e =>
      if 323 <? ndigits then Ok f
      else if ndigits <? -308 then Ok (PrimFloat.mul zero f)
      else
        let n := if 0 <=? e then Z.pos m * 2 ^ e else Z.pos m in
        let d := if 0 <=? e then 1 else 2 ^ (- e) in
        let r :=
          if 0 <=? ndigits then
            float_of_ratio s (div_half_even (n * 10 ^ ndigits) d)
              (10 ^ ndigits)
          else
            float_of_ratio s
              (div_half_even n (d * 10 ^ (- ndigits)) * 10 ^ (- ndigits)) 1
        in
        match r with
        | Some g => Ok g
        | None => Raise OverflowError
        end
  | _ => Ok f
  end.

Definition py_round (n : num) (ndigits : Z) : outcome val :=
  match n with
  | NInt z => Ok (VInt (round_int z ndigits))
  | NFloat f => g <- round_float f ndigits ;; Ok (VFloat g)
  end.

(** [max(a, b)] and [min(a, b)] of a numeric value and a bound: the
    first argument is kept unless the second is strictly beyond it. *)
Definition num_ltb (x y : num) : bool :=
  match xcompare (xnum_of_num x) (xnum_of_num y) with
  | Some Lt => true
  | _ => false
  end.

Definition max2 (v : val) (x : num) (bound : num) : val :=
  if num_ltb x bound then value_of_num bound else v.

Definition min2 (v : val) (x : num) (bound : num) : val :=
  if num_ltb bound x then value_of_num bound else v.

(** ** TypeSpec *)

Module TypeSpec.

Record t : Type := Build {
  unit : option string;
  precision : option Z;
  min : option num;
  max : option num
}.

Definition num_of (v : val) : num :=
  match as_num v with Some n => n | None => NInt 0 end.

Definition apply_min (self : t) (value : val) : val :=
  match min self with
  | Some lo => max2 value (num_of value) lo
  | None => value
  end.

Definition apply_max (self : t) (value : val) : val :=
  match max self with
  | Some hi => min2 value (num_of value) hi
  | None => value
  end.

Definition apply_precision (self : t) (value : val) : outcome val :=
  match precision self with
  | Some p => py_round (num_of value) p
  | None => Ok value
  end.

Definition apply_unit (self : t) (value : val) : outcome val :=
  match unit self with
  | Some u =>
      if String.eqb u "eurocent"
      then z <- py_int (num_of value) ;; Ok (VInt z)
      else Ok value
  | None => Ok value
  end.

(** The part of [enforce] below the [isinstance] test. *)
Definition enforce_numeric (self : t) (value : val) : outcome val :=
  let value := apply_min self value in
  let value := apply_max self value in
  value <- apply_precision self value ;;
  apply_unit self value.

Definition enforce (self : t) (value : val) : outcome val :=
  match value with
  | VNone => Ok value
  | VStr s =>
      match float_of_string s with
      | Ok f => enforce_numeric self (VFloat f)
      | Raise ValueError => Ok value
      | Raise e => Raise e
      | Unmodelled => Unmodelled
      | OutOfFuel => OutOfFuel
      end
  | _ =>
      if negb (is_numeric value) then Ok value
      else enforce_numeric self value
  end.

End TypeSpec.

(** ** The ServiceProvider capability

    [get_value] is external.  It is a function of the arguments of the
    call and of the calls made before it, so that a provider that
    answers differently each time is covered; every call is recorded
    in the context's [calls]. *)

Module ServiceCall.
Record t : Type := Build {
  service : val;
  law : val;
  field : val;
  temporal : val;
  service_context : dict;
  overwrite_input : dict
}.
End ServiceCall.

Definition AbstractServiceProvider : Type :=
  list ServiceCall.t -> ServiceCall.t -> outcome val.

(** ** PathNode: one node of the evaluation trace

    The nodes live in a store; [children] and the context's [path]
    hold indices into it, so a node reached from both is one node. *)

Module PathNode.
Record t : Type := Build {
  type : string;
  name : string;
  result : val;
  details : dict;
  children : list nat
}.

Definition set_result (r : val) (n : t) : t :=
  Build (type n) (name n) r (details n) (children n).

Definition set_details (d : dict) (n : t) : t :=
  Build (type n) (name n) (result n) d (children n).

Definition add_child (c : nat) (n : t) : t :=
  Build (type n) (name n) (result n) (details n) (children n ++ [c]).
End PathNode.

Fixpoint store_update {A} (i : nat) (f : A -> A) (l : list A) {struct l}
  : list A :=
  match l, i with
  | [], _ => []
  | x :: r, O => f x :: r
  | x :: r, S j => x :: store_update j f r
  end.

(** ** RuleContext *)

Module RuleContext.

Record t : Type := Build {
  definitions : dict;
  service_provider : option AbstractServiceProvider;
  service_context : dict;
  property_specs : list (string * dict);
  output_specs : list (string * TypeSpec.t);
  sources : option (list (string * dict));
  accessed_paths : list string;
  values_cache : dict;
  path : list nat;
  overwrite_input : dict;
  calculation_date : val;
  (** the trace nodes created so far *)
  nodes : list PathNode.t;
  (** the [get_value] calls made so far, oldest first *)
  calls : list ServiceCall.t
}.

Definition with_accessed_paths (a : list string) (c : t) : t :=
  Build (definitions c) (service_provider c) (service_context c)
    (property_specs c) (output_specs c) (sources c) a (values_cache c)
    (path c) (overwrite_input c) (calculation_date c) (nodes c) (calls c).

Definition with_values_cache (vc : dict) (c : t) : t :=
  Build (definitions c) (service_provider c) (service_context c)
    (property_specs c) (output_specs c) (sources c) (accessed_paths c) vc
    (path c) (overwrite_input c) (calculation_date c) (nodes c) (calls c).

Definition with_path (p : list nat) (c : t) : t :=
  Build (definitions c) (service_provider c) (service_context c)
    (property_specs c) (output_specs c) (sources c) (accessed_paths c)
    (values_cache c) p (overwrite_input c) (calculation_date c) (nodes c)
    (calls c).

Definition with_nodes (n : list PathNode.t) (c : t) : t :=
  Build (definitions c) (service_provider c) (service_context c)
    (property_specs c) (output_specs c) (sources c) (accessed_paths c)
    (values_cache c) (path c) (overwrite_input c) (calculation_date c) n
    (calls c).

Definition with_calls (l : list ServiceCall.t) (c : t) : t :=
  Build (definitions c) (service_provider c) (service_context c)
    (property_specs c) (output_specs c) (sources c) (accessed_paths c)
    (values_cache c) (path c) (overwrite_input c) (calculation_date c)
    (nodes c) l.

End RuleContext.

(** ** Computations over the context *)

Definition M (A : Type) : Type := RuleContext.t -> outcome (A * RuleContext.t).

Definition ret {A} (a : A) : M A := fun c => Ok (a, c).

Definition bind {A B} (m : M A) (k : A -> M B) : M B :=
  fun c =>
    match m c with
    | Ok (a, c') => k a c'
    | Raise e => Raise e
    | Unmodelled => Unmodelled
    | OutOfFuel => OutOfFuel
    end.

Definition lift {A} (o : outcome A) : M A :=
  fun c => match o with
           | Ok a => Ok (a, c)
           | Raise e => Raise e
           | Unmodelled => Unmodelled
           | OutOfFuel => OutOfFuel
           end.

Definition get_context : M RuleContext.t := fun c => Ok (c, c).
Definition modify (f : RuleContext.t -> RuleContext.t) : M unit :=
  fun c => Ok (tt, f c).

Declare Scope ctx_scope.
Delimit Scope ctx_scope with ctx.
Notation "x <- c ;; k" := (bind c (fun x => k))
  (at level 61, c at next level, right associativity) : ctx_scope.
Notation "' p <- c ;; k" := (bind c (fun x => let 'p := x in k))
  (at level 61, p pattern, c at next level, right associativity) : ctx_scope.
Notation "c ;; k" := (bind c (fun _ => k))
  (at level 61, right associativity) : ctx_scope.

Module RuleContextOps.
Import RuleContext.
Local Open Scope ctx_scope.

(** [self.accessed_paths.add(path)] *)
Definition track_access (path : string) : M unit :=
  modify (fun c =>
    if existsb (String.eqb path) (accessed_paths c) then c
    else with_accessed_paths (accessed_paths c ++ [path]) c).

(** The index the next node gets. *)
Definition add_to_path (node : PathNode.t) : M nat :=
  fun c =>
    let id := List.length (nodes c) in
    let ns :=
      match List.last (map Some (path c)) None with
      | Some top => store_update top (PathNode.add_child id) (nodes c)
      | None => nodes c
      end in
    Ok (id, with_path (path c ++ [id]) (with_nodes (ns ++ [node]) c)).

Definition pop_path : M unit :=
  modify (fun c => with_path (List.removelast (path c)) c).

(** [node.result = r] *)
Definition set_result (id : nat) (r : val) : M unit :=
  modify (fun c =>
    with_nodes (store_update id (PathNode.set_result r) (nodes c)) c).

(** [node.details.update(d)] and [node.details[k] = v] *)
Definition update_details (id : nat) (d : dict) : M unit :=
  modify (fun c =>
    with_nodes
      (store_update id
         (fun n =>
            PathNode.set_details
              (fold_left (fun acc kv => dict_set (fst kv) (snd kv) acc) d
                 (PathNode.details n)) n)
         (nodes c)) c).

Definition cache (path : string) (value : val) : M unit :=
  modify (fun c =>
    with_values_cache (dict_set path value (values_cache c)) c).

(** [await self.service_provider.get_value(...)] *)
Definition get_value (p : AbstractServiceProvider) (call : ServiceCall.t)
  : M val :=
  fun c =>
    match p (calls c) call with
    | Ok v => Ok (v, with_calls (calls c ++ [call]) c)
    | Raise e => Raise e
    | Unmodelled => Unmodelled
    | OutOfFuel => OutOfFuel
    end.

(** [f"@{service_ref['service']}.{service_ref['field']}"] *)
Definition service_field_key_of (service_ref : val) : outcome string :=
  (s <- py_getitem service_ref "service" ;;
   s <- py_str s ;;
   f <- py_getitem service_ref "field" ;;
   f <- py_str f ;;
   Ok ("@" ++ s ++ "." ++ f)%string)%outcome.

(** The override step: the key, when the property has a truthy
    [service_reference]. *)
Definition service_field_key (c : t) (path : string)
  : outcome (option string) :=
  match dict_get path (property_specs c) with
  | Some spec =>
      let service_ref :=
        match dict_get "service_reference" spec with
        | Some r => r
        | None => VDict []
        end in
      if truthy service_ref
      then (k <- service_field_key_of service_ref ;; Ok (Some k))%outcome
      else Ok None
  | None => Ok None
  end.

(** The source step: [Some value] when the property has a truthy
    [source_reference] whose table and field are among the sources. *)
Definition source_value (c : t) (path : string) : outcome (option val) :=
  match dict_get path (property_specs c) with
  | Some spec =>
      let source_ref :=
        match dict_get "source_reference" spec with
        | Some r => r
        | None => VDict []
        end in
      match sources c with
      | Some ((_ :: _) as srcs) =>
          if truthy source_ref then
            (table <- py_get source_ref "table" VNone ;;
             field <- py_get source_ref "field" VNone ;;
             has_table <- py_in_table table srcs ;;
             if has_table then
               match table with
               | VStr tname =>
                   match dict_get tname srcs with
                   | Some tbl =>
                       has_field <- py_in_table field tbl ;;
                       if has_field then
                         match field with
                         | VStr fname => Ok (dict_get fname tbl)
                         | _ => Ok None
                         end
                       else Ok None
                   | None => Ok None
                   end
               | _ => Ok None
               end
             else Ok None)%outcome
          else Ok None
      | _ => Ok None
      end
  | None => Ok None
  end.

(** The service step: the call to make, when the property has a
    truthy [service_reference] and a provider is configured. *)
Definition service_call (c : t) (path : string)
  : outcome (option (AbstractServiceProvider * ServiceCall.t)) :=
  match dict_get path (property_specs c) with
  | Some spec =>
      let service_ref :=
        match dict_get "service_reference" spec with
        | Some r => r
        | None => VDict []
        end in
      match service_provider c with
      | Some p =>
          if truthy service_ref then
            (s <- py_getitem service_ref "service" ;;
             f <- py_getitem service_ref "field" ;;
             l <- py_getitem service_ref "law" ;;
             t <- py_getitem (VDict spec) "temporal" ;;
             Ok (Some (p, ServiceCall.Build s l f t (service_context c)
                            (overwrite_input c))))%outcome
          else Ok None
      | None => Ok None
      end
  | None => Ok None
  end.

(** [resolve_value]: anything but a string that starts with [$] is
    returned as it is. *)
Definition resolve_value (path : val) : M val :=
  match path with
  | VStr (String "$" path) =>
      track_access path ;;
      c <- get_context ;;
      if String.eqb path "calculation_date" then ret (calculation_date c)
      else
        match dict_get path (definitions c) with
        | Some v => ret v
        | None =>
            match dict_get path (values_cache c) with
            | Some v => ret v
            | None =>
                key <- lift (service_field_key c path) ;;
                match
                  match key with
                  | Some k => dict_get k (overwrite_input c)
                  | None => None
                  end
                with
                | Some value => cache path value ;; ret value
                | None =>
                    src <- lift (source_value c path) ;;
                    match src with
                    | Some value => cache path value ;; ret value
                    | None =>
                        call <- lift (service_call c path) ;;
                        match call with
                        | Some (p, call) =>
                            value <- get_value p call ;;
                            cache path value ;;
                            ret value
                        | None => ret VNone
                        end
                    end
                end
            end
        end
  | _ => ret path
  end.

End RuleContextOps.

(** ** Dates

    [datetime.fromisoformat(str(v))] is modelled on strings of the
    form [YYYY-MM-DD]; other values and other ISO forms are left
    out. *)

Module Date.
Record t : Type := Build { year : Z; month : Z; day : Z }.

Definition is_leap (y : Z) : bool :=
  ((y mod 4 =? 0) && negb (y mod 100 =? 0)) || (y mod 400 =? 0).

Definition days_in_month (y m : Z) : Z :=
  if m =? 2 then (if is_leap y then 29 else 28)
  else if (m =? 4) || (m =? 6) || (m =? 9) || (m =? 11) then 30
  else 31.

(** Days before the first of January of year [y], counted from year 1. *)
Definition days_before_year (y : Z) : Z :=
  let p := y - 1 in p * 365 + p / 4 - p / 100 + p / 400.

Fixpoint days_before_month (y : Z) (m : nat) : Z :=
  match m with
  | O => 0
  | S k => days_before_month y k + days_in_month y (Z.of_nat (S k))
  end.

(** [date.toordinal()] *)
Definition toordinal (d : t) : Z :=
  days_before_year (year d)
  + days_before_month (year d) (Z.to_nat (month d - 1)) + day d.

Definition number (l : list ascii) : option Z :=
  if forallb is_digit l
  then Some (fold_left (fun acc c => 10 * acc + digit_val c) l 0)
  else None.

Definition fromisoformat (v : val) : outcome t :=
  match v with
  | VStr s =>
      match list_ascii_of_string s with
      | [y1; y2; y3; y4; "-"%char; m1; m2; "-"%char; d1; d2] =>
          match number [y1; y2; y3; y4], number [m1; m2], number [d1; d2] with
          | Some y, Some m, Some d =>
              if (1 <=? y) && (1 <=? m) && (m <=? 12)
                 && (1 <=? d) && (d <=? days_in_month y m)
              then Ok (Build y m d)
              else Raise ValueError
          | _, _, _ => Raise ValueError
          end
      | _ => Unmodelled
      end
  | _ => Unmodelled
  end.
End Date.

(** ** RulesEngine *)

Module RulesEngine.
Import RuleContextOps.
Local Open Scope ctx_scope.

Record t : Type := Build {
  spec : val;
  service_name : val;
  law : val;
  definitions : dict;
  requirements : val;
  actions : val;
  property_specs : list (string * dict);
  output_specs : list (string * TypeSpec.t);
  service_provider : option AbstractServiceProvider
}.

(** A property or output name used as a key: the specification
    format has strings there. *)
Definition key_of (v : val) : outcome string :=
  match v with
  | VStr s => Ok s
  | VList _ | VDict _ => Raise TypeError
  | _ => Unmodelled
  end.

Fixpoint add_named (l : list val) (specs : list (string * dict))
  : outcome (list (string * dict)) :=
  match l with
  | [] => Ok specs
  | prop :: r =>
      (has_name <- py_in_str "name" prop ;;
       if has_name then
         name <- py_getitem prop "name" ;;
         name <- key_of name ;;
         match prop with
         | VDict d => add_named r (dict_set name d specs)
         | _ => Raise TypeError
         end
       else add_named r specs)%outcome
  end.

Definition _build_property_specs (properties : val)
  : outcome (list (string * dict)) :=
  (inputs <- py_get properties "input" (VList []) ;;
   inputs <- py_iter inputs ;;
   specs <- add_named inputs [] ;;
   sources <- py_get properties "sources" (VList []) ;;
   sources <- py_iter sources ;;
   add_named sources specs)%outcome.

Definition opt_string (v : val) : outcome (option string) :=
  match v with
  | VNone => Ok None
  | VStr s => Ok (Some s)
  | _ => Unmodelled
  end.

Definition opt_int (v : val) : outcome (option Z) :=
  match v with
  | VNone => Ok None
  | VInt z => Ok (Some z)
  | VBool b => Ok (Some (if b then 1 else 0))
  | _ => Unmodelled
  end.

Definition opt_num (v : val) : outcome (option num) :=
  match v with
  | VNone => Ok None
  | _ => match as_num v with Some n => Ok (Some n) | None => Unmodelled end
  end.

Fixpoint add_output_specs (l : list val) (specs : list (string * TypeSpec.t))
  : outcome (list (string * TypeSpec.t)) :=
  match l with
  | [] => Ok specs
  | output :: r =>
      (has_name <- py_in_str "name" output ;;
       if has_name then
         type_spec <- py_get output "type_spec" (VDict []) ;;
         u <- py_get type_spec "unit" VNone ;;
         p <- py_get type_spec "precision" VNone ;;
         lo <- py_get type_spec "min" VNone ;;
         hi <- py_get type_spec "max" VNone ;;
         name <- py_getitem output "name" ;;
         name <- key_of name ;;
         u <- opt_string u ;;
         p <- opt_int p ;;
         lo <- opt_num lo ;;
         hi <- opt_num hi ;;
         add_output_specs r (dict_set name (TypeSpec.Build u p lo hi) specs)
       else add_output_specs r specs)%outcome
  end.

Definition _build_output_specs (properties : val)
  : outcome (list (string * TypeSpec.t)) :=
  (outputs <- py_get properties "output" (VList []) ;;
   outputs <- py_iter outputs ;;
   add_output_specs outputs [])%outcome.

Definition __init__ (spec : val)
    (service_provider : option AbstractServiceProvider) : outcome t :=
  (service <- py_get spec "service" VNone ;;
   law <- py_get spec "law" VNone ;;
   properties <- py_get spec "properties" (VDict []) ;;
   definitions <- py_get properties "definitions" (VDict []) ;;
   definitions <- match definitions with
                  | VDict d => Ok d
                  | _ => Unmodelled
                  end ;;
   requirements <- py_get spec "requirements" (VList []) ;;
   actions <- py_get spec "actions" (VList []) ;;
   property_specs <- _build_property_specs properties ;;
   output_specs <- _build_output_specs properties ;;
   Ok (Build spec service law definitions requirements actions
         property_specs output_specs service_provider))%outcome.

Definition _enforce_output_type (self : t) (name : string) (value : val)
  : outcome val :=
  match dict_get name (output_specs self) with
  | Some ts => TypeSpec.enforce ts value
  | None => Ok value
  end.

(** *** The operator tables *)

Definition COMPARISON_OPS : list (string * (val -> val -> outcome bool)) :=
  [ ("EQUALS", fun a b => Ok (py_eq a b));
    ("NOT_EQUALS", fun a b => Ok (negb (py_eq a b)));
    ("GREATER_THAN", py_gt);
    ("LESS_THAN", py_lt);
    ("GREATER_OR_EQUAL", py_ge);
    ("LESS_OR_EQUAL", py_le) ].

(** [functools.reduce(f, l, acc)] *)
Fixpoint reduce (f : val -> val -> outcome val) (l : list val) (acc : val)
  : outcome val :=
  match l with
  | [] => Ok acc
  | y :: r => (x <- f acc y ;; reduce f r x)%outcome
  end.

(** [vals[0]] and [vals[1:]] of a list known to be non-empty. *)
Definition head (vals : list val) : val := List.hd VNone vals.
Definition rest (vals : list val) : list val := List.tl vals.

Definition py_min (vals : list val) : outcome val :=
  reduce (fun cur item =>
            (b <- py_lt item cur ;; Ok (if b then item else cur))%outcome)
    (rest vals) (head vals).

Definition py_max (vals : list val) : outcome val :=
  reduce (fun cur item =>
            (b <- py_gt item cur ;; Ok (if b then item else cur))%outcome)
    (rest vals) (head vals).

Definition py_sum (vals : list val) : outcome val :=
  reduce py_add vals (VInt 0).

(** [int(v)] of the result of an arithmetic operator. *)
Definition int_of (v : val) : outcome val :=
  match as_num v with
  | Some n => (z <- py_int n ;; Ok (VInt z))%outcome
  | None =>
      match v with
      | VStr _ => Unmodelled
      | _ => Raise TypeError
      end
  end.

(** [isinstance(y, float) and y < 1] *)
Definition float_below_one (y : val) : bool :=
  match y with
  | VFloat f =>
      match xcompare (xnum_of_float f) (XFin 1 0) with
      | Some Lt => true
      | _ => false
      end
  | _ => false
  end.

Definition multiply_step (x y : val) : outcome val :=
  if float_below_one y
  then (p <- py_mul x y ;; int_of p)%outcome
  else py_mul x y.

Definition divide_step (x y : val) : outcome val :=
  if negb (py_eq y (VInt 0))
  then (q <- py_truediv x y ;; int_of q)%outcome
  else Ok (VInt 0).

Definition MULTIPLY (vals : list val) : outcome val :=
  reduce multiply_step (rest vals) (head vals).

Definition SUBTRACT (vals : list val) : outcome val :=
  reduce py_sub (rest vals) (head vals).

Definition DIVIDE (vals : list val) : outcome val :=
  if negb (list_contains (VInt 0) (rest vals))
  then reduce divide_step (rest vals) (head vals)
  else Ok (VInt 0).

Definition ARITHMETIC_OPS : list (string * (list val -> outcome val)) :=
  [ ("MIN", py_min);
    ("MAX", py_max);
    ("ADD", py_sum);
    ("MULTIPLY", MULTIPLY);
    ("SUBTRACT", SUBTRACT);
    ("DIVIDE", DIVIDE) ].

Definition _evaluate_arithmetic (op : string) (values : list val)
  : outcome val :=
  match values with
  | [] => Ok (VInt 0)
  | _ =>
      match dict_get op ARITHMETIC_OPS with
      | Some f => f values
      | None => Raise KeyError
      end
  end.

Definition _evaluate_comparison (op : string) (left right : val)
  : outcome val :=
  match dict_get op COMPARISON_OPS with
  | Some f => (b <- f left right ;; Ok (VBool b))%outcome
  | None => Raise KeyError
  end.

Definition _evaluate_date_operation (op : val) (values : list val)
    (unit : val) : outcome val :=
  if py_eq op (VStr "SUBTRACT_DATE") then
    match values with
    | [end_date; start_date] =>
        (end_date <- Date.fromisoformat end_date ;;
         start_date <- Date.fromisoformat start_date ;;
         if py_eq unit (VStr "days") then
           Ok (VInt (Date.toordinal end_date - Date.toordinal start_date))
         else if py_eq unit (VStr "years") then
           Ok (VInt (Date.year end_date - Date.year start_date
                     - (if (Date.month end_date <? Date.month start_date)
                           || ((Date.month end_date =? Date.month start_date)
                               && (Date.day end_date <? Date.day start_date))
                        then 1 else 0)))
         else if py_eq unit (VStr "months") then
           Ok (VInt ((Date.year end_date - Date.year start_date) * 12
                     + Date.month end_date - Date.month start_date))
         else Ok (VInt 0))%outcome
    | _ => Ok (VInt 0)
    end
  else Ok VNone.

(** *** The interpreter

    [_evaluate_operation], [_evaluate_value] and
    [_evaluate_if_operation] call one another; the recursion is on
    the nesting of operations and is bounded by [fuel]. *)

Definition new_node (type name : string) (details : dict) : PathNode.t :=
  PathNode.Build type name VNone details [].

Fixpoint mapM {A B} (f : A -> M B) (l : list A) : M (list B) :=
  match l with
  | [] => ret []
  | x :: r => y <- f x ;; ys <- mapM f r ;; ret (y :: ys)
  end.

Section Interpreter.
(** The recursive calls to [_evaluate_operation]. *)
Variable evaluate_operation : val -> M val.

Definition evaluate_value_with (value : val) : M val :=
  if is_numeric value then ret value
  else
    match value with
    | VDict d =>
        if dict_mem "operation" d then evaluate_operation value
        else resolve_value value
    | _ => resolve_value value
    end.

(** [if_node.details['condition_results'].append(condition_result)] *)
Definition append_condition_result (id : nat) (condition_result : dict)
  : M unit :=
  modify (fun c =>
    RuleContext.with_nodes
      (store_update id
         (fun n =>
            PathNode.set_details
              (dict_set "condition_results"
                 (VList
                    (match dict_get "condition_results"
                             (PathNode.details n) with
                     | Some (VList l) => l ++ [VDict condition_result]
                     | _ => [VDict condition_result]
                     end))
                 (PathNode.details n)) n)
         (RuleContext.nodes c)) c).

Fixpoint if_conditions (if_node : nat) (i : Z) (conditions : list val)
    (result : val) : M val :=
  match conditions with
  | [] => ret result
  | condition :: r =>
      has_test <- lift (py_in_str "test" condition) ;;
      let condition_result :=
        [("condition_index", VInt i);
         ("type", VStr (if has_test then "test" else "else"))] in
      if has_test then
        test <- lift (py_getitem condition "test") ;;
        test_result <- evaluate_operation test ;;
        let condition_result :=
          dict_set "test_result" test_result condition_result in
        if truthy test_result then
          then_ <- lift (py_getitem condition "then") ;;
          result <- evaluate_value_with then_ ;;
          append_condition_result if_node
            (dict_set "then_value" result condition_result) ;;
          ret result
        else
          append_condition_result if_node condition_result ;;
          if_conditions if_node (i + 1) r result
      else
        has_else <- lift (py_in_str "else" condition) ;;
        if has_else then
          else_ <- lift (py_getitem condition "else") ;;
          result <- evaluate_value_with else_ ;;
          append_condition_result if_node
            (dict_set "else_value" result condition_result) ;;
          ret result
        else
          append_condition_result if_node condition_result ;;
          if_conditions if_node (i + 1) r result
  end.

Definition evaluate_if_operation_with (operation : val) : M val :=
  if_node <- add_to_path
               (new_node "operation" "IF conditions"
                  [("condition_results", VList [])]) ;;
  conditions <- lift (py_get operation "conditions" (VList [])) ;;
  conditions <- lift (py_iter conditions) ;;
  result <- if_conditions if_node 0 conditions (VInt 0) ;;
  set_result if_node result ;;
  pop_path ;;
  ret result.

(** The body of [_evaluate_operation]. *)
Definition evaluate_operation_body (operation : val) : M val :=
  match operation with
  | VDict d =>
      let op := match dict_get "operation" d with
                | Some o => o
                | None => VNone
                end in
      if dict_mem "value" d && negb (truthy op) then
        value <- lift (py_getitem operation "value") ;;
        node <- add_to_path
                  (new_node "direct_value" "Direct value assignment"
                     [("raw_value", value)]) ;;
        result <- evaluate_value_with value ;;
        set_result node result ;;
        pop_path ;;
        ret result
      else
        let op_type := op in
        label <- lift (py_str op_type) ;;
        node <- add_to_path
                  (new_node "operation" ("Operation: " ++ label)
                     [("operation_type", op_type)]) ;;
        result <-
          (if py_eq op_type (VStr "IF") then
             evaluate_if_operation_with operation
           else if py_eq op_type (VStr "IN") then
             subject <- lift (py_getitem operation "subject") ;;
             subject <- evaluate_value_with subject ;;
             allowed_values <- lift (py_get operation "values" (VList [])) ;;
             allowed_values <- evaluate_value_with allowed_values ;;
             let result :=
               list_contains subject
                 (match allowed_values with
                  | VList l => l
                  | _ => [allowed_values]
                  end) in
             update_details node
               [("subject_value", subject);
                ("allowed_values", allowed_values)] ;;
             ret (VBool result)
           else if py_eq op_type (VStr "NOT_NULL") then
             subject <- lift (py_getitem operation "subject") ;;
             subject <- evaluate_value_with subject ;;
             update_details node [("subject_value", subject)] ;;
             ret (VBool (match subject with VNone => false | _ => true end))
           else if py_eq op_type (VStr "AND") then
             values <- lift (py_getitem operation "values") ;;
             values <- lift (py_iter values) ;;
             values <- mapM evaluate_value_with values ;;
             update_details node [("evaluated_values", VList values)] ;;
             ret (VBool (forallb truthy values))
           else if py_eq op_type (VStr "OR") then
             values <- lift (py_getitem operation "values") ;;
             values <- lift (py_iter values) ;;
             values <- mapM evaluate_value_with values ;;
             update_details node [("evaluated_values", VList values)] ;;
             ret (VBool (existsb truthy values))
           else
             is_date <- lift (py_in_str "_DATE" op_type) ;;
             if is_date then
               values <- lift (py_getitem operation "values") ;;
               values <- lift (py_iter values) ;;
               values <- mapM evaluate_value_with values ;;
               unit <- lift (py_get operation "unit" (VStr "days")) ;;
               result <- lift (_evaluate_date_operation op_type values unit) ;;
               update_details node
                 [("evaluated_values", VList values); ("unit", unit)] ;;
               ret result
             else
               is_comparison <- lift (py_in_table op_type COMPARISON_OPS) ;;
               if is_comparison && dict_mem "subject" d then
                 subject <- lift (py_getitem operation "subject") ;;
                 subject <- evaluate_value_with subject ;;
                 value <- lift (py_getitem operation "value") ;;
                 value <- evaluate_value_with value ;;
                 op_name <- lift (key_of op_type) ;;
                 result <- lift (_evaluate_comparison op_name subject value) ;;
                 update_details node
                   [("subject_value", subject);
                    ("comparison_value", value);
                    ("comparison_type", op_type)] ;;
                 ret result
               else
                 is_arithmetic <- lift (py_in_table op_type ARITHMETIC_OPS) ;;
                 if is_arithmetic && dict_mem "values" d then
                   raw_values <- lift (py_getitem operation "values") ;;
                   values <- lift (py_iter raw_values) ;;
                   values <- mapM evaluate_value_with values ;;
                   op_name <- lift (key_of op_type) ;;
                   result <- lift (_evaluate_arithmetic op_name values) ;;
                   update_details node
                     [("raw_values", raw_values);
                      ("evaluated_values", VList values);
                      ("arithmetic_type", op_type)] ;;
                   ret result
                 else
                   update_details node
                     [("error", VStr "Invalid operation format")] ;;
                   ret (VInt 0)) ;;
        set_result node result ;;
        pop_path ;;
        ret result
  | _ =>
      node <- add_to_path
                (new_node "value" "Direct value evaluation"
                   [("raw_value", operation)]) ;;
      result <- evaluate_value_with operation ;;
      set_result node result ;;
      pop_path ;;
      ret result
  end.
End Interpreter.

Definition out_of_fuel {A} : M A := fun _ => OutOfFuel.

Fixpoint _evaluate_operation (fuel : nat) (operation : val) : M val :=
  match fuel with
  | O => out_of_fuel
  | S fuel => evaluate_operation_body (_evaluate_operation fuel) operation
  end.

Definition _evaluate_value (fuel : nat) (value : val) : M val :=
  evaluate_value_with (_evaluate_operation fuel) value.

Definition _evaluate_if_operation (fuel : nat) (operation : val) : M val :=
  evaluate_if_operation_with (_evaluate_operation fuel) operation.

(** *** Requirements *)

Section Requirements.
(** The recursive calls to [_evaluate_requirements]. *)
Variable evaluate_requirements : val -> M bool.
Variable evaluate_operation : val -> M val.

(** The body of the [for] loop, up to [context.pop_path()]. *)
Definition requirement_step (req : val) : M val :=
  has_all <- lift (py_in_str "all" req) ;;
  has_or <- lift (if has_all then Ok false else py_in_str "or" req) ;;
  node <- add_to_path
            (new_node "requirement"
               (if has_all then "Check ALL conditions"
                else if has_or then "Check OR conditions"
                else "Test condition") []) ;;
  result <-
    (if has_all then
       l <- lift (py_getitem req "all") ;;
       l <- lift (py_iter l) ;;
       results <- mapM (fun r => evaluate_requirements (VList [r])) l ;;
       ret (VBool (forallb id results))
     else if has_or then
       l <- lift (py_getitem req "or") ;;
       l <- lift (py_iter l) ;;
       results <- mapM (fun r => evaluate_requirements (VList [r])) l ;;
       ret (VBool (existsb id results))
     else evaluate_operation req) ;;
  set_result node result ;;
  pop_path ;;
  ret result.

Fixpoint requirements_loop (requirements : list val) : M bool :=
  match requirements with
  | [] => ret true
  | req :: r =>
      result <- requirement_step req ;;
      if negb (truthy result) then ret false
      else requirements_loop r
  end.

Definition evaluate_requirements_body (requirements : val) : M bool :=
  if negb (truthy requirements) then ret true
  else
    l <- lift (py_iter requirements) ;;
    requirements_loop l.
End Requirements.

Fixpoint _evaluate_requirements (fuel : nat) (requirements : val) : M bool :=
  match fuel with
  | O => out_of_fuel
  | S fuel =>
      evaluate_requirements_body (_evaluate_requirements fuel)
        (_evaluate_operation fuel) requirements
  end.

(** *** Actions *)

(** [self.spec.get('properties', {}).get('output', [])] *)
Definition spec_outputs (self : t) : outcome (list val) :=
  (properties <- py_get (spec self) "properties" (VDict []) ;;
   outputs <- py_get properties "output" (VList []) ;;
   py_iter outputs)%outcome.

(** [next((spec for spec in ... if spec.get('name') == output_name), {})] *)
Fixpoint find_output_spec (outputs : list val) (output_name : val)
  : outcome val :=
  match outputs with
  | [] => Ok (VDict [])
  | spec :: r =>
      (name <- py_get spec "name" VNone ;;
       if py_eq name output_name then Ok spec
       else find_output_spec r output_name)%outcome
  end.

Definition _evaluate_action (self : t) (fuel : nat) (action : val)
  : M (val * string) :=
  label <- lift (label <- py_get action "output" (VStr "") ;; py_str label)%outcome ;;
  action_node <- add_to_path
                   (new_node "action" ("Evaluate action for " ++ label) []) ;;
  output_name <- lift (py_getitem action "output") ;;
  outputs <- lift (spec_outputs self) ;;
  output_spec <- lift (find_output_spec outputs output_name) ;;
  service <- lift (py_str (service_name self)) ;;
  name <- lift (py_str output_name) ;;
  let service_path := ("@" ++ service ++ "." ++ name)%string in
  c <- get_context ;;
  raw_result <-
    match dict_get service_path (RuleContext.overwrite_input c) with
    | Some v => ret v
    | None =>
        has_value <- lift (py_in_str "value" action) ;;
        if has_value then
          value <- lift (py_getitem action "value") ;;
          _evaluate_value fuel value
        else _evaluate_operation fuel action
    end ;;
  output_name <- lift (key_of output_name) ;;
  result <- lift (_enforce_output_type self output_name raw_result) ;;
  set_result action_node result ;;
  type <- lift (py_get output_spec "type" (VStr "unknown")) ;;
  description <- lift (py_get output_spec "description" (VStr "")) ;;
  let output_def :=
    [("value", result); ("type", type); ("description", description)] in
  has_type_spec <- lift (py_in_str "type_spec" output_spec) ;;
  output_def <-
    (if has_type_spec then
       ts <- lift (py_getitem output_spec "type_spec") ;;
       ret (dict_set "type_spec" ts output_def)
     else ret output_def) ;;
  has_temporal <- lift (py_in_str "temporal" output_spec) ;;
  output_def <-
    (if has_temporal then
       tp <- lift (py_getitem output_spec "temporal") ;;
       ret (dict_set "temporal" tp output_def)
     else ret output_def) ;;
  ret (VDict output_def, output_name).

(** *** evaluate *)

Module Result.
Record t : Type := Build {
  input : dict;
  output : dict;
  requirements_met : bool;
  (** the root node and the store it points into *)
  path : nat * list PathNode.t
}.
End Result.

(** [if requested_output and requested_output != output_name] *)
Definition skipped (requested_output : option string) (output_name : val)
  : bool :=
  match requested_output with
  | Some r => truthy (VStr r) && negb (py_eq (VStr r) output_name)
  | None => false
  end.

Fixpoint actions_loop (self : t) (fuel : nat)
    (requested_output : option string) (actions : list val)
    (output_values : dict) : M dict :=
  match actions with
  | [] => ret output_values
  | action :: r =>
      output_name <- lift (py_getitem action "output") ;;
      if skipped requested_output output_name
      then actions_loop self fuel requested_output r output_values
      else
        '(output_def, output_name) <- _evaluate_action self fuel action ;;
        let output_values := dict_set output_name output_def output_values in
        pop_path ;;
        actions_loop self fuel requested_output r output_values
  end.

Definition initial_context (self : t) (service_context : option dict)
    (overwrite_input : option dict) (sources : option (list (string * dict)))
    (calculation_date : val) (root : PathNode.t)
    (calls : list ServiceCall.t) : RuleContext.t :=
  RuleContext.Build (definitions self) (service_provider self)
    (match service_context with Some d => d | None => [] end)
    (property_specs self) (output_specs self) sources [] [] [0%nat]
    (match overwrite_input with Some d => d | None => [] end)
    calculation_date [root] calls.

(** [calls] is what the provider has been asked before this
    evaluation; the outcome pairs the result with the calls made up
    to its end. *)
Definition evaluate (self : t) (fuel : nat) (service_context : option dict)
    (overwrite_input : option dict) (sources : option (list (string * dict)))
    (calculation_date : val) (requested_output : option string)
    (calls : list ServiceCall.t)
  : outcome (Result.t * list ServiceCall.t) :=
  let root := new_node "root" "evaluation" [] in
  let context :=
    initial_context self service_context overwrite_input sources
      calculation_date root calls in
  let run : M Result.t :=
    requirements_node <- add_to_path
                           (new_node "requirements" "Check all requirements"
                              []) ;;
    requirements_met <- _evaluate_requirements fuel (requirements self) ;;
    set_result requirements_node (VBool requirements_met) ;;
    pop_path ;;
    c <- get_context ;;
    let input_values := RuleContext.values_cache c in
    output_values <-
      (if requirements_met then
         actions <- lift (py_iter (actions self)) ;;
         actions_loop self fuel requested_output actions []
       else ret []) ;;
    c <- get_context ;;
    ret (Result.Build input_values output_values requirements_met
           (0%nat, RuleContext.nodes c)) in
  match run context with
  | Ok (r, c) => Ok (r, RuleContext.calls c)
  | Raise e => Raise e
  | Unmodelled => Unmodelled
  | OutOfFuel => OutOfFuel
  end.

End RulesEngine.

(** * Properties *)

Import RulesEngine.

(** ** Arithmetic folds *)

(** One step of a left fold whose accumulator may already have failed. *)
Definition fold_step (f : val -> val -> outcome val)
    (acc : outcome val) (y : val) : outcome val :=
  (x <- acc ;; f x y)%outcome.

Lemma fold_left_failed (f : val -> val -> outcome val) (l : list val)
    (o : outcome val) :
  (forall a, o <> Ok a) -> fold_left (fold_step f) l o = o.
Proof.
  induction l as [|y l IH]; intros Hfail; simpl; [reflexivity|].
  destruct o as [a| | |]; simpl; try (apply IH; discriminate).
  exfalso; apply (Hfail a); reflexivity.
Qed.

Lemma reduce_fold_left (f : val -> val -> outcome val) (l : list val)
    (acc : val) :
  reduce f l acc = fold_left (fold_step f) l (Ok acc).
Proof.
  revert acc; induction l as [|y l IH]; intros acc; simpl; [reflexivity|].
  destruct (f acc y) as [x| | |] eqn:E; simpl.
  - apply IH.
  - symmetry; apply fold_left_failed; discriminate.
  - symmetry; apply fold_left_failed; discriminate.
  - symmetry; apply fold_left_failed; discriminate.
Qed.

Lemma reduce_ext_in (f g : val -> val -> outcome val) (l : list val) :
  (forall x y, In y l -> f x y = g x y) ->
  forall acc, reduce f l acc = reduce g l acc.
Proof.
  induction l as [|y l IH]; intros Hfg acc; simpl; [reflexivity|].
  rewrite (Hfg acc y) by (left; reflexivity).
  destruct (g acc y); simpl; try reflexivity.
  apply IH; intros; apply Hfg; right; assumption.
Qed.

(** What the claim calls a quotient truncated to an integer. *)
Definition truncated_quotient (x y : val) : outcome val :=
  (q <- py_truediv x y ;; int_of q)%outcome.

Lemma list_contains_false (x : val) (l : list val) :
  list_contains x l = false -> forall y, In y l -> py_eq y x = false.
Proof.
  unfold list_contains; intros H y Hy.
  destruct (py_eq y x) eqn:E; [|reflexivity].
  rewrite <- H; symmetry; apply existsb_exists; exists y; split; assumption.
Qed.

(** A true division that returns gives a float, and [int] of it is its
    truncation toward zero. *)
Lemma truediv_float (x y q : val) :
  py_truediv x y = Ok q -> exists f, q = VFloat f.
Proof.
  unfold py_truediv.
  destruct (as_num x) as [nx|]; [|discriminate].
  destruct (as_num y) as [ny|]; [|discriminate].
  destruct (num_eqb ny (NInt 0)); [discriminate|].
  destruct nx as [n|fx], ny as [d|fy].
  - destruct (float_of_ratio _ _ _); [|discriminate].
    intros H; injection H as <-; eexists; reflexivity.
  - unfold float_binop; destruct (num_to_float (NInt n)); simpl; try discriminate.
    intros H; injection H as <-; eexists; reflexivity.
  - unfold float_binop; simpl; destruct (float_of_int d); simpl; try discriminate.
    intros H; injection H as <-; eexists; reflexivity.
  - unfold float_binop; simpl.
    intros H; injection H as <-; eexists; reflexivity.
Qed.

(** C3 — DIVIDE over the evaluated values [v0, v1, ..., vn]: 0 as soon
    as one divisor among v1..vn equals 0; otherwise the left fold from
    v0 in which every partial quotient [x / y] is cut to an integer by
    truncation toward zero.  So DIVIDE([10, 3]) = 3,
    DIVIDE([100, 3, 3]) = 11 and DIVIDE([100, 0, 5]) = 0. *)
Theorem DIVIDE_truncates_every_quotient :
  (forall v0 vs,
      _evaluate_arithmetic "DIVIDE" (v0 :: vs) =
      if existsb (fun y => py_eq y (VInt 0)) vs then Ok (VInt 0)
      else fold_left (fold_step truncated_quotient) vs (Ok v0))
  /\ (forall x y r,
         truncated_quotient x y = Ok r ->
         exists f z, py_truediv x y = Ok (VFloat f)
                     /\ xtrunc (xnum_of_float f) = Ok z /\ r = VInt z)
  /\ (forall m e, xtrunc (XFin m e) =
                  Ok (if 0 <=? e then m * 2 ^ e else Z.quot m (2 ^ (- e))))
  /\ _evaluate_arithmetic "DIVIDE" [VInt 10; VInt 3] = Ok (VInt 3)
  /\ _evaluate_arithmetic "DIVIDE" [VInt 100; VInt 3; VInt 3] = Ok (VInt 11)
  /\ _evaluate_arithmetic "DIVIDE" [VInt 100; VInt 0; VInt 5] = Ok (VInt 0).
Proof.
  split; [|split; [|split; [|repeat split; vm_compute; reflexivity]]].
  - intros v0 vs.
    change (_evaluate_arithmetic "DIVIDE" (v0 :: vs)) with (DIVIDE (v0 :: vs)).
    unfold DIVIDE, rest, head; simpl List.tl; simpl List.hd.
    change (list_contains (VInt 0) vs)
      with (existsb (fun y => py_eq y (VInt 0)) vs).
    destruct (existsb (fun y => py_eq y (VInt 0)) vs) eqn:E; simpl;
      [reflexivity|].
    rewrite <- reduce_fold_left.
    apply reduce_ext_in; intros x y Hy.
    unfold divide_step, truncated_quotient.
    rewrite (list_contains_false (VInt 0) vs E y Hy); reflexivity.
  - intros x y r; unfold truncated_quotient.
    destruct (py_truediv x y) as [q| | |] eqn:E; simpl; try discriminate.
    destruct (truediv_float _ _ _ E) as [f ->].
    unfold int_of, as_num, py_int.
    destruct (xtrunc (xnum_of_float f)) as [z| | |] eqn:T; simpl;
      try discriminate.
    intros H; injection H as <-.
    exists f, z; repeat split; assumption.
  - reflexivity.
Qed.

(** ** MULTIPLY *)

(** The rule as the specification words it: the product is cut to an
    integer when the right operand is a non-integer number of absolute
    value below 1. *)
Definition nonint_of_magnitude_below_one (y : val) : bool :=
  match y with
  | VFloat f =>
      let x := xnum_of_float f in
      match xcompare (XFin (-1) 0) x, xcompare x (XFin 1 0),
            xcompare x (XFin 0 0) with
      | Some Lt, Some Lt, Some Eq => false
      | Some Lt, Some Lt, Some _ => true
      | _, _, _ => false
      end
  | _ => false
  end.

Definition truncated_product (x y : val) : outcome val :=
  (p <- py_mul x y ;; int_of p)%outcome.

Definition MULTIPLY_as_worded (vals : list val) : outcome val :=
  reduce (fun x y =>
            if nonint_of_magnitude_below_one y then truncated_product x y
            else py_mul x y)
    (rest vals) (head vals).

(** C1, as stated, fails: at [3, -1.5] the right operand is a
    non-integer at or below -1, the specification's rule keeps the
    product -4.5, and the code returns -4. *)
Lemma MULTIPLY_worded_rule_fails :
  _evaluate_arithmetic "MULTIPLY" [VInt 3; VFloat (-1.5)] = Ok (VInt (-4))
  /\ MULTIPLY_as_worded [VInt 3; VFloat (-1.5)] = Ok (VFloat (-4.5))
  /\ _evaluate_arithmetic "MULTIPLY" [VInt 3; VFloat (-1.5)]
     <> MULTIPLY_as_worded [VInt 3; VFloat (-1.5)].
Proof.
  assert (H1 : _evaluate_arithmetic "MULTIPLY" [VInt 3; VFloat (-1.5)]
               = Ok (VInt (-4))) by (vm_compute; reflexivity).
  assert (H2 : MULTIPLY_as_worded [VInt 3; VFloat (-1.5)]
               = Ok (VFloat (-4.5))) by (vm_compute; reflexivity).
  repeat split; try assumption.
  rewrite H1, H2; discriminate.
Qed.

(** C1, amended — MULTIPLY is the left fold of multiplication from the
    first element; the running product is cut to an integer, by
    truncation toward zero, exactly when the right operand is a float
    below 1 (so for 0.0 and for every negative float, -1.5 included),
    and is the plain product otherwise (ints, bools, floats from 1
    up, NaN). *)
Theorem MULTIPLY_truncates_for_floats_below_one :
  (forall v0 vs,
      _evaluate_arithmetic "MULTIPLY" (v0 :: vs) =
      fold_left
        (fold_step (fun x y => if float_below_one y then truncated_product x y
                               else py_mul x y))
        vs (Ok v0))
  /\ (forall y,
         float_below_one y = true <->
         exists f, y = VFloat f
                   /\ xcompare (xnum_of_float f) (XFin 1 0) = Some Lt)
  /\ (forall x y r,
         float_below_one y = true -> truncated_product x y = Ok r ->
         exists f z, py_mul x y = Ok (VFloat f)
                     /\ xtrunc (xnum_of_float f) = Ok z /\ r = VInt z)
  /\ float_below_one (VFloat (-1.5)) = true
  /\ float_below_one (VFloat 0) = true
  /\ float_below_one (VFloat 0.5) = true
  /\ float_below_one (VFloat 1) = false
  /\ float_below_one (VInt 0) = false.
Proof.
  split; [|split; [|split; [|repeat split; vm_compute; reflexivity]]].
  - intros v0 vs.
    change (_evaluate_arithmetic "MULTIPLY" (v0 :: vs))
      with (MULTIPLY (v0 :: vs)).
    unfold MULTIPLY, rest, head; simpl List.tl; simpl List.hd.
    apply reduce_fold_left.
  - intros y; split.
    + destruct y; simpl; try discriminate.
      destruct (xcompare (xnum_of_float f) (XFin 1 0)) as [[| |]|] eqn:E;
        try discriminate.
      intros _; exists f; split; [reflexivity|assumption].
    + intros [f [-> E]]; simpl; rewrite E; reflexivity.
  - intros x y r Hy; unfold truncated_product.
    destruct y as [| | |fy| | |]; simpl in Hy; try discriminate.
    destruct (py_mul x (VFloat fy)) as [p| | |] eqn:E; simpl; try discriminate.
    assert (Hp : exists f, p = VFloat f).
    { revert E; unfold py_mul.
      destruct (as_num x) as [[n|fx]|]; simpl; try discriminate.
      - unfold float_binop; destruct (num_to_float (NInt n)); simpl;
          try discriminate.
        intros H; injection H as <-; eexists; reflexivity.
      - unfold float_binop; simpl.
        intros H; injection H as <-; eexists; reflexivity. }
    destruct Hp as [f ->].
    unfold int_of, as_num, py_int.
    destruct (xtrunc (xnum_of_float f)) as [z| | |] eqn:T; simpl;
      try discriminate.
    intros H; injection H as <-.
    exists f, z; repeat split; assumption.
Qed.

(** A float below 1 that passes the theorem's test, for its third part. *)
Lemma MULTIPLY_truncates_for_floats_below_one_witness :
  float_below_one (VFloat (-1.5)) = true
  /\ truncated_product (VInt 3) (VFloat (-1.5)) = Ok (VInt (-4))
  /\ exists f z, py_mul (VInt 3) (VFloat (-1.5)) = Ok (VFloat f)
                 /\ xtrunc (xnum_of_float f) = Ok z /\ VInt (-4) = VInt z.
Proof.
  split; [vm_compute; reflexivity|].
  split; [vm_compute; reflexivity|].
  apply (proj1 (proj2 (proj2 MULTIPLY_truncates_for_floats_below_one))
           (VInt 3) (VFloat (-1.5)) (VInt (-4))); vm_compute; reflexivity.
Defined.

(** The second part of the DIVIDE theorem at 10 / 3. *)
Lemma DIVIDE_truncates_every_quotient_witness :
  truncated_quotient (VInt 10) (VInt 3) = Ok (VInt 3)
  /\ exists f z, py_truediv (VInt 10) (VInt 3) = Ok (VFloat f)
                 /\ xtrunc (xnum_of_float f) = Ok z /\ VInt 3 = VInt z.
Proof.
  split; [vm_compute; reflexivity|].
  apply (proj1 (proj2 DIVIDE_truncates_every_quotient)
           (VInt 10) (VInt 3) (VInt 3)); vm_compute; reflexivity.
Defined.

(** ** TypeSpec.enforce *)

(** [div_half_even a b] is a nearest integer to [a / b], the even one
    of the two on a tie. *)
Lemma div_half_even_nearest (a b : Z) :
  0 < b ->
  2 * Z.abs (a - div_half_even a b * b) <= b
  /\ (2 * Z.abs (a - div_half_even a b * b) = b ->
      Z.even (div_half_even a b) = true).
Proof.
  intros Hb; unfold div_half_even.
  pose proof (Z.div_mod a b ltac:(lia)) as Hdm.
  pose proof (Z.mod_pos_bound a b Hb) as Hr.
  destruct (Z.compare_spec (2 * (a mod b)) b) as [E|E|E].
  - destruct (Z.even (a / b)) eqn:Ev.
    + split; [nia|intros _; exact Ev].
    + split; [nia|intros _].
      rewrite Z.even_add, Ev; reflexivity.
  - split; [nia|intros H; exfalso; nia].
  - split; [nia|intros H; exfalso; nia].
Qed.

Definition is_eurocent (self : TypeSpec.t) : bool :=
  match TypeSpec.unit self with
  | Some u => String.eqb u "eurocent"
  | None => false
  end.

(** Comparing two numbers compares their values: with one exponent
    the mantissas are compared, and writing [m * 2^e] as
    [(m * 2^k) * 2^(e - k)] changes nothing. *)
Lemma xcompare_same_exponent (m1 m2 e : Z) :
  xcompare (XFin m1 e) (XFin m2 e) = Some (m1 ?= m2).
Proof.
  simpl; rewrite Z.min_id, Z.sub_diag, !Z.mul_1_r; reflexivity.
Qed.

Lemma compare_scaled (a b k : Z) :
  0 <= k -> (a * 2 ^ k ?= b * 2 ^ k) = (a ?= b).
Proof.
  intros Hk.
  assert (Hp : 0 < 2 ^ k) by (apply Z.pow_pos_nonneg; lia).
  destruct (Z.compare_spec a b) as [E|E|E].
  - subst; apply Z.compare_refl.
  - apply Z.compare_lt_iff; nia.
  - apply Z.compare_gt_iff; nia.
Qed.

Lemma xcompare_fin (m1 e1 m2 e2 e : Z) :
  e <= e1 -> e <= e2 ->
  xcompare (XFin m1 e1) (XFin m2 e2)
  = Some (m1 * 2 ^ (e1 - e) ?= m2 * 2 ^ (e2 - e)).
Proof.
  intros H1 H2; simpl; f_equal.
  set (e0 := Z.min e1 e2).
  assert (H0 : e <= e0) by (unfold e0; lia).
  rewrite <- (compare_scaled (m1 * 2 ^ (e1 - e0)) (m2 * 2 ^ (e2 - e0))
                (e0 - e)) by lia.
  rewrite <- !Z.mul_assoc, <- !Z.pow_add_r by (unfold e0; lia).
  replace (e1 - e0 + (e0 - e)) with (e1 - e) by ring.
  replace (e2 - e0 + (e0 - e)) with (e2 - e) by ring.
  reflexivity.
Qed.

Lemma xcompare_rescale_l (m e k : Z) (x : xnum) :
  0 <= k -> xcompare (XFin (m * 2 ^ k) (e - k)) x = xcompare (XFin m e) x.
Proof.
  intros Hk; destruct x as [|[]|m2 e2]; try reflexivity.
  rewrite (xcompare_fin (m * 2 ^ k) (e - k) m2 e2 (Z.min (e - k) e2)),
    (xcompare_fin m e m2 e2 (Z.min (e - k) e2)) by lia.
  rewrite <- Z.mul_assoc, <- Z.pow_add_r by lia.
  replace (k + (e - k - Z.min (e - k) e2)) with (e - Z.min (e - k) e2) by ring.
  reflexivity.
Qed.

Lemma xcompare_rescale_r (m e k : Z) (x : xnum) :
  0 <= k -> xcompare x (XFin (m * 2 ^ k) (e - k)) = xcompare x (XFin m e).
Proof.
  intros Hk; destruct x as [|[]|m1 e1]; try reflexivity.
  rewrite (xcompare_fin m1 e1 (m * 2 ^ k) (e - k) (Z.min e1 (e - k))),
    (xcompare_fin m1 e1 m e (Z.min e1 (e - k))) by lia.
  rewrite <- Z.mul_assoc, <- Z.pow_add_r by lia.
  replace (k + (e - k - Z.min e1 (e - k))) with (e - Z.min e1 (e - k))
    by ring.
  reflexivity.
Qed.

(** *** Decimal strings parse to their value *)

(** The number a list of decimal digits writes. *)
Definition digits_value (ds : list ascii) : Z :=
  fold_left (fun acc c => 10 * acc + digit_val c) ds 0.

Definition not_underscore (c : ascii) : bool := negb (Ascii.eqb c "_").

Lemma digit_facts (c : ascii) :
  is_digit c = true ->
  is_space c = false /\ not_underscore c = true
  /\ (nat_of_ascii c <? 128)%nat = true
  /\ lower c = c
  /\ Ascii.eqb c "-" = false /\ Ascii.eqb c "+" = false
  /\ Ascii.eqb c "." = false /\ Ascii.eqb c "n" = false
  /\ Ascii.eqb c "i" = false.
Proof.
  destruct c as [[] [] [] [] [] [] [] []]; intros H;
    try discriminate H; repeat split; reflexivity.
Qed.

Lemma drop_underscores_none (l : list ascii) :
  forallb not_underscore l = true ->
  forall prev,
    match prev with Some p => not_underscore p | None => true end = true ->
    drop_underscores prev l = Some l.
Proof.
  induction l as [|c l IH]; intros Hl prev Hp.
  - destruct prev as [p|]; [|reflexivity].
    destruct p as [[] [] [] [] [] [] [] []]; try reflexivity; discriminate Hp.
  - simpl in Hl; apply andb_true_iff in Hl as [Hc Hl].
    cbn [drop_underscores].
    unfold not_underscore in Hc; apply negb_true_iff in Hc; rewrite Hc.
    assert (Hrec : drop_underscores (Some c) l = Some l).
    { apply IH; [exact Hl|unfold not_underscore; rewrite Hc; reflexivity]. }
    rewrite Hrec.
    destruct prev as [p|]; [|reflexivity].
    destruct p as [[] [] [] [] [] [] [] []]; try reflexivity; discriminate Hp.
Qed.

Lemma take_digits_app (ds rest : list ascii) :
  forallb is_digit ds = true ->
  forall acc count,
    take_digits acc count (ds ++ rest)
    = take_digits (fold_left (fun a c => 10 * a + digit_val c) ds acc)
        (count + Z.of_nat (List.length ds)) rest.
Proof.
  induction ds as [|c ds IH]; intros Hds acc count.
  - simpl; rewrite Z.add_0_r; reflexivity.
  - simpl in Hds; apply andb_true_iff in Hds as [Hc Hds].
    cbn [app take_digits]; rewrite Hc, (IH Hds).
    cbn [fold_left List.length]; f_equal; lia.
Qed.

Lemma drop_spaces_head (c : ascii) (l : list ascii) :
  is_space c = false -> drop_spaces (c :: l) = c :: l.
Proof. intros H; simpl; rewrite H; reflexivity. Qed.

Lemma strip_unspaced (l : list ascii) (first last : ascii) :
  hd_error l = Some first -> hd_error (rev l) = Some last ->
  is_space first = false -> is_space last = false ->
  strip l = l.
Proof.
  intros Hf Hl Sf Sl; unfold strip.
  destruct l as [|c l]; [discriminate|].
  injection Hf as ->.
  rewrite (drop_spaces_head first l Sf).
  destruct (rev (first :: l)) as [|c' l'] eqn:E; [discriminate|].
  injection Hl as ->.
  rewrite (drop_spaces_head last l' Sl), <- E; apply rev_involutive.
Qed.

(** A string [ip.fp] of decimal digits, with at least one digit before
    the point, parses to the float nearest to the number it writes. *)
Lemma float_of_string_decimal (ip fp : list ascii) :
  forallb is_digit ip = true -> forallb is_digit fp = true -> ip <> [] ->
  float_of_string (string_of_list_ascii (ip ++ "."%char :: fp))
  = Ok (float_of_literal
          (LitDec false (digits_value (ip ++ fp))
             (- Z.of_nat (List.length fp)))).
Proof.
  intros Hip Hfp Hne.
  unfold float_of_string; rewrite list_ascii_of_string_of_list_ascii.
  set (l := (ip ++ "."%char :: fp)%list).
  assert (Hall : forall c, In c l ->
             is_digit c = true \/ c = "."%char).
  { intros c Hc; unfold l in Hc; apply in_app_or in Hc as [Hc|[<-|Hc]].
    - left; exact (proj1 (forallb_forall _ _) Hip c Hc).
    - right; reflexivity.
    - left; exact (proj1 (forallb_forall _ _) Hfp c Hc). }
  assert (Hascii : is_ascii_only l = true).
  { apply forallb_forall; intros c Hc.
    destruct (Hall c Hc) as [Hd| ->]; [|reflexivity].
    apply (digit_facts c Hd). }
  rewrite Hascii; cbn [negb].
  assert (Hstrip : strip l = l).
  { destruct ip as [|c0 ip0]; [contradiction|].
    assert (Hc0 : is_digit c0 = true)
      by (simpl in Hip; apply andb_true_iff in Hip as [H _]; exact H).
    destruct (rev l) as [|cl rl] eqn:Er.
    { apply (f_equal (@List.length ascii)) in Er.
      rewrite length_rev in Er; discriminate Er. }
    apply (strip_unspaced l c0 cl); [reflexivity|rewrite Er; reflexivity| |].
    - apply (digit_facts c0 Hc0).
    - assert (Hin : In cl l)
        by (apply in_rev; rewrite Er; left; reflexivity).
      destruct (Hall cl Hin) as [Hd| ->]; [apply (digit_facts cl Hd)|].
      reflexivity. }
  rewrite Hstrip.
  assert (Hund : drop_underscores None l = Some l).
  { apply drop_underscores_none; [|reflexivity].
    apply forallb_forall; intros c Hc.
    destruct (Hall c Hc) as [Hd| ->]; [apply (digit_facts c Hd)|reflexivity]. }
  rewrite Hund.
  destruct ip as [|c0 ip0]; [contradiction|].
  assert (Hc0 : is_digit c0 = true)
    by (simpl in Hip; apply andb_true_iff in Hip as [H _]; exact H).
  destruct (digit_facts c0 Hc0)
    as (_ & _ & _ & Hlow & Hminus & Hplus & _ & Hn & Hi).
  assert (Hsign : take_sign l = (false, l)).
  { unfold l; cbn [app take_sign].
    destruct c0 as [[] [] [] [] [] [] [] []]; try reflexivity;
      discriminate. }
  unfold parse_float_literal; rewrite Hsign.
  assert (Hword : forall w,
             (Ascii.eqb c0 (match w with
                            | String a _ => a
                            | EmptyString => c0
                            end) = false) ->
             w <> EmptyString ->
             String.eqb (string_of_list_ascii (map lower l)) w = false).
  { intros w Hw Hwne; unfold l; cbn [app map string_of_list_ascii].
    rewrite Hlow; destruct w as [|a w]; [contradiction|].
    cbn [String.eqb]; rewrite Hw; reflexivity. }
  rewrite (Hword "nan" Hn ltac:(discriminate)),
    (Hword "inf" Hi ltac:(discriminate)),
    (Hword "infinity" Hi ltac:(discriminate)).
  cbn [orb].
  unfold l; rewrite (take_digits_app (c0 :: ip0) _ Hip).
  cbn [take_digits].
  replace (is_digit ".") with false by reflexivity.
  rewrite <- (app_nil_r fp) at 1.
  rewrite (take_digits_app fp [] Hfp); cbn [take_digits].
  assert (Hpos : (0 + Z.of_nat (List.length (c0 :: ip0))
                  + (0 + Z.of_nat (List.length fp)) =? 0) = false).
  { apply Z.eqb_neq; cbn [List.length]; lia. }
  rewrite Hpos; cbn [parse_exponent option_map].
  unfold digits_value; rewrite fold_left_app.
  do 3 f_equal; lia.
Qed.

(** C6 — [enforce] returns None for None; parses a string as a float
    and returns the string itself when the parse fails; returns a
    value that is not a number as it is; and on a number clamps up to
    [min], then down to [max], then rounds half-to-even to
    [precision] decimals, then, for the unit eurocent, truncates
    toward zero to an integer; each step only when its field is set.
    The steps are spelled out on the numbers themselves: the clamps
    by the exact comparison of values, the rounding of an int and of
    a float by the nearest decimal (even on a tie), the truncation by
    the integer quotient toward zero; a decimal string parses to the
    float nearest to the number it writes. *)
Theorem enforce_steps_in_order :
  (forall self, TypeSpec.enforce self VNone = Ok VNone)
  /\ (forall self s,
         float_of_string s = Raise ValueError ->
         TypeSpec.enforce self (VStr s) = Ok (VStr s))
  /\ (forall self s f,
         float_of_string s = Ok f ->
         TypeSpec.enforce self (VStr s) = TypeSpec.enforce self (VFloat f))
  /\ (forall ip fp,
         forallb is_digit ip = true -> forallb is_digit fp = true ->
         ip <> [] ->
         float_of_string (string_of_list_ascii (ip ++ "."%char :: fp))
         = Ok (float_of_literal
                 (LitDec false (digits_value (ip ++ fp))
                    (- Z.of_nat (List.length fp)))))
  /\ (float_of_string "12.99" = Ok 12.99%float
      /\ float_of_string " -1_000.25e-2 " = Ok (-10.0025)%float
      /\ float_of_string "abc" = Raise ValueError
      /\ float_of_string "1e" = Raise ValueError
      /\ float_of_string "" = Raise ValueError)
  /\ (forall self l, TypeSpec.enforce self (VList l) = Ok (VList l))
  /\ (forall self d, TypeSpec.enforce self (VDict d) = Ok (VDict d))
  /\ (forall self v n,
         as_num v = Some n ->
         TypeSpec.enforce self v =
         let below (x y : num) :=
           match xcompare (xnum_of_num x) (xnum_of_num y) with
           | Some Lt => true
           | _ => false
           end in
         let v1 := match TypeSpec.min self with
                   | Some lo => if below n lo then value_of_num lo else v
                   | None => v
                   end in
         let v2 := match TypeSpec.max self, as_num v1 with
                   | Some hi, Some n1 =>
                       if below hi n1 then value_of_num hi else v1
                   | _, _ => v1
                   end in
         (v3 <- match TypeSpec.precision self, as_num v2 with
                | Some p, Some (NInt z) => Ok (VInt (round_int z p))
                | Some p, Some (NFloat f) =>
                    g <- round_float f p ;; Ok (VFloat g)
                | _, _ => Ok v2
                end ;;
          if is_eurocent self
          then match as_num v3 with
               | Some (NInt z) => Ok (VInt z)
               | Some (NFloat f) =>
                   z <- xtrunc (xnum_of_float f) ;; Ok (VInt z)
               | None => Ok v3
               end
          else Ok v3)%outcome)
  /\ (forall z, xnum_of_num (NInt z) = XFin z 0)
  /\ (forall m1 m2 e, xcompare (XFin m1 e) (XFin m2 e) = Some (m1 ?= m2))
  /\ (forall m e k x,
         0 <= k ->
         xcompare (XFin (m * 2 ^ k) (e - k)) x = xcompare (XFin m e) x
         /\ xcompare x (XFin (m * 2 ^ k) (e - k)) = xcompare x (XFin m e))
  /\ (forall z p, 0 <= p -> round_int z p = z)
  /\ (forall z p, p < 0 ->
         round_int z p = 10 ^ (- p) * div_half_even z (10 ^ (- p))
         /\ 2 * Z.abs (z - round_int z p) <= 10 ^ (- p)
         /\ (2 * Z.abs (z - round_int z p) = 10 ^ (- p) ->
             Z.even (div_half_even z (10 ^ (- p))) = true))
  /\ (forall f s m e p,
         Prim2SF f = S754_finite s m e -> 0 <= p <= 323 ->
         let n := if 0 <=? e then Z.pos m * 2 ^ e else Z.pos m in
         let d := if 0 <=? e then 1 else 2 ^ (- e) in
         let k := div_half_even (n * 10 ^ p) d in
         round_float f p =
         match float_of_ratio s k (10 ^ p) with
         | Some g => Ok g
         | None => Raise OverflowError
         end
         /\ 2 * Z.abs (n * 10 ^ p - k * d) <= d
         /\ (2 * Z.abs (n * 10 ^ p - k * d) = d -> Z.even k = true))
  /\ (forall m e, xtrunc (XFin m e) =
                  Ok (if 0 <=? e then m * 2 ^ e else Z.quot m (2 ^ (- e))))
  /\ (let spec u p lo hi := TypeSpec.Build u p lo hi in
      TypeSpec.enforce (spec None (Some 2) None None) (VFloat 2.675)
      = Ok (VFloat 2.67)
      /\ TypeSpec.enforce (spec None (Some 2) None None) (VFloat 0.125)
         = Ok (VFloat 0.12)
      /\ TypeSpec.enforce (spec None (Some 2) None None) (VFloat 0.375)
         = Ok (VFloat 0.38)
      /\ TypeSpec.enforce (spec None (Some 0) None None) (VFloat 2.5)
         = Ok (VFloat 2)
      /\ TypeSpec.enforce (spec None (Some 0) None None) (VFloat 3.5)
         = Ok (VFloat 4)
      /\ TypeSpec.enforce (spec None (Some (-1)) None None) (VInt 25)
         = Ok (VInt 20)
      /\ TypeSpec.enforce (spec None (Some (-1)) None None) (VInt 35)
         = Ok (VInt 40)
      /\ TypeSpec.enforce (spec None None (Some (NInt 10)) None) (VInt 5)
         = Ok (VInt 10)
      /\ TypeSpec.enforce (spec None None None (Some (NFloat 7.5))) (VInt 8)
         = Ok (VFloat 7.5)
      /\ TypeSpec.enforce (spec None (Some 2) None (Some (NFloat 2.675)))
           (VInt 5) = Ok (VFloat 2.67)
      /\ TypeSpec.enforce (spec (Some "eurocent") (Some 0) None None)
           (VFloat 2.6) = Ok (VInt 3)
      /\ TypeSpec.enforce (spec (Some "eurocent") None None None)
           (VFloat (-12.99)) = Ok (VInt (-12))
      /\ TypeSpec.enforce (spec (Some "eurocent") None None None)
           (VBool true) = Ok (VInt 1)
      /\ TypeSpec.enforce (spec (Some "eurocent") None None None)
           (VStr "12.99") = Ok (VInt 12)
      /\ TypeSpec.enforce (spec (Some "eurocent") None None None)
           (VStr "n/a") = Ok (VStr "n/a")
      /\ TypeSpec.enforce (spec None (Some 2) (Some (NInt 0))
                             (Some (NInt 100))) (VInt 110) = Ok (VInt 100)).
Proof.
  split; [reflexivity|].
  split; [intros self s H; simpl; rewrite H; reflexivity|].
  split; [intros self s f H; simpl; rewrite H; reflexivity|].
  split; [exact float_of_string_decimal|].
  split; [repeat split; vm_compute; reflexivity|].
  split; [reflexivity|].
  split; [reflexivity|].
  split.
  { intros self v n Hn.
    assert (Hv : TypeSpec.enforce self v = TypeSpec.enforce_numeric self v).
    { destruct v; simpl in Hn; try discriminate; reflexivity. }
    rewrite Hv; unfold TypeSpec.enforce_numeric, TypeSpec.apply_min,
      TypeSpec.apply_max, TypeSpec.apply_precision, TypeSpec.apply_unit,
      is_eurocent, max2, min2, num_ltb, py_round, py_int.
    assert (Hof : TypeSpec.num_of v = n)
      by (unfold TypeSpec.num_of; rewrite Hn; reflexivity).
    rewrite Hof; cbv zeta.
    assert (Hnum : forall w, is_numeric w = true ->
               as_num w = Some (TypeSpec.num_of w)).
    { intros w; unfold is_numeric, TypeSpec.num_of.
      destruct (as_num w); [reflexivity|discriminate]. }
    assert (Hvn : forall x, is_numeric (value_of_num x) = true)
      by (intros [z|f]; reflexivity).
    assert (Hv0 : is_numeric v = true)
      by (unfold is_numeric; rewrite Hn; reflexivity).
    set (v1 := match TypeSpec.min self with
               | Some lo =>
                   if match xcompare (xnum_of_num n) (xnum_of_num lo) with
                      | Some Lt => true
                      | _ => false
                      end
                   then value_of_num lo else v
               | None => v
               end).
    assert (H1 : is_numeric v1 = true).
    { unfold v1; destruct (TypeSpec.min self) as [lo|]; [|exact Hv0].
      destruct (match xcompare _ _ with Some Lt => true | _ => false end);
        [apply Hvn|exact Hv0]. }
    rewrite (Hnum v1 H1).
    set (v2 := match TypeSpec.max self with
               | Some hi =>
                   if match xcompare (xnum_of_num hi)
                              (xnum_of_num (TypeSpec.num_of v1)) with
                      | Some Lt => true
                      | _ => false
                      end
                   then value_of_num hi else v1
               | None => v1
               end).
    assert (H2 : is_numeric v2 = true).
    { unfold v2; destruct (TypeSpec.max self) as [hi|]; [|exact H1].
      destruct (match xcompare _ _ with Some Lt => true | _ => false end);
        [apply Hvn|exact H1]. }
    rewrite (Hnum v2 H2).
    destruct (TypeSpec.precision self) as [p|].
    - destruct (TypeSpec.num_of v2) as [z|f]; cbn [obind].
      + destruct (match TypeSpec.unit self with
                  | Some u => (u =? "eurocent")%string
                  | None => false
                  end) eqn:Eu;
          destruct (TypeSpec.unit self) as [u|]; try discriminate Eu;
            try rewrite Eu; reflexivity.
      + destruct (round_float f p) as [g| | |]; cbn [obind]; try reflexivity.
        destruct (TypeSpec.unit self) as [u|]; [|reflexivity].
        destruct (u =? "eurocent")%string; reflexivity.
    - cbn [obind].
      destruct (TypeSpec.unit self) as [u|]; [|reflexivity].
      destruct (u =? "eurocent")%string; [|reflexivity].
      rewrite (Hnum v2 H2).
      destruct (TypeSpec.num_of v2); reflexivity. }
  split; [reflexivity|].
  split; [exact xcompare_same_exponent|].
  split.
  { intros m e k x Hk; split;
      [apply xcompare_rescale_l|apply xcompare_rescale_r]; exact Hk. }
  split.
  { intros z p Hp; unfold round_int.
    destruct (Z.leb_spec 0 p); [reflexivity|lia]. }
  split.
  { intros z p Hp.
    assert (Hr : round_int z p = 10 ^ (- p) * div_half_even z (10 ^ (- p))).
    { unfold round_int; destruct (Z.leb_spec 0 p); [lia|reflexivity]. }
    assert (Hb : 0 < 10 ^ (- p)) by (apply Z.pow_pos_nonneg; lia).
    destruct (div_half_even_nearest z (10 ^ (- p)) Hb) as [H1 H2].
    rewrite Hr; split; [reflexivity|].
    replace (z - 10 ^ (- p) * div_half_even z (10 ^ (- p)))
      with (z - div_half_even z (10 ^ (- p)) * 10 ^ (- p)) by ring.
    split; assumption. }
  split.
  { intros f s m e p Hf Hp; cbv zeta.
    split.
    - unfold round_float; rewrite Hf.
      destruct (Z.ltb_spec 323 p); [lia|].
      destruct (Z.ltb_spec p (-308)); [lia|].
      destruct (Z.leb_spec 0 p); [reflexivity|lia].
    - apply div_half_even_nearest.
      destruct (Z.leb_spec 0 e); [lia|apply Z.pow_pos_nonneg; lia]. }
  split; [reflexivity|].
  cbv zeta; repeat split; vm_compute; reflexivity.
Qed.

(** The numeric and the string clauses of the theorem where rounding
    and parsing do something: 2.675 at two decimals, an int clamped to
    a float bound that is then rounded, and the string 12.99 under the
    unit eurocent. *)
Lemma enforce_steps_in_order_witness :
  TypeSpec.enforce (TypeSpec.Build None (Some 2) None None) (VFloat 2.675)
  = Ok (VFloat 2.67)
  /\ TypeSpec.enforce (TypeSpec.Build None (Some 2) None (Some (NFloat 2.675)))
       (VInt 5) = Ok (VFloat 2.67)
  /\ float_of_string "12.99" = Ok 12.99%float
  /\ TypeSpec.enforce (TypeSpec.Build (Some "eurocent") None None None)
       (VStr "12.99") = Ok (VInt 12).
Proof.
  pose proof enforce_steps_in_order
    as (_ & _ & Hstr & Hdec & _ & _ & _ & Hnum & _).
  split; [|split; [|split]].
  - rewrite (Hnum (TypeSpec.Build None (Some 2) None None) (VFloat 2.675)
               (NFloat 2.675) eq_refl).
    vm_compute; reflexivity.
  - rewrite (Hnum (TypeSpec.Build None (Some 2) None (Some (NFloat 2.675)))
               (VInt 5) (NInt 5) eq_refl).
    vm_compute; reflexivity.
  - change "12.99" with (string_of_list_ascii
                           (["1"; "2"]%char ++ "."%char :: ["9"; "9"]%char)).
    rewrite (Hdec ["1"; "2"]%char ["9"; "9"]%char eq_refl eq_refl
               ltac:(discriminate)).
    vm_compute; reflexivity.
  - rewrite (Hstr (TypeSpec.Build (Some "eurocent") None None None) "12.99"
               12.99%float ltac:(vm_compute; reflexivity)).
    rewrite (Hnum (TypeSpec.Build (Some "eurocent") None None None)
               (VFloat 12.99) (NFloat 12.99) eq_refl).
    vm_compute; reflexivity.
Defined.

(** ** TypeSpec.enforce, applied twice

    That [enforce] is idempotent rests on what [round] does to a
    float: it takes the decimal nearest to the float and returns the
    float nearest to that decimal.  The values of the numbers are
    read as real numbers. *)

(** *** The value of a number *)

(** The value [m * 2^e] of a mantissa and an exponent. *)
Definition two_pow (e : Z) : R := powerRZ 2 e.
Definition fval (m e : Z) : R := (IZR m * two_pow e)%R.

Lemma two_pow_pos e : (0 < two_pow e)%R.
Proof. apply powerRZ_lt; lra. Qed.

Lemma two_pow_add a b : two_pow (a + b) = (two_pow a * two_pow b)%R.
Proof. apply powerRZ_add; lra. Qed.

Lemma two_pow_Z k : 0 <= k -> IZR (2 ^ k) = two_pow k.
Proof.
  intros Hk; unfold two_pow.
  rewrite <- (Z2Nat.id k Hk) at 1.
  rewrite <- pow_IZR, pow_powerRZ, Z2Nat.id by exact Hk; reflexivity.
Qed.

Lemma two_pow_ge_1 k : 0 <= k -> (1 <= two_pow k)%R.
Proof.
  intros Hk; rewrite <- two_pow_Z by exact Hk.
  apply IZR_le; pose proof (Z.pow_pos_nonneg 2 k); lia.
Qed.

Lemma two_pow_le a b : a <= b -> (two_pow a <= two_pow b)%R.
Proof.
  intros H.
  replace b with (a + (b - a)) by lia.
  rewrite two_pow_add.
  pose proof (two_pow_ge_1 (b - a) ltac:(lia)).
  pose proof (two_pow_pos a); nra.
Qed.

Lemma two_pow_lt a b : a < b -> (two_pow a < two_pow b)%R.
Proof.
  intros H.
  replace b with (a + 1 + (b - a - 1)) by lia.
  rewrite !two_pow_add.
  pose proof (two_pow_ge_1 (b - a - 1) ltac:(lia)).
  pose proof (two_pow_pos a).
  change (two_pow 1) with (2 * 1)%R; nra.
Qed.

Lemma fval_scale m e k : 0 <= k -> fval (m * 2 ^ k) (e - k) = fval m e.
Proof.
  intros Hk; unfold fval.
  rewrite mult_IZR, two_pow_Z by exact Hk.
  replace e with ((e - k) + k) at 2 by lia.
  rewrite (two_pow_add (e - k) k); ring.
Qed.

Lemma fval_compare m1 m2 e :
  match m1 ?= m2 with
  | Lt => (fval m1 e < fval m2 e)%R
  | Eq => fval m1 e = fval m2 e
  | Gt => (fval m2 e < fval m1 e)%R
  end.
Proof.
  pose proof (two_pow_pos e) as P; unfold fval.
  destruct (Z.compare_spec m1 m2) as [->|H|H]; [reflexivity| |];
    apply IZR_lt in H; nra.
Qed.

(** [xcompare] compares the values. *)
Lemma xcompare_fval m1 e1 m2 e2 :
  match xcompare (XFin m1 e1) (XFin m2 e2) with
  | Some Lt => (fval m1 e1 < fval m2 e2)%R
  | Some Eq => fval m1 e1 = fval m2 e2
  | Some Gt => (fval m2 e2 < fval m1 e1)%R
  | None => False
  end.
Proof.
  cbn [xcompare].
  set (e := Z.min e1 e2).
  rewrite <- (fval_scale m1 e1 (e1 - e)), <- (fval_scale m2 e2 (e2 - e)) by lia.
  replace (e1 - (e1 - e)) with e by lia.
  replace (e2 - (e2 - e)) with e by lia.
  apply fval_compare.
Qed.


(** *** Rounding to the nearest integer, ties to even *)

(** [rhe x k]: [k] is [x] rounded to the nearest integer, the even
    one of the two on a tie. *)
Definition rhe (x : R) (k : Z) : Prop :=
  (IZR k - 1 / 2 <= x <= IZR k + 1 / 2)%R
  /\ ((x = IZR k - 1 / 2 \/ x = IZR k + 1 / 2)%R -> Z.even k = true).

Lemma IZR_lt_succ a b : (IZR a < IZR b + 1)%R -> a <= b.
Proof.
  intros H; rewrite <- plus_IZR in H; apply lt_IZR in H; lia.
Qed.

Lemma rhe_unique x k k' : rhe x k -> rhe x k' -> k = k'.
Proof.
  intros [[L U] T] [[L' U'] T'].
  assert (H1 : k <= k' + 1) by (apply IZR_lt_succ; rewrite plus_IZR; lra).
  assert (H2 : k' <= k + 1) by (apply IZR_lt_succ; rewrite plus_IZR; lra).
  destruct (Z.eq_dec k k') as [E|N]; [exact E|exfalso].
  assert (C : k = k' + 1 \/ k' = k + 1) by lia.
  destruct C as [-> | ->]; rewrite plus_IZR in *.
  - assert (E : x = (IZR k' + 1 / 2)%R) by lra.
    pose proof (T ltac:(left; lra)) as Ev; pose proof (T' ltac:(right; lra)) as Ev'.
    rewrite Z.even_add, Ev' in Ev; discriminate.
  - assert (E : x = (IZR k + 1 / 2)%R) by lra.
    pose proof (T ltac:(right; lra)) as Ev; pose proof (T' ltac:(left; lra)) as Ev'.
    rewrite Z.even_add, Ev in Ev'; discriminate.
Qed.

Lemma rhe_mono x x' k k' : (x <= x')%R -> rhe x k -> rhe x' k' -> k <= k'.
Proof.
  intros Hx [[L U] T] [[L' U'] T'].
  destruct (Z_le_gt_dec k k') as [H|H]; [exact H|exfalso].
  assert (H1 : k <= k' + 1) by (apply IZR_lt_succ; rewrite plus_IZR; lra).
  assert (E : k = k' + 1) by lia; subst k; rewrite plus_IZR in *.
  pose proof (T ltac:(left; lra)) as Ev; pose proof (T' ltac:(right; lra)) as Ev'.
  rewrite Z.even_add, Ev' in Ev; discriminate.
Qed.

Lemma rhe_IZR j : rhe (IZR j) j.
Proof. split; [lra|intros [H|H]; lra]. Qed.

Lemma rhe_int j k : rhe (IZR j) k -> k = j.
Proof. intros H; eapply rhe_unique; [exact H|apply rhe_IZR]. Qed.

Lemma rhe_closer x y k :
  rhe x k -> (Rabs (y - IZR k) <= Rabs (x - IZR k))%R -> rhe y k.
Proof.
  intros [[L U] T] H.
  unfold Rabs in H.
  destruct (Rcase_abs (y - IZR k)), (Rcase_abs (x - IZR k));
    (split; [lra|intros [E|E]; apply T; lra]).
Qed.

Lemma rhe_opp x k : rhe x k -> rhe (- x) (- k).
Proof.
  intros [[L U] T]; unfold rhe; rewrite Z.even_opp, opp_IZR.
  split; [lra|intros [E|E]; apply T; lra].
Qed.

Lemma div_half_even_rhe (a b : Z) :
  0 < b -> rhe (IZR a / IZR b) (div_half_even a b).
Proof.
  intros Hb.
  destruct (div_half_even_nearest a b Hb) as [N T].
  set (k := div_half_even a b) in *.
  assert (B : (0 < IZR b)%R) by (apply IZR_lt; exact Hb).
  set (x := (IZR a / IZR b)%R).
  assert (X : (x * IZR b = IZR a)%R) by (unfold x; field; lra).
  assert (D : (IZR (a - k * b) = (x - IZR k) * IZR b)%R)
    by (rewrite minus_IZR, mult_IZR; lra).
  assert (N' : (2 * IZR (Z.abs (a - k * b)) <= IZR b)%R).
  { rewrite <- (mult_IZR 2); apply IZR_le; exact N. }
  rewrite abs_IZR, D in N'.
  unfold Rabs in N'; destruct (Rcase_abs _) as [S|S] in N'.
  - split; [split; nra|].
    intros E; apply T.
    apply eq_IZR; rewrite mult_IZR, abs_IZR, D.
    unfold Rabs; destruct (Rcase_abs _); destruct E; nra.
  - split; [split; nra|].
    intros E; apply T.
    apply eq_IZR; rewrite mult_IZR, abs_IZR, D.
    unfold Rabs; destruct (Rcase_abs _); destruct E; nra.
Qed.


(** *** The float nearest to a ratio *)

Lemma two_pow_opp e : two_pow (- e) = (/ two_pow e)%R.
Proof. apply powerRZ_neg'. Qed.

Lemma two_pow_0 : two_pow 0 = 1%R.
Proof. reflexivity. Qed.

Lemma two_pow_succ e : two_pow (e + 1) = (2 * two_pow e)%R.
Proof. rewrite two_pow_add; change (two_pow 1) with (2 * 1)%R; ring. Qed.

Lemma two_pow_pred e : (2 * two_pow (e - 1) = two_pow e)%R.
Proof. rewrite <- two_pow_succ; f_equal; lia. Qed.

Lemma log2_bounds n :
  0 < n -> (two_pow (Z.log2 n) <= IZR n < two_pow (Z.log2 n + 1))%R.
Proof.
  intros Hn; destruct (Z.log2_spec n Hn) as [L U].
  pose proof (Z.log2_nonneg n) as P.
  rewrite <- !two_pow_Z by lia.
  replace (Z.log2 n + 1) with (Z.succ (Z.log2 n)) by lia.
  split; [apply IZR_le; exact L|apply IZR_lt; exact U].
Qed.

(** [ilog2_ratio n d] is the integer part of the binary logarithm
    of [n / d]. *)
Lemma ilog2_ratio_spec n d :
  0 < n -> 0 < d ->
  (two_pow (ilog2_ratio n d) * IZR d <= IZR n
   < two_pow (ilog2_ratio n d + 1) * IZR d)%R.
Proof.
  intros Hn Hd; unfold ilog2_ratio.
  destruct (log2_bounds n Hn) as [Ln Un].
  destruct (log2_bounds d Hd) as [Ld Ud].
  set (a := Z.log2 n) in *; set (b := Z.log2 d) in *.
  set (l := a - b).
  assert (HL : (two_pow l * two_pow b = two_pow a)%R)
    by (rewrite <- two_pow_add; f_equal; lia).
  rewrite two_pow_succ in Un, Ud.
  pose proof (two_pow_pos a); pose proof (two_pow_pos b);
    pose proof (two_pow_pos l).
  assert (T : (if 0 <=? l then d * 2 ^ l <=? n else d <=? n * 2 ^ (- l)) = true
              <-> (two_pow l * IZR d <= IZR n)%R).
  { destruct (Z.leb_spec 0 l) as [P|P].
    - rewrite Z.leb_le; split; intros E.
      + apply IZR_le in E; rewrite mult_IZR, two_pow_Z in E by exact P; lra.
      + apply le_IZR; rewrite mult_IZR, two_pow_Z by exact P; lra.
    - assert (I : (two_pow l * two_pow (- l) = 1)%R)
        by (rewrite <- two_pow_add; replace (l + - l) with 0 by lia;
            reflexivity).
      pose proof (two_pow_pos (- l)).
      rewrite Z.leb_le; split; intros E.
      + apply IZR_le in E; rewrite mult_IZR, two_pow_Z in E by lia. nra.
      + apply le_IZR; rewrite mult_IZR, two_pow_Z by lia. nra. }
  destruct (if 0 <=? l then d * 2 ^ l <=? n else d <=? n * 2 ^ (- l)).
  - rewrite two_pow_succ; split; [apply T; reflexivity|nra].
  - replace (l - 1 + 1) with l by lia.
    pose proof (two_pow_pred l).
    pose proof (two_pow_pos (l - 1)).
    split; [nra|].
    apply Rnot_le_lt; intros E; apply T in E; discriminate.
Qed.

(** The numbers a float can hold, but for the upper bound of the
    exponent. *)
Definition representable (x : R) : Prop :=
  exists m e, Z.abs m < 2 ^ 53 /\ -1074 <= e /\ x = fval m e.

Lemma representable_fval m e :
  Z.abs m < 2 ^ 53 -> -1074 <= e -> representable (fval m e).
Proof. intros M E; exists m, e; repeat split; assumption. Qed.

Lemma rhe_nearest_int x k j :
  rhe x k -> (Rabs (IZR k - x) <= Rabs (IZR j - x))%R.
Proof.
  intros [[L U] _].
  destruct (Z.eq_dec j k) as [->|N]; [lra|].
  assert (C : j <= k - 1 \/ k + 1 <= j) by lia.
  unfold Rabs; destruct C as [C|C]; apply IZR_le in C;
    rewrite ?minus_IZR, ?plus_IZR in C;
    destruct (Rcase_abs (IZR k - x)), (Rcase_abs (IZR j - x)); lra.
Qed.

Lemma fval_0 e : fval 0 e = 0%R.
Proof. unfold fval; ring. Qed.

(** [round_ratio n d] is a nearest float of [n / d], or nothing when
    that float is beyond the largest one. *)
Lemma round_ratio_cases n d :
  0 < n -> 0 < d ->
  exists m e,
    round_ratio n d
    = (if 1024 <? Z.log2 m + 1 + e then None else Some (m, e))
    /\ 0 <= m < 2 ^ 53 /\ -1074 <= e /\ (e = -1074 \/ 2 ^ 52 <= m)
    /\ forall z, representable z ->
         (Rabs (fval m e - IZR n / IZR d) <= Rabs (z - IZR n / IZR d))%R.
Proof.
  intros Hn Hd; unfold round_ratio.
  rewrite (proj2 (Z.eqb_neq n 0)) by lia.
  destruct (ilog2_ratio_spec n d Hn Hd) as [Llg Ulg].
  set (lg := ilog2_ratio n d) in *.
  set (e0 := Z.max (lg - 52) (-1074)).
  set (q := (IZR n / IZR d)%R).
  assert (Dpos : (0 < IZR d)%R) by (apply IZR_lt; exact Hd).
  assert (Npos : (0 < IZR n)%R) by (apply IZR_lt; exact Hn).
  assert (Q : (q * IZR d = IZR n)%R) by (unfold q; field; lra).
  assert (Qpos : (0 < q)%R) by (unfold q; apply Rdiv_lt_0_compat; assumption).
  pose proof (two_pow_pos e0) as E0pos.
  set (x := (q / two_pow e0)%R).
  assert (X : (x * two_pow e0 = q)%R) by (unfold x; field; lra).
  set (m0 := if 0 <=? e0 then div_half_even n (d * 2 ^ e0)
             else div_half_even (n * 2 ^ (- e0)) d).
  assert (R0 : rhe x m0).
  { unfold m0; destruct (Z.leb_spec 0 e0) as [P|P].
    - replace x with (IZR n / IZR (d * 2 ^ e0))%R.
      + apply div_half_even_rhe.
        pose proof (Z.pow_pos_nonneg 2 e0); nia.
      + rewrite mult_IZR, two_pow_Z by exact P.
        unfold x, q; field; lra.
    - replace x with (IZR (n * 2 ^ (- e0)) / IZR d)%R.
      + apply div_half_even_rhe; exact Hd.
      + rewrite mult_IZR, two_pow_Z, two_pow_opp by lia.
        unfold x, q; field; lra. }
  fold m0.
  (* the bounds of the rounded mantissa *)
  assert (Qlo : (two_pow lg <= q)%R) by nra.
  assert (Qhi : (q < two_pow (lg + 1))%R) by nra.
  assert (Xhi : (x < two_pow 53)%R).
  { assert (two_pow (lg + 1) <= two_pow 53 * two_pow e0)%R
      by (rewrite <- two_pow_add; apply two_pow_le; lia).
    apply (Rmult_lt_reg_r (two_pow e0)); [lra|].
    rewrite X; lra. }
  assert (Xpos : (0 < x)%R).
  { apply (Rmult_lt_reg_r (two_pow e0)); [lra|].
    rewrite X; lra. }
  assert (M0hi : m0 <= 2 ^ 53).
  { apply IZR_lt_succ; rewrite two_pow_Z by lia.
    destruct R0 as [[L U] _]; lra. }
  assert (M0lo : 0 <= m0).
  { apply Z.lt_pred_le, lt_IZR; simpl.
    destruct R0 as [[L U] _]; lra. }
  assert (M0norm : -1074 < e0 -> 2 ^ 52 <= m0).
  { intros He.
    assert (E : e0 = lg - 52) by lia.
    apply (rhe_mono (IZR (2 ^ 52)) x); [|apply rhe_IZR|exact R0].
    rewrite two_pow_Z by lia.
    assert (two_pow lg = two_pow 52 * two_pow e0)%R
      by (rewrite <- two_pow_add; f_equal; lia).
    pose proof (two_pow_pos 52); nra. }
  (* the float nearest to q *)
  assert (Near : forall z, representable z ->
                   (Rabs (fval m0 e0 - q) <= Rabs (z - q))%R).
  { intros z (mz & ez & Hmz & Hez & ->).
    destruct (Z_le_gt_dec e0 ez) as [C|C].
    - rewrite <- (fval_scale mz ez (ez - e0)) by lia.
      replace (ez - (ez - e0)) with e0 by lia.
      pose proof (rhe_nearest_int x m0 (mz * 2 ^ (ez - e0)) R0) as N.
      unfold fval; rewrite <- X.
      replace (IZR m0 * two_pow e0 - x * two_pow e0)%R
        with ((IZR m0 - x) * two_pow e0)%R by ring.
      replace (IZR (mz * 2 ^ (ez - e0)) * two_pow e0 - x * two_pow e0)%R
        with ((IZR (mz * 2 ^ (ez - e0)) - x) * two_pow e0)%R by ring.
      rewrite !Rabs_mult, (Rabs_pos_eq (two_pow e0)) by lra.
      apply Rmult_le_compat_r; [lra|exact N].
    - assert (E : e0 = lg - 52) by lia.
      assert (Zlt : (fval mz ez < two_pow lg)%R).
      { assert (IZR mz < two_pow 53)%R
          by (rewrite <- two_pow_Z by lia; apply IZR_lt; lia).
        assert (two_pow 53 * two_pow ez <= two_pow lg)%R
          by (rewrite <- two_pow_add; apply two_pow_le; lia).
        pose proof (two_pow_pos ez); unfold fval; nra. }
      pose proof (rhe_nearest_int x m0 (2 ^ 52) R0) as N.
      assert (P : (two_pow lg = IZR (2 ^ 52) * two_pow e0)%R).
      { rewrite two_pow_Z, <- two_pow_add by lia; f_equal; lia. }
      assert (N' : (Rabs (fval m0 e0 - q) <= Rabs (two_pow lg - q))%R).
      { rewrite P; unfold fval; rewrite <- X.
        replace (IZR m0 * two_pow e0 - x * two_pow e0)%R
          with ((IZR m0 - x) * two_pow e0)%R by ring.
        replace (IZR (2 ^ 52) * two_pow e0 - x * two_pow e0)%R
          with ((IZR (2 ^ 52) - x) * two_pow e0)%R by ring.
        rewrite !Rabs_mult, (Rabs_pos_eq (two_pow e0)) by lra.
        apply Rmult_le_compat_r; [lra|exact N]. }
      eapply Rle_trans; [exact N'|].
      unfold Rabs; destruct (Rcase_abs _), (Rcase_abs _); lra. }
  destruct (Z.eqb_spec m0 (2 ^ 53)) as [E53|N53].
  - exists (2 ^ 52), (e0 + 1).
    split; [reflexivity|].
    split; [lia|]. split; [lia|]. split; [right; lia|].
    intros z Hz; specialize (Near z Hz).
    replace (fval _ (e0 + 1)) with (fval m0 e0); [exact Near|].
    rewrite E53; unfold fval.
    rewrite !two_pow_Z, two_pow_succ by lia.
    replace (two_pow 53) with (2 * two_pow 52)%R
      by (rewrite <- two_pow_succ; reflexivity).
    ring.
  - exists m0, e0.
    split; [reflexivity|].
    split; [lia|]. split; [lia|].
    split; [destruct (Z.eq_dec e0 (-1074));
            [left; assumption|right; apply M0norm; lia]|].
    exact Near.
Qed.

Lemma round_ratio_spec n d m e :
  0 < n -> 0 < d -> round_ratio n d = Some (m, e) ->
  0 <= m < 2 ^ 53 /\ -1074 <= e /\ (e = -1074 \/ 2 ^ 52 <= m)
  /\ Z.log2 m + 1 + e <= 1024
  /\ forall z, representable z ->
       (Rabs (fval m e - IZR n / IZR d) <= Rabs (z - IZR n / IZR d))%R.
Proof.
  intros Hn Hd H.
  destruct (round_ratio_cases n d Hn Hd) as (m' & e' & E & M & X & C & N).
  rewrite H in E.
  destruct (1024 <? Z.log2 m' + 1 + e') eqn:Ov; [discriminate|].
  injection E as -> ->.
  apply Z.ltb_ge in Ov; repeat split; try assumption; lia.
Qed.

(** The largest float. *)
Definition max_float : R := fval (2 ^ 53 - 1) 971.

Lemma round_ratio_total n d :
  0 < n -> 0 < d -> (IZR n / IZR d <= max_float)%R ->
  exists m e, round_ratio n d = Some (m, e).
Proof.
  intros Hn Hd Hq.
  destruct (round_ratio_cases n d Hn Hd) as (m & e & E & M & X & C & N).
  exists m, e; rewrite E.
  destruct (Z.ltb_spec 1024 (Z.log2 m + 1 + e)) as [Ov|Ov]; [|reflexivity].
  exfalso.
  assert (Rep : representable max_float)
    by (apply representable_fval; lia).
  specialize (N max_float Rep).
  assert (Big : (max_float < fval m e)%R).
  { assert (Hm : 0 < m).
    { destruct (Z.eq_dec m 0) as [->|]; [|lia].
      destruct C as [->|C]; [simpl in Ov; lia|exfalso].
      revert C; apply Z.lt_nge, Z.pow_pos_nonneg; lia. }
    destruct (log2_bounds m Hm) as [Lm _].
    assert (two_pow 1024 <= two_pow (Z.log2 m) * two_pow e)%R
      by (rewrite <- two_pow_add; apply two_pow_le; lia).
    assert (max_float < two_pow 1024)%R.
    { unfold max_float, fval.
      replace (two_pow 1024) with (IZR (2 ^ 53) * two_pow 971)%R
        by (rewrite two_pow_Z, <- two_pow_add by lia; reflexivity).
      apply Rmult_lt_compat_r; [apply two_pow_pos|apply IZR_lt; lia]. }
    pose proof (two_pow_pos e); unfold fval; nra. }
  unfold Rabs in N.
  destruct (Rcase_abs _) in N; destruct (Rcase_abs _) in N; lra.
Qed.



(** *** Floats as mantissa and exponent *)

Lemma digits2_log2 (m : positive) :
  Z.pos (digits2_pos m) = Z.log2 (Z.pos m) + 1.
Proof.
  induction m as [m IH|m IH|]; [| |reflexivity]; cbn [digits2_pos].
  - rewrite Pos2Z.inj_succ, IH.
    change (Z.pos m~1) with (2 * Z.pos m + 1).
    rewrite Z.log2_succ_double by lia; lia.
  - rewrite Pos2Z.inj_succ, IH.
    change (Z.pos m~0) with (2 * Z.pos m).
    rewrite Z.log2_double by lia; lia.
Qed.

(** What [valid_binary] says of a mantissa and an exponent. *)
Lemma bounded_spec (m : positive) (e : Z) :
  SpecFloat.bounded prec emax m e = true <->
  Z.pos m < 2 ^ 53 /\ -1074 <= e <= 971
  /\ (e = -1074 \/ 2 ^ 52 <= Z.pos m).
Proof.
  unfold SpecFloat.bounded, canonical_mantissa, fexp, SpecFloat.emin,
    prec, emax.
  rewrite andb_true_iff, Z.eqb_eq, Z.leb_le, digits2_log2.
  change (IntDef.Z.max) with Z.max.
  pose proof (Z.log2_lt_pow2 (Z.pos m) 53 ltac:(lia)) as L1.
  pose proof (Z.log2_le_pow2 (Z.pos m) 52 ltac:(lia)) as L2.
  split.
  - intros [C B]; lia.
  - intros (M & E & N); lia.
Qed.

Lemma finite_bounds (f : float) s m e :
  Prim2SF f = S754_finite s m e ->
  Z.pos m < 2 ^ 53 /\ -1074 <= e <= 971 /\ (e = -1074 \/ 2 ^ 52 <= Z.pos m).
Proof.
  intros H; pose proof (Prim2SF_valid f) as V.
  rewrite H in V; apply bounded_spec; exact V.
Qed.

(** The float that [float_of_ratio] makes of a mantissa and an
    exponent. *)
Definition spec_of (neg : bool) (m e : Z) : spec_float :=
  match m with
  | Z.pos p => S754_finite neg p e
  | _ => S754_zero neg
  end.

Lemma float_of_ratio_spec neg n d g :
  0 <= n -> 0 < d ->
  float_of_ratio neg n d = Some g ->
  exists m e,
    round_ratio n d = Some (m, e)
    /\ g = SF2Prim (spec_of neg m e)
    /\ Prim2SF g = spec_of neg m e
    /\ 0 <= m < 2 ^ 53.
Proof.
  intros Hn Hd; unfold float_of_ratio.
  destruct (round_ratio n d) as [[m e]|] eqn:RR; [|discriminate].
  intros H; injection H as <-.
  exists m, e; split; [reflexivity|]; split; [reflexivity|].
  destruct (Z.eq_dec n 0) as [->|N0].
  - unfold round_ratio in RR; simpl in RR; injection RR as <- <-.
    split; [apply Prim2SF_SF2Prim; reflexivity|lia].
  - destruct (round_ratio_spec n d m e ltac:(lia) Hd RR)
      as (M & E & C & O & _).
    split; [|exact M].
    apply Prim2SF_SF2Prim.
    destruct m as [|p|p]; try reflexivity.
    apply bounded_spec.
    pose proof (Z.log2_le_pow2 (Z.pos p) 52 ltac:(lia)) as L2.
    lia.
Qed.

(** The value of a float. *)
Definition xval (x : xnum) : R :=
  match x with
  | XFin m e => fval m e
  | _ => 0%R
  end.

Definition sign_of (neg : bool) : Z := if neg then -1 else 1.

Lemma xnum_of_spec neg m e g :
  0 <= m -> Prim2SF g = spec_of neg m e ->
  exists e', xnum_of_float g = XFin (sign_of neg * m) e'
             /\ fval (sign_of neg * m) e' = (IZR (sign_of neg) * fval m e)%R.
Proof.
  intros Hm H; unfold xnum_of_float; rewrite H.
  destruct m as [|p|p]; [| |lia]; simpl.
  - exists 0; rewrite Z.mul_0_r; split; [reflexivity|].
    rewrite !fval_0; ring.
  - exists e; destruct neg; simpl; split; try reflexivity;
      unfold fval; rewrite ?opp_IZR; ring_simplify; try reflexivity.
    change (Z.neg p) with (- Z.pos p); rewrite opp_IZR; ring.
Qed.

(** *** Rounding to a decimal and back to a float *)

Lemma representable_opp x : representable x -> representable (- x).
Proof.
  intros (m & e & M & E & ->); exists (- m), e.
  rewrite Z.abs_opp; repeat split; try assumption.
  unfold fval; rewrite opp_IZR; ring.
Qed.

Lemma representable_0 : representable 0.
Proof. exists 0, 0; repeat split; try lia. rewrite fval_0; reflexivity. Qed.

(** An integer up to [2^53] in size is the value of a float. *)
Lemma representable_int a : Z.abs a <= 2 ^ 53 -> representable (IZR a).
Proof.
  intros H.
  destruct (Z.eq_dec (Z.abs a) (2 ^ 53)) as [E|N].
  - assert (C : a = 2 ^ 53 \/ a = - 2 ^ 53) by lia.
    destruct C as [-> | ->].
    + exists (2 ^ 52), 1; split; [lia|split; [lia|]].
      unfold fval; change (two_pow 1) with (2 * 1)%R.
      rewrite Rmult_1_r, <- (mult_IZR _ 2); reflexivity.
    + exists (- 2 ^ 52), 1; split; [lia|split; [lia|]].
      unfold fval; change (two_pow 1) with (2 * 1)%R.
      rewrite Rmult_1_r, <- (mult_IZR _ 2); reflexivity.
  - exists a, 0; split; [lia|split; [lia|]].
    unfold fval; rewrite two_pow_0; ring.
Qed.

(** A representable number of size [2^53] or more is an integer. *)
Lemma representable_big x :
  representable x -> (IZR (2 ^ 53) <= Rabs x)%R -> exists a, x = IZR a.
Proof.
  intros (m & e & M & E & ->) B.
  destruct (Z_le_gt_dec 0 e) as [P|P].
  - exists (m * 2 ^ e); unfold fval.
    rewrite mult_IZR, two_pow_Z by exact P; reflexivity.
  - exfalso.
    unfold fval in B; rewrite Rabs_mult, (Rabs_pos_eq (two_pow e)) in B
      by (pose proof (two_pow_pos e); lra).
    rewrite <- abs_IZR in B.
    assert (IZR (Z.abs m) < IZR (2 ^ 53))%R by (apply IZR_lt; exact M).
    assert (two_pow e <= 1)%R
      by (change 1%R with (two_pow 0); apply two_pow_le; lia).
    assert (0 <= IZR (Z.abs m))%R by (apply IZR_le; lia).
    pose proof (two_pow_pos e); nra.
Qed.

(** [rn_val K p y]: [y] is the value of the float made of the
    decimal [K / 10^p]. *)
Definition rn_val (K p : Z) (y : R) : Prop :=
  exists m e,
    round_ratio (Z.abs K) (10 ^ p) = Some (m, e)
    /\ y = (IZR (Z.sgn K) * fval m e)%R.

Lemma rn_val_fun K p y y' : rn_val K p y -> rn_val K p y' -> y = y'.
Proof.
  intros (m & e & H & ->) (m' & e' & H' & ->); congruence.
Qed.

Lemma pow10_pos p : 0 <= p -> 0 < 10 ^ p.
Proof. intros; apply Z.pow_pos_nonneg; lia. Qed.

Lemma rn_val_0 p : rn_val 0 p 0.
Proof. exists 0, 0; split; [reflexivity|simpl; ring]. Qed.

Lemma rn_val_spec K p y :
  0 <= p -> rn_val K p y ->
  representable y
  /\ forall z, representable z ->
       (Rabs (y - IZR K / IZR (10 ^ p)) <= Rabs (z - IZR K / IZR (10 ^ p)))%R.
Proof.
  intros Hp (m & e & RR & ->).
  pose proof (pow10_pos p Hp) as D.
  destruct (Z.eq_dec K 0) as [->|N].
  - simpl in RR; unfold round_ratio in RR; simpl in RR.
    injection RR as <- <-; simpl.
    rewrite Rmult_0_l; split; [apply representable_0|].
    intros z _; unfold Rdiv; rewrite Rmult_0_l, Rminus_diag.
    rewrite Rabs_R0; apply Rabs_pos.
  - destruct (round_ratio_spec (Z.abs K) (10 ^ p) m e ltac:(lia) D RR)
      as (M & E & _ & _ & Near).
    assert (Rep : representable (fval m e))
      by (apply representable_fval; lia).
    destruct (Z.abs_spec K) as [[S A]|[S A]]; rewrite A in Near.
    + rewrite Z.sgn_pos by lia; rewrite Rmult_1_l.
      split; [exact Rep|exact Near].
    + rewrite Z.sgn_neg by lia.
      replace (IZR (-1) * fval m e)%R with (- fval m e)%R by ring.
      split; [apply representable_opp; exact Rep|].
      intros z Hz; specialize (Near (- z)%R (representable_opp z Hz)).
      rewrite opp_IZR in Near.
      replace (- fval m e - IZR K / IZR (10 ^ p))%R
        with (- (fval m e - - IZR K / IZR (10 ^ p)))%R by (unfold Rdiv; ring).
      replace (z - IZR K / IZR (10 ^ p))%R
        with (- (- z - - IZR K / IZR (10 ^ p)))%R by (unfold Rdiv; ring).
      rewrite !Rabs_Ropp; exact Near.
Qed.

(** [near_decimal p x y]: [y] is [x] rounded to [p] decimals, ties to
    even, and then to the nearest float. *)
Definition near_decimal (p : Z) (x y : R) : Prop :=
  exists K, rhe (x * IZR (10 ^ p)) K /\ rn_val K p y.

Lemma near_decimal_mono p x x' y y' :
  0 <= p -> (x <= x')%R ->
  near_decimal p x y -> near_decimal p x' y' -> (y <= y')%R.
Proof.
  intros Hp Hx (K & RK & V) (K' & RK' & V').
  pose proof (pow10_pos p Hp) as D; apply IZR_lt in D.
  assert (LK : K <= K').
  { eapply rhe_mono; [|exact RK|exact RK']. nra. }
  destruct (Z.eq_dec K K') as [<-|N].
  - rewrite (rn_val_fun _ _ _ _ V V'); lra.
  - assert (LQ : (IZR K / IZR (10 ^ p) < IZR K' / IZR (10 ^ p))%R).
    { apply Rmult_lt_compat_r; [apply Rinv_0_lt_compat; exact D|].
      apply IZR_lt; lia. }
    destruct (rn_val_spec K p y Hp V) as [Ry Ny].
    destruct (rn_val_spec K' p y' Hp V') as [Ry' Ny'].
    specialize (Ny y' Ry'); specialize (Ny' y Ry).
    apply Rnot_lt_le; intros C.
    unfold Rabs in Ny, Ny'.
    destruct (Rcase_abs _) in Ny; destruct (Rcase_abs _) in Ny;
      destruct (Rcase_abs _) in Ny'; destruct (Rcase_abs _) in Ny'; lra.
Qed.

(** A representable number of size [2^53] or more is left as it is. *)
Lemma near_decimal_big p x y :
  0 <= p -> representable x -> (IZR (2 ^ 53) <= Rabs x)%R ->
  near_decimal p x y -> y = x.
Proof.
  intros Hp Rx B (K & RK & V).
  pose proof (pow10_pos p Hp) as D; apply IZR_lt in D.
  destruct (representable_big x Rx B) as [a ->].
  rewrite <- mult_IZR in RK; apply rhe_int in RK; subst K.
  destruct (rn_val_spec _ p y Hp V) as [_ N].
  specialize (N (IZR a) Rx).
  replace (IZR (a * 10 ^ p) / IZR (10 ^ p))%R with (IZR a) in N
    by (rewrite mult_IZR; field; lra).
  rewrite Rminus_diag, Rabs_R0 in N.
  pose proof (Rabs_pos (y - IZR a)).
  assert (E : Rabs (y - IZR a) = 0%R) by lra.
  unfold Rabs in E; destruct (Rcase_abs _) in E; lra.
Qed.

(** Rounding does not cross an integer. *)
Lemma near_decimal_int_le p x y a :
  0 <= p -> representable x -> (IZR a <= x)%R ->
  near_decimal p x y -> (IZR a <= y)%R.
Proof.
  intros Hp Rx Hax N.
  destruct (Rle_or_lt (IZR (2 ^ 53)) (Rabs x)) as [B|B].
  { rewrite (near_decimal_big p x y Hp Rx B N); exact Hax. }
  assert (Bx : (- IZR (2 ^ 53) < x < IZR (2 ^ 53))%R)
    by (unfold Rabs in B; destruct (Rcase_abs _) in B; lra).
  destruct N as (K & RK & V).
  pose proof (pow10_pos p Hp) as D; apply IZR_lt in D.
  assert (Main : forall b, Z.abs b <= 2 ^ 53 -> (IZR b <= x)%R ->
                   (IZR b <= y)%R).
  { intros b Hb Hbx.
    assert (LK : b * 10 ^ p <= K).
    { eapply rhe_mono; [|apply rhe_IZR|exact RK].
      rewrite mult_IZR; nra. }
    assert (LQ : (IZR b <= IZR K / IZR (10 ^ p))%R).
    { apply IZR_le in LK; rewrite mult_IZR in LK.
      apply (Rmult_le_reg_r (IZR (10 ^ p))); [exact D|].
      replace (IZR K / IZR (10 ^ p) * IZR (10 ^ p))%R with (IZR K)
        by (field; lra).
      exact LK. }
    destruct (rn_val_spec K p y Hp V) as [_ Ny].
    specialize (Ny (IZR b) (representable_int b Hb)).
    apply Rnot_lt_le; intros C.
    unfold Rabs in Ny.
    destruct (Rcase_abs _) in Ny; destruct (Rcase_abs _) in Ny; lra. }
  destruct (Z_le_gt_dec (- 2 ^ 53) a) as [L|L].
  - apply Main; [|exact Hax].
    assert (a < 2 ^ 53) by (apply lt_IZR; lra).
    lia.
  - assert (IZR (- 2 ^ 53) <= y)%R.
    { apply Main; [lia|]. rewrite opp_IZR; lra. }
    assert (IZR a < IZR (- 2 ^ 53))%R by (apply IZR_lt; lia).
    lra.
Qed.

Lemma rhe_opp_inv x k : rhe (- x) (- k) -> rhe x k.
Proof.
  intros H; apply rhe_opp in H.
  rewrite Ropp_involutive, Z.opp_involutive in H; exact H.
Qed.

Lemma rn_val_opp K p y : rn_val K p y -> rn_val (- K) p (- y).
Proof.
  intros (m & e & RR & ->); exists m, e.
  rewrite Z.abs_opp, Z.sgn_opp, opp_IZR; split; [exact RR|ring].
Qed.

Lemma near_decimal_opp p x y : near_decimal p x y -> near_decimal p (- x) (- y).
Proof.
  intros (K & RK & V); exists (- K); split; [|apply rn_val_opp; exact V].
  replace (- x * IZR (10 ^ p))%R with (- (x * IZR (10 ^ p)))%R by ring.
  apply rhe_opp; exact RK.
Qed.

Lemma near_decimal_int_ge p x y a :
  0 <= p -> representable x -> (x <= IZR a)%R ->
  near_decimal p x y -> (y <= IZR a)%R.
Proof.
  intros Hp Rx Hax N.
  apply near_decimal_opp in N.
  pose proof (near_decimal_int_le p (- x) (- y) (- a) Hp
                (representable_opp x Rx)) as H.
  rewrite opp_IZR in H.
  specialize (H ltac:(lra) N); lra.
Qed.

(** A number between [x] and its rounding is rounded to the same
    decimal. *)
Lemma rhe_between p x y K x' :
  0 <= p -> representable x ->
  rhe (x * IZR (10 ^ p)) K -> rn_val K p y ->
  (y <= x' <= x \/ x <= x' <= y)%R ->
  rhe (x' * IZR (10 ^ p)) K.
Proof.
  intros Hp Rx RK V B.
  pose proof (pow10_pos p Hp) as D; apply IZR_lt in D.
  destruct (rn_val_spec K p y Hp V) as [_ Ny].
  specialize (Ny x Rx).
  apply (rhe_closer (x * IZR (10 ^ p))); [exact RK|].
  set (Q := (IZR K / IZR (10 ^ p))%R) in *.
  assert (EQ : IZR K = (Q * IZR (10 ^ p))%R) by (unfold Q; field; lra).
  rewrite EQ.
  replace (x' * IZR (10 ^ p) - Q * IZR (10 ^ p))%R
    with ((x' - Q) * IZR (10 ^ p))%R by ring.
  replace (x * IZR (10 ^ p) - Q * IZR (10 ^ p))%R
    with ((x - Q) * IZR (10 ^ p))%R by ring.
  rewrite !Rabs_mult, (Rabs_pos_eq (IZR (10 ^ p))) by lra.
  apply Rmult_le_compat_r; [lra|].
  unfold Rabs in *.
  destruct (Rcase_abs (x' - Q)), (Rcase_abs (x - Q));
    destruct (Rcase_abs (y - Q)); lra.
Qed.

(** *** [round] on a float *)

(** The value of a float that is a number. *)
Definition fv (f : float) : R := xval (xnum_of_float f).

(** The decimal [round] makes of a finite float: its [p]-th decimal
    place as an integer. *)
Definition decimal_of (mf : positive) (ef p : Z) : Z :=
  let n := if 0 <=? ef then Z.pos mf * 2 ^ ef else Z.pos mf in
  let d := if 0 <=? ef then 1 else 2 ^ (- ef) in
  div_half_even (n * 10 ^ p) d.

Lemma round_float_unfold f s mf ef p :
  Prim2SF f = S754_finite s mf ef -> 0 <= p -> p <= 323 ->
  round_float f p
  = match float_of_ratio s (decimal_of mf ef p) (10 ^ p) with
    | Some g => Ok g
    | None => Raise OverflowError
    end.
Proof.
  intros H P0 P1; unfold round_float, decimal_of; rewrite H.
  rewrite (proj2 (Z.ltb_ge 323 p)) by lia.
  rewrite (proj2 (Z.ltb_ge p (-308))) by lia.
  rewrite (proj2 (Z.leb_le 0 p)) by lia.
  reflexivity.
Qed.

Lemma round_float_far f p : 323 < p -> round_float f p = Ok f.
Proof.
  intros P; unfold round_float.
  rewrite (proj2 (Z.ltb_lt 323 p)) by lia.
  destruct (Prim2SF f); reflexivity.
Qed.

Lemma decimal_of_rhe mf ef p :
  0 <= p -> rhe (fval (Z.pos mf) ef * IZR (10 ^ p)) (decimal_of mf ef p).
Proof.
  intros Hp; unfold decimal_of.
  destruct (Z.leb_spec 0 ef) as [P|P].
  - replace (fval (Z.pos mf) ef * IZR (10 ^ p))%R
      with (IZR (Z.pos mf * 2 ^ ef * 10 ^ p) / IZR 1)%R.
    + apply div_half_even_rhe; lia.
    + rewrite !mult_IZR, two_pow_Z by exact P; unfold fval; field.
  - replace (fval (Z.pos mf) ef * IZR (10 ^ p))%R
      with (IZR (Z.pos mf * 10 ^ p) / IZR (2 ^ (- ef)))%R.
    + apply div_half_even_rhe, Z.pow_pos_nonneg; lia.
    + rewrite !mult_IZR, two_pow_Z, two_pow_opp by lia; unfold fval.
      pose proof (two_pow_pos ef); field; lra.
Qed.

Lemma fval_pos m e : 0 < m -> (0 < fval m e)%R.
Proof.
  intros H; apply IZR_lt in H; pose proof (two_pow_pos e).
  unfold fval; nra.
Qed.

Lemma decimal_of_nonneg mf ef p : 0 <= p -> 0 <= decimal_of mf ef p.
Proof.
  intros Hp.
  apply (rhe_mono (IZR 0) (fval (Z.pos mf) ef * IZR (10 ^ p)));
    [|apply rhe_IZR|apply decimal_of_rhe; exact Hp].
  pose proof (fval_pos (Z.pos mf) ef ltac:(lia)).
  pose proof (pow10_pos p Hp) as D; apply IZR_lt in D; nra.
Qed.

Lemma xnum_of_finite f s m e :
  Prim2SF f = S754_finite s m e ->
  xnum_of_float f = XFin (sign_of s * Z.pos m) e
  /\ fv f = (IZR (sign_of s) * fval (Z.pos m) e)%R.
Proof.
  intros H; unfold fv, xnum_of_float; rewrite H.
  destruct s; simpl; split; try reflexivity; unfold fval.
  - change (Z.neg m) with (- Z.pos m); rewrite opp_IZR; ring.
  - ring.
Qed.

Lemma finite_representable f s m e :
  Prim2SF f = S754_finite s m e -> representable (fv f).
Proof.
  intros H; destruct (finite_bounds f s m e H) as (M & E & _).
  destruct (xnum_of_finite f s m e H) as [X _].
  unfold fv; rewrite X; apply representable_fval; [|lia].
  destruct s; simpl; lia.
Qed.

Lemma finite_le_max f s m e :
  Prim2SF f = S754_finite s m e -> (fval (Z.pos m) e <= max_float)%R.
Proof.
  intros H; destruct (finite_bounds f s m e H) as (M & E & _).
  unfold max_float, fval.
  assert (IZR (Z.pos m) <= IZR (2 ^ 53 - 1))%R by (apply IZR_le; lia).
  assert (two_pow e <= two_pow 971)%R by (apply two_pow_le; lia).
  assert (0 < IZR (Z.pos m))%R by (apply IZR_lt; lia).
  pose proof (two_pow_pos e); nra.
Qed.

(** For a non-negative number of places [round] returns. *)
Lemma round_float_total f s mf ef p :
  Prim2SF f = S754_finite s mf ef -> 0 <= p -> p <= 323 ->
  exists g,
    round_float f p = Ok g
    /\ float_of_ratio s (decimal_of mf ef p) (10 ^ p) = Some g.
Proof.
  intros H P0 P1; rewrite (round_float_unfold f s mf ef p H P0 P1).
  set (k := decimal_of mf ef p).
  assert (RR : exists m e, round_ratio k (10 ^ p) = Some (m, e)).
  { pose proof (decimal_of_nonneg mf ef p P0) as K0; fold k in K0.
    destruct (Z.eq_dec k 0) as [->|N]; [exists 0, 0; reflexivity|].
    pose proof (pow10_pos p P0) as D.
    apply round_ratio_total; [lia|exact D|].
    pose proof (decimal_of_rhe mf ef p P0) as [[L U] _]; fold k in L, U.
    pose proof (finite_le_max f s mf ef H) as Mx.
    set (x := fval (Z.pos mf) ef) in *.
    assert (D' : (1 <= IZR (10 ^ p))%R) by (apply IZR_le; lia).
    destruct (Rle_or_lt (IZR (2 ^ 53)) x) as [B|B].
    - assert (Rx : representable x).
      { destruct (finite_bounds f s mf ef H) as (M & E & _).
        apply representable_fval; lia. }
      destruct (representable_big x Rx) as [a Ha].
      { rewrite Rabs_pos_eq; [exact B|].
        pose proof (fval_pos (Z.pos mf) ef ltac:(lia)); fold x in H0; lra. }
      assert (k = a * 10 ^ p).
      { apply rhe_int; rewrite mult_IZR, <- Ha. apply decimal_of_rhe, P0. }
      subst k; rewrite H0, mult_IZR, <- Ha.
      replace (x * IZR (10 ^ p) / IZR (10 ^ p))%R with x by (field; lra).
      exact Mx.
    - apply (Rle_trans _ (x + 1)%R).
      + apply (Rmult_le_reg_r (IZR (10 ^ p))); [lra|].
        replace (IZR k / IZR (10 ^ p) * IZR (10 ^ p))%R with (IZR k)
          by (field; lra).
        nra.
      + assert (IZR (2 ^ 53) + 1 <= max_float)%R; [|lra].
        unfold max_float, fval.
        rewrite <- two_pow_Z, <- mult_IZR, <- plus_IZR by lia.
        apply IZR_le; vm_compute; discriminate. }
  destruct RR as (m & e & RR).
  unfold float_of_ratio; rewrite RR; eexists; split; reflexivity.
Qed.

(** What [round] returns on a finite float, with [p] from 0 to 323. *)
Lemma round_float_sem f s mf ef p g :
  Prim2SF f = S754_finite s mf ef -> 0 <= p -> p <= 323 ->
  round_float f p = Ok g ->
  let k := decimal_of mf ef p in
  float_of_ratio s k (10 ^ p) = Some g
  /\ exists m e,
       round_ratio k (10 ^ p) = Some (m, e)
       /\ Prim2SF g = spec_of s m e
       /\ 0 <= m < 2 ^ 53
       /\ fv g = (IZR (sign_of s) * fval m e)%R
       /\ rn_val k p (fval m e)
       /\ (k = 0 -> m = 0).
Proof.
  intros H P0 P1 R k.
  destruct (round_float_total f s mf ef p H P0 P1) as (g' & R' & F).
  rewrite R in R'; injection R' as <-.
  split; [exact F|].
  pose proof (decimal_of_nonneg mf ef p P0) as K0; fold k in K0, F.
  destruct (float_of_ratio_spec s k (10 ^ p) g K0 (pow10_pos p P0) F)
    as (m & e & RR & _ & SP & M).
  exists m, e; split; [exact RR|]; split; [exact SP|]; split; [exact M|].
  split; [|split].
  - destruct (xnum_of_spec s m e g (proj1 M) SP) as (e' & X & V).
    unfold fv; rewrite X; exact V.
  - destruct (Z.eq_dec k 0) as [E|N].
    + assert (m = 0)
        by (rewrite E in RR; unfold round_ratio in RR; simpl in RR;
            congruence).
      subst m; rewrite E, fval_0; apply rn_val_0.
    + exists m, e.
      rewrite Z.abs_eq, Z.sgn_pos by lia; split; [exact RR|ring].
  - intros K; rewrite K in RR; unfold round_ratio in RR; simpl in RR.
    congruence.
Qed.

Lemma sign_of_sq s : (IZR (sign_of s) * IZR (sign_of s) = 1)%R.
Proof. destruct s; simpl; lra. Qed.

(** The rounding of a finite float is rounded to itself. *)
Lemma round_float_idempotent f p g :
  0 <= p -> round_float f p = Ok g -> round_float g p = Ok g.
Proof.
  intros P0 R.
  destruct (Z_lt_le_dec 323 p) as [Far|P1]; [apply round_float_far; exact Far|].
  destruct (Prim2SF f) as [s|s| |s mf ef] eqn:H.
  1-3: unfold round_float in R; rewrite H in R; injection R as <-;
       unfold round_float; rewrite H; reflexivity.
  destruct (round_float_sem f s mf ef p g H P0 P1 R)
    as (F & m & e & RR & SP & M & V & RN & Z0).
  set (k := decimal_of mf ef p) in *.
  destruct m as [|pm|pm]; [| |lia].
  - unfold round_float; rewrite SP; reflexivity.
  - simpl in SP.
    destruct (round_float_total g s pm e p SP P0 P1) as (g2 & R2 & F2).
    rewrite R2; f_equal.
    assert (K : decimal_of pm e p = k); [|rewrite K in F2; congruence].
    eapply rhe_unique; [apply decimal_of_rhe; exact P0|].
    apply (rhe_between p (fval (Z.pos mf) ef) (fval (Z.pos pm) e) k);
      try assumption.
    + destruct (finite_bounds f s mf ef H) as (Mf & Ef & _).
      apply representable_fval; lia.
    + apply decimal_of_rhe; exact P0.
    + destruct (Rle_or_lt (fval (Z.pos pm) e) (fval (Z.pos mf) ef));
        [left|right]; lra.
Qed.

(** A float that is a number: a zero or a finite float. *)
Definition is_fin (x : xnum) : Prop := exists m e, x = XFin m e.

Lemma round_float_zero f s p :
  Prim2SF f = S754_zero s -> round_float f p = Ok f /\ fv f = 0%R.
Proof.
  intros H; unfold round_float, fv, xnum_of_float; rewrite H; simpl.
  split; [reflexivity|apply fval_0].
Qed.

Lemma is_fin_cases f :
  is_fin (xnum_of_float f) ->
  (exists s, Prim2SF f = S754_zero s)
  \/ exists s m e, Prim2SF f = S754_finite s m e.
Proof.
  intros (m & e & H); unfold xnum_of_float in H.
  destruct (Prim2SF f) as [s|s| |s m' e']; try discriminate.
  - left; exists s; reflexivity.
  - right; exists s, m', e'; reflexivity.
Qed.

Lemma fin_representable f : is_fin (xnum_of_float f) -> representable (fv f).
Proof.
  intros H; destruct (is_fin_cases f H) as [[s Z]|(s & m & e & F)].
  - unfold fv, xnum_of_float; rewrite Z; simpl; rewrite fval_0.
    apply representable_0.
  - eapply finite_representable; exact F.
Qed.

(** [round] on a float that is a number, with [p] from 0 to 323:
    the result is the float nearest to the decimal nearest to it. *)
Lemma round_float_near f p g :
  0 <= p -> p <= 323 -> is_fin (xnum_of_float f) ->
  round_float f p = Ok g ->
  is_fin (xnum_of_float g) /\ near_decimal p (fv f) (fv g).
Proof.
  intros P0 P1 Hf R.
  destruct (is_fin_cases f Hf) as [[s Z]|(s & mf & ef & F)].
  - destruct (round_float_zero f s p Z) as [R' V].
    rewrite R in R'; injection R' as ->.
    split; [exact Hf|].
    rewrite V; exists 0; split; [|apply rn_val_0].
    rewrite Rmult_0_l; apply rhe_IZR.
  - destruct (round_float_sem f s mf ef p g F P0 P1 R)
      as (_ & m & e & RR & SP & M & V & RN & Z0).
    set (k := decimal_of mf ef p) in *.
    split.
    { destruct (xnum_of_spec s m e g (proj1 M) SP) as (e' & X & _).
      eexists _, _; exact X. }
    destruct (xnum_of_finite f s mf ef F) as [_ Vf].
    exists (sign_of s * k); split.
    + rewrite Vf.
      pose proof (decimal_of_rhe mf ef p P0) as Rk; fold k in Rk.
      destruct s; simpl sign_of.
      * replace (IZR (-1) * fval (Z.pos mf) ef * IZR (10 ^ p))%R
          with (- (fval (Z.pos mf) ef * IZR (10 ^ p)))%R by ring.
        replace (-1 * k) with (- k) by ring.
        apply rhe_opp; exact Rk.
      * rewrite Rmult_1_l, Z.mul_1_l; exact Rk.
    + rewrite V.
      pose proof (decimal_of_nonneg mf ef p P0) as K0; fold k in K0.
      destruct s; simpl sign_of.
      * replace (-1 * k) with (- k) by ring.
        replace (IZR (-1) * fval m e)%R with (- fval m e)%R by ring.
        apply rn_val_opp; exact RN.
      * rewrite Rmult_1_l, Z.mul_1_l; exact RN.
Qed.

(** A float between a float and its rounding is rounded to the same
    float. *)
Lemma round_float_between f p g y :
  0 <= p -> is_fin (xnum_of_float f) -> is_fin (xnum_of_float y) ->
  round_float f p = Ok g ->
  (fv g < fv y <= fv f \/ fv f <= fv y < fv g)%R ->
  round_float y p = Ok g.
Proof.
  intros P0 Hf Hy R B.
  destruct (Z_lt_le_dec 323 p) as [Far|P1].
  { rewrite round_float_far in R by exact Far; injection R as <-; lra. }
  destruct (is_fin_cases f Hf) as [[s Z]|(s & mf & ef & F)].
  { destruct (round_float_zero f s p Z) as [R' V].
    rewrite R in R'; injection R' as ->; lra. }
  destruct (round_float_sem f s mf ef p g F P0 P1 R)
    as (FR & m & e & RR & SP & M & V & RN & Z0).
  set (k := decimal_of mf ef p) in *.
  destruct (xnum_of_finite f s mf ef F) as [_ Vf].
  pose proof (fval_pos (Z.pos mf) ef ltac:(lia)) as Fpos.
  assert (Mpos : (0 <= fval m e)%R).
  { destruct (Z.eq_dec m 0) as [->|]; [rewrite fval_0; lra|].
    apply Rlt_le, fval_pos; lia. }
  destruct (is_fin_cases y Hy) as [[sy Zy]|(sy & my & ey & Fy)].
  { destruct (round_float_zero y sy p Zy) as [_ Vy].
    exfalso; rewrite Vy, V, Vf in B.
    destruct s; cbn [sign_of] in B; destruct B as [B|B]; lra. }
  destruct (xnum_of_finite y sy my ey Fy) as [_ Vy].
  pose proof (fval_pos (Z.pos my) ey ltac:(lia)) as Ypos.
  rewrite Vy, V, Vf in B.
  assert (S : sy = s).
  { destruct s, sy; cbn [sign_of] in B; try reflexivity; exfalso;
      destruct B as [B|B]; lra. }
  subst sy.
  assert (B' : (fval m e <= fval (Z.pos my) ey <= fval (Z.pos mf) ef
                \/ fval (Z.pos mf) ef <= fval (Z.pos my) ey <= fval m e)%R)
    by (destruct s; cbn [sign_of] in B; destruct B as [B|B];
        first [left; lra|right; lra]).
  destruct (round_float_total y s my ey p Fy P0 P1) as (g2 & R2 & F2).
  rewrite R2; f_equal.
  assert (K : decimal_of my ey p = k); [|rewrite K in F2; congruence].
  eapply rhe_unique; [apply decimal_of_rhe; exact P0|].
  apply (rhe_between p (fval (Z.pos mf) ef) (fval m e) k); try assumption.
  - destruct (finite_bounds f s mf ef F) as (Mf & Ef & _).
    apply representable_fval; lia.
  - apply decimal_of_rhe; exact P0.
Qed.

(** *** Truncation *)

(** [trunc_of x z]: [z] is [x] truncated toward zero. *)
Definition trunc_of (x : R) (z : Z) : Prop :=
  ((0 <= x)%R -> (IZR z <= x < IZR z + 1)%R)
  /\ ((x <= 0)%R -> (IZR z - 1 < x <= IZR z)%R).

Lemma trunc_of_mono x x' z z' :
  (x <= x')%R -> trunc_of x z -> trunc_of x' z' -> z <= z'.
Proof.
  intros Hx [P N] [P' N'].
  apply IZR_lt_succ.
  destruct (Rle_or_lt 0 x) as [S|S], (Rle_or_lt 0 x') as [S'|S'];
    try specialize (P S); try specialize (P' S');
    try specialize (N (Rlt_le _ _ S)); try specialize (N' (Rlt_le _ _ S'));
    try lra.
  (* x negative, x' non-negative *)
  assert (z <= 0) by (apply IZR_lt_succ; lra).
  assert (-1 < z') by (apply lt_IZR; lra).
  assert (IZR z <= IZR z')%R by (apply IZR_le; lia).
  lra.
Qed.

Lemma trunc_of_IZR z : trunc_of (IZR z) z.
Proof. split; intros _; lra. Qed.

Lemma trunc_of_fun x z z' : trunc_of x z -> trunc_of x z' -> z = z'.
Proof.
  intros H H'.
  pose proof (trunc_of_mono x x z z' ltac:(lra) H H').
  pose proof (trunc_of_mono x x z' z ltac:(lra) H' H).
  lia.
Qed.

Lemma xtrunc_spec m e :
  exists z, xtrunc (XFin m e) = Ok z /\ trunc_of (fval m e) z.
Proof.
  eexists; split; [reflexivity|].
  destruct (Z.leb_spec 0 e) as [P|P].
  - unfold fval; rewrite <- two_pow_Z, <- mult_IZR by exact P.
    apply trunc_of_IZR.
  - set (D := 2 ^ (- e)).
    assert (Dpos : 0 < D) by (apply Z.pow_pos_nonneg; lia).
    assert (V : (fval m e * IZR D = IZR m)%R).
    { unfold fval, D; rewrite two_pow_Z, two_pow_opp by lia.
      pose proof (two_pow_pos e); field; lra. }
    pose proof (Z.quot_rem' m D) as QR.
    apply IZR_lt in Dpos as Dpos'.
    split; intros S.
    + assert (M0 : 0 <= m).
      { apply le_IZR; rewrite <- V; simpl; nra. }
      pose proof (Z.rem_bound_pos m D M0 Dpos) as B.
      assert (E : (IZR m = IZR D * IZR (Z.quot m D) + IZR (Z.rem m D))%R)
        by (rewrite <- mult_IZR, <- plus_IZR; f_equal; exact QR).
      destruct B as [B1 B2]; apply IZR_le in B1; apply IZR_lt in B2.
      split; nra.
    + assert (M0 : m <= 0).
      { apply le_IZR; rewrite <- V; simpl; nra. }
      assert (B : - D < Z.rem m D <= 0).
      { pose proof (Z.rem_bound_pos (- m) D ltac:(lia) Dpos) as B.
        rewrite Z.rem_opp_l in B by lia; lia. }
      assert (E : (IZR m = IZR D * IZR (Z.quot m D) + IZR (Z.rem m D))%R)
        by (rewrite <- mult_IZR, <- plus_IZR; f_equal; exact QR).
      destruct B as [B1 B2]; apply IZR_lt in B1; apply IZR_le in B2.
      rewrite opp_IZR in B1.
      split; nra.
Qed.

(** *** The order of the numbers *)

Definition xlt (a b : xnum) : Prop := xcompare a b = Some Lt.
Definition xle (a b : xnum) : Prop :=
  xcompare a b = Some Lt \/ xcompare a b = Some Eq.

(** Minus infinity, the finite numbers, plus infinity. *)
Definition rank (a : xnum) : Z :=
  match a with
  | XInf true => -1
  | XInf false => 1
  | _ => 0
  end.

Lemma xlt_spec a b :
  xlt a b <->
  a <> XNaN /\ b <> XNaN
  /\ (rank a < rank b
      \/ (rank a = 0 /\ rank b = 0 /\ (xval a < xval b)%R)).
Proof.
  unfold xlt.
  destruct a as [|[]|m1 e1], b as [|[]|m2 e2]; simpl;
    try (split; [discriminate|intros (A & B & C); try congruence;
                              destruct C as [C|(C1 & C2 & C3)]; lia || lra]);
    try (split; [intros _; repeat split; try discriminate; left; lia
                |reflexivity]).
  pose proof (xcompare_fval m1 e1 m2 e2) as H; cbn [xcompare] in H.
  destruct (_ ?= _); split; try discriminate; try reflexivity.
  - intros (_ & _ & [C|(_ & _ & C)]); [lia|lra].
  - intros _; repeat split; try discriminate; right; repeat split; exact H.
  - intros (_ & _ & [C|(_ & _ & C)]); [lia|lra].
Qed.

Lemma xle_spec a b :
  xle a b <->
  a <> XNaN /\ b <> XNaN
  /\ (rank a < rank b
      \/ (rank a = rank b /\ (rank a = 0 -> (xval a <= xval b)%R))).
Proof.
  unfold xle.
  destruct a as [|[]|m1 e1], b as [|[]|m2 e2]; simpl;
    try (split; [intros [H|H]; discriminate
                |intros (A & B & C); try congruence;
                 destruct C as [C|(C1 & C2)]; lia]);
    try (split; [intros _; repeat split; try discriminate;
                 first [left; lia|right; split; [reflexivity|intros; lia]]
                |intros _; first [left; reflexivity|right; reflexivity]]).
  pose proof (xcompare_fval m1 e1 m2 e2) as H; cbn [xcompare] in H.
  destruct (_ ?= _); split.
  - intros _; repeat split; try discriminate; right; split; [reflexivity|].
    intros _; lra.
  - intros _; right; reflexivity.
  - intros _; repeat split; try discriminate; right; split; [reflexivity|].
    intros _; lra.
  - intros _; left; reflexivity.
  - intros [E|E]; discriminate.
  - intros (_ & _ & [C|(_ & C)]); [lia|specialize (C eq_refl); lra].
Qed.

Lemma not_xlt a b : a <> XNaN -> b <> XNaN -> ~ xlt a b -> xle b a.
Proof.
  intros A B N; rewrite xlt_spec in N; rewrite xle_spec.
  split; [exact B|split; [exact A|]].
  destruct (Z_lt_le_dec (rank b) (rank a)) as [L|L]; [left; exact L|right].
  assert (E : rank a = rank b).
  { destruct (Z.eq_dec (rank a) (rank b)) as [E|E]; [exact E|].
    exfalso; apply N; repeat split; try assumption; left; lia. }
  split; [symmetry; exact E|intros R0].
  apply Rnot_lt_le; intros C; apply N; repeat split; try assumption.
  right; repeat split; try lia; exact C.
Qed.

Lemma is_fin_spec a : is_fin a <-> a <> XNaN /\ rank a = 0.
Proof.
  split.
  - intros (m & e & ->); split; [discriminate|reflexivity].
  - destruct a as [|[]|m e]; simpl; intros [A B]; try congruence; try lia.
    exists m, e; reflexivity.
Qed.

Lemma num_ltb_xlt x y :
  num_ltb x y = true <-> xlt (xnum_of_num x) (xnum_of_num y).
Proof.
  unfold num_ltb, xlt.
  destruct (xcompare _ _) as [[]|]; split; congruence.
Qed.

(** *** The steps of [enforce] on the numbers *)

(** The number a numeric value stands for. *)
Definition xnum_of (v : val) : xnum := xnum_of_num (TypeSpec.num_of v).
Definition rv (v : val) : R := xval (xnum_of v).

(** The precision step and the unit step of [enforce]. *)
Definition round_and_convert (t : TypeSpec.t) (v : val) : outcome val :=
  (x <- TypeSpec.apply_precision t v ;; TypeSpec.apply_unit t x)%outcome.

(** The bounds step of [enforce]. *)
Definition clamp (t : TypeSpec.t) (v : val) : val :=
  TypeSpec.apply_max t (TypeSpec.apply_min t v).

Lemma enforce_numeric_steps t v :
  TypeSpec.enforce_numeric t v = round_and_convert t (clamp t v).
Proof. reflexivity. Qed.

(** The data model of the specification: a precision is not
    negative. *)
Definition precision_not_negative (t : TypeSpec.t) : Prop :=
  forall p, TypeSpec.precision t = Some p -> 0 <= p.

Lemma fval_int z : fval z 0 = IZR z.
Proof. unfold fval; rewrite two_pow_0; ring. Qed.

Lemma round_float_returns f p : 0 <= p -> exists g, round_float f p = Ok g.
Proof.
  intros P0.
  destruct (Z_lt_le_dec 323 p) as [Far|P1];
    [exists f; apply round_float_far; exact Far|].
  destruct (Prim2SF f) as [s|s| |s mf ef] eqn:H;
    try (exists f; unfold round_float; rewrite H; reflexivity).
  destruct (round_float_total f s mf ef p H P0 P1) as (g & R & _).
  exists g; exact R.
Qed.

Lemma round_float_not_fin f p :
  ~ is_fin (xnum_of_float f) -> round_float f p = Ok f.
Proof.
  intros N; unfold round_float.
  destruct (Prim2SF f) as [s|s| |s mf ef] eqn:H; try reflexivity.
  exfalso; apply N; unfold xnum_of_float; rewrite H.
  eexists _, _; reflexivity.
Qed.

Lemma round_float_fin f p g :
  0 <= p -> is_fin (xnum_of_float f) -> round_float f p = Ok g ->
  is_fin (xnum_of_float g).
Proof.
  intros P0 Hf R.
  destruct (Z_lt_le_dec 323 p) as [Far|P1].
  - rewrite round_float_far in R by exact Far; injection R as <-; exact Hf.
  - apply (round_float_near f p g P0 P1 Hf R).
Qed.

Lemma round_float_mono f f' p g g' :
  0 <= p -> is_fin (xnum_of_float f) -> is_fin (xnum_of_float f') ->
  (fv f <= fv f')%R ->
  round_float f p = Ok g -> round_float f' p = Ok g' -> (fv g <= fv g')%R.
Proof.
  intros P0 Hf Hf' L R R'.
  destruct (Z_lt_le_dec 323 p) as [Far|P1].
  - rewrite round_float_far in R, R' by exact Far.
    injection R as <-; injection R' as <-; exact L.
  - destruct (round_float_near f p g P0 P1 Hf R) as [_ N].
    destruct (round_float_near f' p g' P0 P1 Hf' R') as [_ N'].
    eapply near_decimal_mono; eassumption.
Qed.

Lemma round_float_int_le f p g a :
  0 <= p -> is_fin (xnum_of_float f) -> (IZR a <= fv f)%R ->
  round_float f p = Ok g -> (IZR a <= fv g)%R.
Proof.
  intros P0 Hf L R.
  destruct (Z_lt_le_dec 323 p) as [Far|P1].
  - rewrite round_float_far in R by exact Far; injection R as <-; exact L.
  - destruct (round_float_near f p g P0 P1 Hf R) as [_ N].
    eapply near_decimal_int_le; try eassumption.
    apply fin_representable; exact Hf.
Qed.

Lemma round_float_int_ge f p g a :
  0 <= p -> is_fin (xnum_of_float f) -> (fv f <= IZR a)%R ->
  round_float f p = Ok g -> (fv g <= IZR a)%R.
Proof.
  intros P0 Hf L R.
  destruct (Z_lt_le_dec 323 p) as [Far|P1].
  - rewrite round_float_far in R by exact Far; injection R as <-; exact L.
  - destruct (round_float_near f p g P0 P1 Hf R) as [_ N].
    eapply near_decimal_int_ge; try eassumption.
    apply fin_representable; exact Hf.
Qed.

(** *** The precision step *)

Definition numeric (v : val) : Prop := is_numeric v = true.

(** The shape of a numeric value: an integer (a bool counts as one)
    or a float. *)
Inductive shape (v : val) : Type :=
| IsInt (z : Z) (H : TypeSpec.num_of v = NInt z) (N : forall f, v <> VFloat f)
| IsFloat (f : float) (H : v = VFloat f).

Lemma shape_of v : numeric v -> shape v.
Proof.
  destruct v; try discriminate; intros _.
  - eapply IsInt; [reflexivity|discriminate].
  - eapply IsInt; [reflexivity|discriminate].
  - eapply IsFloat; reflexivity.
Qed.

Lemma xnum_of_int v z :
  TypeSpec.num_of v = NInt z -> xnum_of v = XFin z 0 /\ rv v = IZR z.
Proof.
  intros H; unfold rv, xnum_of; rewrite H; simpl.
  split; [reflexivity|apply fval_int].
Qed.

Lemma precision_int t v z :
  precision_not_negative t -> numeric v -> TypeSpec.num_of v = NInt z ->
  (TypeSpec.precision t = None /\ TypeSpec.apply_precision t v = Ok v)
  \/ TypeSpec.apply_precision t v = Ok (VInt z).
Proof.
  intros T V H; unfold TypeSpec.apply_precision.
  destruct (TypeSpec.precision t) as [p|] eqn:P; [right|left; auto].
  rewrite H; simpl; unfold round_int.
  rewrite (proj2 (Z.leb_le 0 p)) by exact (T p P); reflexivity.
Qed.

Lemma precision_float t f :
  precision_not_negative t ->
  exists g,
    TypeSpec.apply_precision t (VFloat f) = Ok (VFloat g)
    /\ match TypeSpec.precision t with
       | Some p => 0 <= p /\ round_float f p = Ok g
       | None => g = f
       end.
Proof.
  intros T; unfold TypeSpec.apply_precision.
  destruct (TypeSpec.precision t) as [p|] eqn:P.
  - destruct (round_float_returns f p (T p P)) as [g R].
    exists g; simpl; rewrite R; split; [reflexivity|].
    split; [exact (T p P)|reflexivity].
  - exists f; split; reflexivity.
Qed.

Lemma precision_float_inv t f r :
  TypeSpec.apply_precision t (VFloat f) = Ok r ->
  exists g, r = VFloat g.
Proof.
  unfold TypeSpec.apply_precision.
  destruct (TypeSpec.precision t) as [p|]; simpl.
  - destruct (round_float f p); try discriminate.
    intros H; injection H as <-; eexists; reflexivity.
  - intros H; injection H as <-; eexists; reflexivity.
Qed.

(** The precision step returns a number of the same kind. *)
Lemma precision_returns t v :
  precision_not_negative t -> numeric v ->
  exists r, TypeSpec.apply_precision t v = Ok r /\ numeric r.
Proof.
  intros T V; destruct (shape_of v V) as [z H _|f ->].
  - destruct (precision_int t v z T V H) as [[_ E]|E];
      eexists; (split; [exact E|]); [exact V|reflexivity].
  - destruct (precision_float t f T) as (g & E & _).
    exists (VFloat g); split; [exact E|reflexivity].
Qed.

Lemma precision_numeric t v r :
  precision_not_negative t -> numeric v ->
  TypeSpec.apply_precision t v = Ok r -> numeric r.
Proof.
  intros T V E; destruct (precision_returns t v T V) as (r' & E' & N).
  congruence.
Qed.

(** It keeps what is not a finite number, and makes a finite number
    of a finite number. *)
Lemma precision_not_fin t v r :
  precision_not_negative t -> numeric v ->
  TypeSpec.apply_precision t v = Ok r ->
  ~ is_fin (xnum_of v) -> r = v.
Proof.
  intros T V E N; destruct (shape_of v V) as [z H _|f ->].
  - exfalso; apply N; rewrite (proj1 (xnum_of_int v z H)).
    eexists _, _; reflexivity.
  - destruct (precision_float t f T) as (g & E' & S).
    rewrite E in E'; injection E' as ->.
    destruct (TypeSpec.precision t) as [p|]; [|subst; reflexivity].
    destruct S as [_ S]; rewrite round_float_not_fin in S by exact N.
    congruence.
Qed.

Lemma precision_fin t v r :
  precision_not_negative t -> numeric v ->
  TypeSpec.apply_precision t v = Ok r ->
  is_fin (xnum_of v) -> is_fin (xnum_of r).
Proof.
  intros T V E F; destruct (shape_of v V) as [z H _|f ->].
  - destruct (precision_int t v z T V H) as [[_ E']|E'];
      rewrite E in E'; injection E' as ->; [exact F|].
    eexists _, _; reflexivity.
  - destruct (precision_float t f T) as (g & E' & S).
    rewrite E in E'; injection E' as ->.
    destruct (TypeSpec.precision t) as [p|]; [|subst; exact F].
    destruct S as [P0 S]; exact (round_float_fin f p g P0 F S).
Qed.

(** It is monotone. *)
Lemma precision_mono t a b ra rb :
  precision_not_negative t -> numeric a -> numeric b ->
  is_fin (xnum_of a) -> is_fin (xnum_of b) -> (rv a <= rv b)%R ->
  TypeSpec.apply_precision t a = Ok ra ->
  TypeSpec.apply_precision t b = Ok rb ->
  (rv ra <= rv rb)%R.
Proof.
  intros T Va Vb Fa Fb L Ea Eb.
  destruct (shape_of a Va) as [za Ha _|fa ->],
           (shape_of b Vb) as [zb Hb _|fb ->].
  - assert (rv ra = rv a).
    { destruct (precision_int t a za T Va Ha) as [[_ E]|E];
        rewrite Ea in E; injection E as ->; [reflexivity|].
      rewrite (proj2 (xnum_of_int a za Ha)); apply (xnum_of_int (VInt za)).
      reflexivity. }
    assert (rv rb = rv b).
    { destruct (precision_int t b zb T Vb Hb) as [[_ E]|E];
        rewrite Eb in E; injection E as ->; [reflexivity|].
      rewrite (proj2 (xnum_of_int b zb Hb)); apply (xnum_of_int (VInt zb)).
      reflexivity. }
    lra.
  - assert (Ra : rv ra = rv a).
    { destruct (precision_int t a za T Va Ha) as [[_ E]|E];
        rewrite Ea in E; injection E as ->; [reflexivity|].
      rewrite (proj2 (xnum_of_int a za Ha)); apply (xnum_of_int (VInt za)).
      reflexivity. }
    destruct (precision_float t fb T) as (g & E & S).
    rewrite Eb in E; injection E as ->.
    destruct (TypeSpec.precision t) as [p|]; [|subst; lra].
    destruct S as [P0 S].
    rewrite Ra, (proj2 (xnum_of_int a za Ha)) in *.
    exact (round_float_int_le fb p g za P0 Fb L S).
  - assert (Rb : rv rb = rv b).
    { destruct (precision_int t b zb T Vb Hb) as [[_ E]|E];
        rewrite Eb in E; injection E as ->; [reflexivity|].
      rewrite (proj2 (xnum_of_int b zb Hb)); apply (xnum_of_int (VInt zb)).
      reflexivity. }
    destruct (precision_float t fa T) as (g & E & S).
    rewrite Ea in E; injection E as ->.
    destruct (TypeSpec.precision t) as [p|]; [|subst; lra].
    destruct S as [P0 S].
    rewrite Rb, (proj2 (xnum_of_int b zb Hb)) in *.
    exact (round_float_int_ge fa p g zb P0 Fa L S).
  - destruct (precision_float t fa T) as (ga & E & Sa).
    rewrite Ea in E; injection E as ->.
    destruct (precision_float t fb T) as (gb & E & Sb).
    rewrite Eb in E; injection E as ->.
    destruct (TypeSpec.precision t) as [p|]; [|subst; exact L].
    destruct Sa as [P0 Sa], Sb as [_ Sb].
    exact (round_float_mono fa fb p ga gb P0 Fa Fb L Sa Sb).
Qed.

(** It is idempotent. *)
Lemma precision_idempotent t v r :
  precision_not_negative t -> numeric v ->
  TypeSpec.apply_precision t v = Ok r ->
  TypeSpec.apply_precision t r = Ok r.
Proof.
  intros T V E; destruct (shape_of v V) as [z H _|f ->].
  - destruct (precision_int t v z T V H) as [[N E']|E'];
      rewrite E in E'; injection E' as ->.
    + unfold TypeSpec.apply_precision; rewrite N; reflexivity.
    + destruct (precision_int t (VInt z) z T eq_refl eq_refl) as [[_ X]|X];
        exact X.
  - destruct (precision_float t f T) as (g & E' & S).
    rewrite E in E'; injection E' as ->.
    unfold TypeSpec.apply_precision.
    destruct (TypeSpec.precision t) as [p|]; [|reflexivity].
    destruct S as [P0 S]; simpl.
    rewrite (round_float_idempotent f p g P0 S); reflexivity.
Qed.

(** A number strictly between a number and what the precision step
    makes of it is taken to the same result. *)
Lemma precision_between t c y w :
  precision_not_negative t -> numeric c -> numeric y ->
  is_fin (xnum_of c) -> is_fin (xnum_of y) ->
  TypeSpec.apply_precision t c = Ok w ->
  (rv w < rv y <= rv c \/ rv c <= rv y < rv w)%R ->
  TypeSpec.apply_precision t y = Ok w.
Proof.
  intros T Vc Vy Fc Fy E B.
  pose proof (precision_numeric t c w T Vc E) as Vw.
  pose proof (precision_fin t c w T Vc E Fc) as Fw.
  pose proof (precision_idempotent t c w T Vc E) as Ew.
  destruct (precision_returns t y T Vy) as (ry & Ey & Vry).
  assert (M : (rv w <= rv ry <= rv w)%R).
  { destruct B as [[B1 B2]|[B1 B2]]; split.
    - apply (precision_mono t w y w ry T Vw Vy Fw Fy); [lra|assumption..].
    - apply (precision_mono t y c ry w T Vy Vc Fy Fc); [lra|assumption..].
    - apply (precision_mono t c y w ry T Vc Vy Fc Fy); [lra|assumption..].
    - apply (precision_mono t y w ry w T Vy Vw Fy Fw); [lra|assumption..]. }
  destruct (shape_of y Vy) as [zy Hy _|fy ->].
  - (* an integer is kept by the precision step *)
    exfalso.
    assert (rv ry = rv y).
    { destruct (precision_int t y zy T Vy Hy) as [[_ E']|E'];
        rewrite Ey in E'; injection E' as ->; [reflexivity|].
      rewrite (proj2 (xnum_of_int y zy Hy)); apply (xnum_of_int (VInt zy)).
      reflexivity. }
    destruct B as [B|B]; lra.
  - destruct (shape_of c Vc) as [zc Hc _|fc ->].
    + exfalso.
      assert (rv w = rv c).
      { destruct (precision_int t c zc T Vc Hc) as [[_ E']|E'];
          rewrite E in E'; injection E' as ->; [reflexivity|].
        rewrite (proj2 (xnum_of_int c zc Hc)); apply (xnum_of_int (VInt zc)).
        reflexivity. }
      destruct B as [B|B]; lra.
    + destruct (precision_float t fc T) as (g & E' & S).
      rewrite E in E'; injection E' as ->.
      unfold TypeSpec.apply_precision.
      destruct (TypeSpec.precision t) as [p|];
        [|subst; exfalso; destruct B as [B|B]; lra].
      destruct S as [P0 S]; simpl.
      rewrite (round_float_between fc p g fy P0 Fc Fy S B); reflexivity.
Qed.

(** *** The unit step *)

Lemma py_int_xtrunc v :
  numeric v -> py_int (TypeSpec.num_of v) = xtrunc (xnum_of v).
Proof.
  intros V; destruct (shape_of v V) as [z H _|f ->].
  - unfold xnum_of; rewrite H; simpl; rewrite Z.mul_1_r; reflexivity.
  - reflexivity.
Qed.

Lemma unit_other t v :
  is_eurocent t = false -> TypeSpec.apply_unit t v = Ok v.
Proof.
  unfold is_eurocent, TypeSpec.apply_unit.
  destruct (TypeSpec.unit t) as [u|]; [|reflexivity].
  intros ->; reflexivity.
Qed.

Lemma unit_eurocent t v :
  is_eurocent t = true -> numeric v ->
  TypeSpec.apply_unit t v = (z <- xtrunc (xnum_of v) ;; Ok (VInt z))%outcome.
Proof.
  unfold is_eurocent, TypeSpec.apply_unit.
  destruct (TypeSpec.unit t) as [u|]; [|discriminate].
  intros -> V; rewrite py_int_xtrunc by exact V; reflexivity.
Qed.

Lemma unit_eurocent_fin t v :
  is_eurocent t = true -> numeric v -> is_fin (xnum_of v) ->
  exists z, TypeSpec.apply_unit t v = Ok (VInt z) /\ trunc_of (rv v) z.
Proof.
  intros U V (m & e & F); rewrite (unit_eurocent t v U V).
  unfold rv; rewrite F.
  destruct (xtrunc_spec m e) as (z & E & S).
  exists z; rewrite E; split; [reflexivity|exact S].
Qed.

Lemma unit_eurocent_inv t v w :
  is_eurocent t = true -> numeric v -> TypeSpec.apply_unit t v = Ok w ->
  is_fin (xnum_of v) /\ exists z, w = VInt z /\ trunc_of (rv v) z.
Proof.
  intros U V E; rewrite (unit_eurocent t v U V) in E.
  unfold rv; destruct (xnum_of v) as [|s|m e] eqn:X; try discriminate.
  split; [eexists _, _; reflexivity|].
  destruct (xtrunc_spec m e) as (z & E' & S).
  rewrite E' in E; injection E as <-.
  exists z; split; [reflexivity|exact S].
Qed.

Lemma classic_fin (x : xnum) : is_fin x \/ ~ is_fin x.
Proof.
  destruct x as [|s|m e];
    [right; intros (? & ? & ?); discriminate
    |right; intros (? & ? & ?); discriminate
    |left; eexists _, _; reflexivity].
Qed.

(** *** Precision and unit together *)

Lemma round_and_convert_numeric t v w :
  precision_not_negative t -> numeric v ->
  round_and_convert t v = Ok w -> numeric w.
Proof.
  intros T V E; unfold round_and_convert in E.
  destruct (TypeSpec.apply_precision t v) as [r| | |] eqn:P; try discriminate.
  pose proof (precision_numeric t v r T V P) as Vr.
  cbn [obind] in E.
  destruct (is_eurocent t) eqn:U.
  - destruct (unit_eurocent_inv t r w U Vr E) as (_ & z & -> & _).
    reflexivity.
  - rewrite unit_other in E by exact U; congruence.
Qed.

Lemma round_and_convert_idempotent t v w :
  precision_not_negative t -> numeric v ->
  round_and_convert t v = Ok w -> round_and_convert t w = Ok w.
Proof.
  intros T V E; unfold round_and_convert in *.
  destruct (TypeSpec.apply_precision t v) as [r| | |] eqn:P; try discriminate.
  pose proof (precision_numeric t v r T V P) as Vr.
  cbn [obind] in E.
  destruct (is_eurocent t) eqn:U.
  - destruct (unit_eurocent_inv t r w U Vr E) as (_ & z & -> & _).
    destruct (precision_int t (VInt z) z T eq_refl eq_refl) as [[_ X]|X];
      rewrite X; cbn [obind];
      rewrite (unit_eurocent t (VInt z) U eq_refl); simpl;
      rewrite Z.mul_1_r; reflexivity.
  - rewrite unit_other in E by exact U; injection E as <-.
    rewrite (precision_idempotent t v r T V P); cbn [obind].
    apply unit_other; exact U.
Qed.

(** What is not a number is not made one. *)
Lemma round_and_convert_nan t v w :
  precision_not_negative t -> numeric v ->
  round_and_convert t v = Ok w ->
  xnum_of v = XNaN -> xnum_of w = XNaN.
Proof.
  intros T V E N; unfold round_and_convert in E.
  destruct (TypeSpec.apply_precision t v) as [r| | |] eqn:P; try discriminate.
  pose proof (precision_numeric t v r T V P) as Vr.
  assert (r = v).
  { apply (precision_not_fin t v r T V P).
    rewrite N; intros (m & e & X); discriminate. }
  subst r; cbn [obind] in E.
  destruct (is_eurocent t) eqn:U.
  - destruct (unit_eurocent_inv t v w U V E) as ((m & e & X) & _).
    congruence.
  - rewrite unit_other in E by exact U; congruence.
Qed.

(** [between w y c]: [y] is not [w] and lies from [w] to [c]. *)
Definition between (w y c : xnum) : Prop :=
  (xlt w y /\ xle y c) \/ (xle c y /\ xlt y w).

Lemma between_fin w y c :
  is_fin w -> is_fin c -> between w y c ->
  is_fin y /\ (xval w < xval y <= xval c \/ xval c <= xval y < xval w)%R.
Proof.
  intros Fw Fc B.
  apply is_fin_spec in Fw as [_ Rw], Fc as [_ Rc].
  destruct B as [[L U]|[L U]];
    apply xlt_spec in L || apply xle_spec in L;
    apply xlt_spec in U || apply xle_spec in U.
  - destruct L as (_ & Ny & L), U as (_ & _ & U).
    assert (Ry : rank y = 0) by (destruct L as [?|(_ & ? & _)], U as [?|[? _]]; lia).
    split; [apply is_fin_spec; split; assumption|left].
    destruct L as [?|(_ & _ & L)]; [lia|].
    destruct U as [?|[_ U]]; [lia|specialize (U Ry)]; lra.
  - destruct L as (_ & Ny & L), U as (_ & _ & U).
    assert (Ry : rank y = 0) by (destruct L as [?|[? _]], U as [?|(? & _ & _)]; lia).
    split; [apply is_fin_spec; split; assumption|right].
    destruct U as [?|(_ & _ & U)]; [lia|].
    destruct L as [?|[_ L]]; [lia|specialize (L Rc)]; lra.
Qed.

Lemma between_same w y c : w = c -> ~ between w y c.
Proof.
  intros -> [[L U]|[L U]];
    apply xlt_spec in L || apply xle_spec in L;
    apply xlt_spec in U || apply xle_spec in U;
    destruct L as (_ & _ & L), U as (_ & _ & U).
  - destruct L as [?|(? & ? & L)], U as [?|[? U]]; try lia.
    specialize (U ltac:(lia)); lra.
  - destruct L as [?|[? L]], U as [?|(? & ? & U)]; try lia.
    specialize (L ltac:(lia)); lra.
Qed.

(** A number that is not the result and lies from the result to the
    number it was made of has the same result. *)
Lemma round_and_convert_between t c y w :
  precision_not_negative t -> numeric c -> numeric y ->
  round_and_convert t c = Ok w ->
  between (xnum_of w) (xnum_of y) (xnum_of c) ->
  round_and_convert t y = Ok w.
Proof.
  intros T Vc Vy E B; unfold round_and_convert in *.
  destruct (TypeSpec.apply_precision t c) as [r| | |] eqn:P; try discriminate.
  pose proof (precision_numeric t c r T Vc P) as Vr.
  cbn [obind] in E.
  destruct (is_eurocent t) eqn:U.
  - destruct (unit_eurocent_inv t r w U Vr E) as (Fr & z & -> & Tr).
    assert (Fc : is_fin (xnum_of c)).
    { destruct (classic_fin (xnum_of c)) as [F|N]; [exact F|].
      rewrite <- (precision_not_fin t c r T Vc P N); exact Fr. }
    destruct (between_fin _ _ _ ltac:(eexists _, _; reflexivity) Fc B)
      as [Fy By].
    destruct (precision_returns t y T Vy) as (ry & Py & Vry).
    pose proof (precision_fin t y ry T Vy Py Fy) as Fry.
    destruct (unit_eurocent_fin t ry U Vry Fry) as (zy & Ey & Ty).
    rewrite Py; cbn [obind]; rewrite Ey; do 2 f_equal.
    assert (Pw : TypeSpec.apply_precision t (VInt z) = Ok (VInt z)
                 /\ trunc_of (rv (VInt z)) z).
    { split.
      - destruct (precision_int t (VInt z) z T eq_refl eq_refl) as [[_ X]|X];
          exact X.
      - change (rv (VInt z)) with (fval z 0); rewrite fval_int.
        apply trunc_of_IZR. }
    destruct Pw as [Pw Tw].
    change (xval (XFin z 0)) with (rv (VInt z)) in By.
    change (xval (xnum_of y)) with (rv y) in By.
    change (xval (xnum_of c)) with (rv c) in By.
    assert (Fw : is_fin (xnum_of (VInt z))) by (eexists _, _; reflexivity).
    destruct By as [[B1 B2]|[B1 B2]].
    + assert (z <= zy).
      { apply (trunc_of_mono (rv (VInt z)) (rv ry)); try assumption.
        apply (precision_mono t (VInt z) y (VInt z) ry T eq_refl Vy Fw Fy);
          [lra|assumption..]. }
      assert (zy <= z).
      { apply (trunc_of_mono (rv ry) (rv r)); try assumption.
        apply (precision_mono t y c ry r T Vy Vc Fy Fc);
          [lra|assumption..]. }
      lia.
    + assert (zy <= z).
      { apply (trunc_of_mono (rv ry) (rv (VInt z))); try assumption.
        apply (precision_mono t y (VInt z) ry (VInt z) T Vy eq_refl Fy Fw);
          [lra|assumption..]. }
      assert (z <= zy).
      { apply (trunc_of_mono (rv r) (rv ry)); try assumption.
        apply (precision_mono t c y r ry T Vc Vy Fc Fy);
          [lra|assumption..]. }
      lia.
  - rewrite unit_other in E by exact U; injection E as <-.
    assert (Fc : is_fin (xnum_of c)).
    { destruct (classic_fin (xnum_of c)) as [F|N]; [exact F|].
      exfalso; apply (between_same (xnum_of r) (xnum_of y) (xnum_of c));
        [|exact B].
      rewrite (precision_not_fin t c r T Vc P N); reflexivity. }
    pose proof (precision_fin t c r T Vc P Fc) as Fr.
    destruct (between_fin _ _ _ Fr Fc B) as [Fy By].
    rewrite (precision_between t c y r T Vc Vy Fc Fy P By); cbn [obind].
    apply unit_other; exact U.
Qed.

(** *** The order, continued *)

Lemma xlt_not_nan a b : xlt a b -> a <> XNaN /\ b <> XNaN.
Proof. intros H; apply xlt_spec in H as (A & B & _); split; assumption. Qed.

Lemma xle_refl a : a <> XNaN -> xle a a.
Proof.
  intros A; apply xle_spec; repeat split; try assumption.
  right; split; [reflexivity|intros _; lra].
Qed.

Lemma xle_trans a b c : xle a b -> xle b c -> xle a c.
Proof.
  intros H1 H2; apply xle_spec in H1 as (A & B & H1), H2 as (_ & C & H2).
  apply xle_spec; repeat split; try assumption.
  destruct H1 as [H1|[E1 H1]], H2 as [H2|[E2 H2]];
    [left; lia|left; lia|left; lia|right].
  split; [lia|intros Z; specialize (H1 Z); specialize (H2 ltac:(lia)); lra].
Qed.

Lemma xlt_xle_contra a b : xlt a b -> xle b a -> False.
Proof.
  intros H1 H2; apply xlt_spec in H1 as (_ & _ & H1).
  apply xle_spec in H2 as (_ & _ & H2).
  destruct H1 as [H1|(Z1 & Z2 & H1)], H2 as [H2|[E2 H2]]; try lia.
  specialize (H2 Z2); lra.
Qed.

(** *** The bounds step *)

Lemma num_of_value_of_num n : TypeSpec.num_of (value_of_num n) = n.
Proof. destruct n; reflexivity. Qed.

Lemma numeric_value_of_num n : numeric (value_of_num n).
Proof. destruct n; reflexivity. Qed.

Lemma xnum_of_value_of_num n : xnum_of (value_of_num n) = xnum_of_num n.
Proof. unfold xnum_of; rewrite num_of_value_of_num; reflexivity. Qed.

Lemma num_ltb_false x y :
  num_ltb x y = false ->
  xnum_of_num x <> XNaN -> xnum_of_num y <> XNaN ->
  xle (xnum_of_num y) (xnum_of_num x).
Proof.
  intros H X Y; apply not_xlt; try assumption.
  intros L; apply num_ltb_xlt in L; congruence.
Qed.

(** A missing bound is a bound that no number is beyond. *)
Definition bounds_of (t : TypeSpec.t) : num * num :=
  (match TypeSpec.min t with Some lo => lo | None => NFloat nan end,
   match TypeSpec.max t with Some hi => hi | None => NFloat nan end).

Lemma num_ltb_nan_r x : num_ltb x (NFloat nan) = false.
Proof. unfold num_ltb; simpl; destruct (xnum_of_num x) as [|[]|]; reflexivity. Qed.

Lemma num_ltb_nan_l x : num_ltb (NFloat nan) x = false.
Proof. reflexivity. Qed.

Lemma clamp_bounds t v :
  clamp t v
  = min2 (max2 v (TypeSpec.num_of v) (fst (bounds_of t)))
      (TypeSpec.num_of (max2 v (TypeSpec.num_of v) (fst (bounds_of t))))
      (snd (bounds_of t)).
Proof.
  unfold clamp, TypeSpec.apply_max, TypeSpec.apply_min, bounds_of.
  destruct (TypeSpec.min t) as [lo|], (TypeSpec.max t) as [hi|]; simpl;
    unfold min2, max2; rewrite ?num_ltb_nan_r, ?num_ltb_nan_l; reflexivity.
Qed.

(** What the comparisons with the bounds say. *)
Ltac order_facts :=
  repeat match goal with
         | H : num_ltb ?x ?y = true |- _ =>
             let L := fresh "L" in
             let N := fresh "N" in
             pose proof (proj1 (num_ltb_xlt x y) H) as L;
             pose proof (xlt_not_nan _ _ L) as N;
             destruct N; clear H
         end.

(** The bounds step after the other steps: what it gives has the
    same result as before. *)
Lemma clamp_again t v w :
  precision_not_negative t -> numeric v ->
  round_and_convert t (clamp t v) = Ok w ->
  round_and_convert t (clamp t w) = Ok w.
Proof.
  intros T V E.
  rewrite clamp_bounds in *.
  destruct (bounds_of t) as [lo hi]; cbn [fst snd] in *.
  set (c := min2 _ _ hi) in E.
  assert (Vc : numeric c).
  { unfold c, min2, max2.
    destruct (num_ltb hi _); [apply numeric_value_of_num|].
    destruct (num_ltb _ lo); [apply numeric_value_of_num|exact V]. }
  pose proof (round_and_convert_numeric t c w T Vc E) as Vw.
  pose proof (round_and_convert_idempotent t c w T Vc E) as Idem.
  assert (Nan : xnum_of w <> XNaN -> xnum_of c <> XNaN).
  { intros N C; apply N.
    exact (round_and_convert_nan t c w T Vc E C). }
  assert (Btw : forall y, numeric y ->
                  between (xnum_of w) (xnum_of y) (xnum_of c) ->
                  round_and_convert t y = Ok w).
  { intros y Vy B.
    exact (round_and_convert_between t c y w T Vc Vy E B). }
  subst c; unfold min2, max2 in *.
  destruct (num_ltb (TypeSpec.num_of v) lo) eqn:A1;
    rewrite ?num_of_value_of_num in *;
    destruct (num_ltb hi _) eqn:B1 in E, Nan, Btw, Vc;
    destruct (num_ltb (TypeSpec.num_of w) lo) eqn:C1;
    rewrite ?num_of_value_of_num;
    destruct (num_ltb hi _) eqn:D1 in |- *;
    try exact Idem; try exact E; try congruence;
    rewrite ?xnum_of_value_of_num in *;
    order_facts; unfold xnum_of in *.
  - apply Btw; [apply numeric_value_of_num|].
    rewrite num_of_value_of_num.
    right; split; [apply (num_ltb_false _ _ B1); assumption|assumption].
  - apply Btw; [apply numeric_value_of_num|].
    rewrite num_of_value_of_num.
    left; split; [assumption|apply (num_ltb_false _ _ D1); assumption].
  - exfalso.
    apply (xlt_xle_contra (xnum_of_num hi) (xnum_of_num lo)); [assumption|].
    apply (xle_trans _ (xnum_of_num (TypeSpec.num_of v))).
    + apply (num_ltb_false _ _ A1); auto.
    + apply (num_ltb_false _ _ B1); auto.
  - apply Btw; [apply numeric_value_of_num|].
    rewrite num_of_value_of_num.
    left; split; [assumption|apply (num_ltb_false _ _ A1); auto].
  - apply Btw; [apply numeric_value_of_num|].
    rewrite num_of_value_of_num.
    right; split; [apply (num_ltb_false _ _ B1); auto|assumption].
Qed.

(** *** Enforcing twice *)

(** A number that [enforce] returned is returned as it is. *)
Lemma enforce_numeric_again t v w :
  precision_not_negative t -> numeric v ->
  TypeSpec.enforce_numeric t v = Ok w ->
  numeric w /\ TypeSpec.enforce t w = Ok w.
Proof.
  intros T V E; rewrite enforce_numeric_steps in E.
  assert (Vc : numeric (clamp t v)).
  { rewrite clamp_bounds; unfold min2, max2.
    destruct (num_ltb _ _); [apply numeric_value_of_num|].
    destruct (num_ltb _ _); [apply numeric_value_of_num|exact V]. }
  pose proof (round_and_convert_numeric t _ w T Vc E) as Vw.
  split; [exact Vw|].
  pose proof (clamp_again t v w T V E) as A.
  rewrite <- enforce_numeric_steps in A.
  unfold TypeSpec.enforce.
  destruct w; try discriminate; exact A.
Qed.


(** Euro cents with two decimals from 0 to 100.5. *)
Definition cents_spec : TypeSpec.t :=
  TypeSpec.Build (Some "eurocent") (Some 2) (Some (NInt 0))
    (Some (NFloat 100.5)).

(** Two decimals from 0.125 up. *)
Definition two_decimals_spec : TypeSpec.t :=
  TypeSpec.Build None (Some 2) (Some (NFloat 0.125)) None.


(** Outside the data model, with a negative precision, the second
    application can change the value: [2.0**60] is rounded to tens
    as a float and truncated, and the integer is rounded to tens
    again, exactly. *)
Lemma enforce_with_negative_precision :
  let t := TypeSpec.Build (Some "eurocent") (Some (-1)) None None in
  TypeSpec.enforce t (VFloat 1152921504606846976)
  = Ok (VInt 1152921504606846976)
  /\ TypeSpec.enforce t (VInt 1152921504606846976)
     = Ok (VInt 1152921504606846980).
Proof. split; vm_compute; reflexivity. Qed.

(** ** Running a computation over the context *)

Lemma bind_Ok {A B} (m : M A) (k : A -> M B) c b c' :
  bind m k c = Ok (b, c') ->
  exists a c1, m c = Ok (a, c1) /\ k a c1 = Ok (b, c').
Proof.
  unfold bind; destruct (m c) as [[a c1]| | |]; try discriminate.
  intros H; exists a, c1; split; [reflexivity|assumption].
Qed.

Lemma lift_Ok {A} (o : outcome A) c a c' :
  lift o c = Ok (a, c') -> o = Ok a /\ c' = c.
Proof.
  unfold lift; destruct o; try discriminate.
  intros H; injection H as -> ->; split; reflexivity.
Qed.

Lemma bind_of_Ok {A B} (m : M A) (k : A -> M B) c a c1 :
  m c = Ok (a, c1) -> bind m k c = k a c1.
Proof. unfold bind; intros ->; reflexivity. Qed.

Lemma dict_get_set {A} (k k' : string) (v : A) (d : list (string * A)) :
  dict_get k (dict_set k' v d)
  = if String.eqb k k' then Some v else dict_get k d.
Proof.
  induction d as [|[k0 v0] d IH]; simpl.
  - destruct (String.eqb k k'); reflexivity.
  - destruct (String.eqb k' k0) eqn:E0; simpl.
    + apply String.eqb_eq in E0; subst k0.
      destruct (String.eqb k k'); reflexivity.
    + rewrite IH.
      destruct (String.eqb k k') eqn:E; [|reflexivity].
      apply String.eqb_eq in E; subst k'; rewrite E0; reflexivity.
Qed.

Lemma store_update_length {A} (i : nat) (f : A -> A) (l : list A) :
  List.length (store_update i f l) = List.length l.
Proof.
  revert i; induction l as [|x l IH]; intros [|i]; simpl; try reflexivity.
  rewrite IH; reflexivity.
Qed.

Lemma store_update_nth {A} (i j : nat) (f : A -> A) (l : list A) :
  nth_error (store_update i f l) j
  = if Nat.eqb i j then option_map f (nth_error l j) else nth_error l j.
Proof.
  revert i j; induction l as [|x l IH]; intros [|i] [|j]; simpl;
    try reflexivity.
  - destruct (Nat.eqb i j); reflexivity.
  - apply IH.
Qed.

(** ** How an evaluation changes its context *)

(** The fields an evaluation only reads. *)
Definition same_env (c c' : RuleContext.t) : Prop :=
  RuleContext.definitions c' = RuleContext.definitions c
  /\ RuleContext.service_provider c' = RuleContext.service_provider c
  /\ RuleContext.service_context c' = RuleContext.service_context c
  /\ RuleContext.property_specs c' = RuleContext.property_specs c
  /\ RuleContext.output_specs c' = RuleContext.output_specs c
  /\ RuleContext.sources c' = RuleContext.sources c
  /\ RuleContext.overwrite_input c' = RuleContext.overwrite_input c
  /\ RuleContext.calculation_date c' = RuleContext.calculation_date c.

(** The override found for a path, if the override step completes. *)
Definition override_value (c : RuleContext.t) (path : string)
  : outcome (option val) :=
  (key <- RuleContextOps.service_field_key c path ;;
   Ok (match key with
       | Some k => dict_get k (RuleContext.overwrite_input c)
       | None => None
       end))%outcome.

(** No override, no source entry and no service lookup applies. *)
Definition unresolvable (c : RuleContext.t) (path : string) : Prop :=
  override_value c path = Ok None
  /\ RuleContextOps.source_value c path = Ok None
  /\ RuleContextOps.service_call c path = Ok None.

(** What is unchanged in a trace node while it is an ancestor. *)
Definition core (n : PathNode.t) : string * string * val * dict :=
  (PathNode.type n, PathNode.name n, PathNode.result n, PathNode.details n).

(** [evolves n c c']: [c'] is a later context of the evaluation that
    [c] belongs to.  The read-only fields are the same; a cached value
    stays as it is, and a new cache entry is only made for a path that
    an override, a source or a service resolves; calls are only
    added; nodes are only added, and the nodes below [n] keep their
    type, name, result and details. *)
Definition evolves (n : nat) (c c' : RuleContext.t) : Prop :=
  same_env c c'
  /\ (forall k,
         dict_get k (RuleContext.values_cache c')
         = dict_get k (RuleContext.values_cache c)
         \/ (dict_get k (RuleContext.values_cache c) = None
             /\ ~ unresolvable c k))
  /\ (exists l, RuleContext.calls c' = (RuleContext.calls c ++ l)%list)
  /\ (List.length (RuleContext.nodes c) <= List.length (RuleContext.nodes c'))%nat
  /\ (forall i, (i < n)%nat ->
         option_map core (nth_error (RuleContext.nodes c') i)
         = option_map core (nth_error (RuleContext.nodes c) i)).

Lemma same_env_refl c : same_env c c.
Proof. repeat split. Qed.

Lemma same_env_trans c1 c2 c3 :
  same_env c1 c2 -> same_env c2 c3 -> same_env c1 c3.
Proof.
  unfold same_env; intros H1 H2.
  destruct H1 as (A1 & A2 & A3 & A4 & A5 & A6 & A7 & A8).
  destruct H2 as (B1 & B2 & B3 & B4 & B5 & B6 & B7 & B8).
  repeat split; congruence.
Qed.

Lemma unresolvable_same_env c c' k :
  same_env c c' -> (unresolvable c' k <-> unresolvable c k).
Proof.
  intros (A1 & A2 & A3 & A4 & A5 & A6 & A7 & A8).
  unfold unresolvable, override_value, RuleContextOps.service_field_key,
    RuleContextOps.source_value, RuleContextOps.service_call.
  rewrite A2, A3, A4, A6, A7; tauto.
Qed.

Lemma evolves_refl n c : evolves n c c.
Proof.
  split; [apply same_env_refl|].
  split; [intros k; left; reflexivity|].
  split; [exists []; rewrite app_nil_r; reflexivity|].
  split; [apply Nat.le_refl|reflexivity].
Qed.

Lemma evolves_trans n c1 c2 c3 :
  evolves n c1 c2 -> evolves n c2 c3 -> evolves n c1 c3.
Proof.
  intros (E1 & C1 & [l1 L1] & N1 & F1) (E2 & C2 & [l2 L2] & N2 & F2).
  split; [eapply same_env_trans; eassumption|].
  split.
  { intros k; destruct (C2 k) as [H2|[H2 U2]]; destruct (C1 k) as [H1|[H1 U1]].
    - left; congruence.
    - right; split; assumption.
    - right; split; [congruence|].
      intros U; apply U2; apply (unresolvable_same_env _ _ k E1); exact U.
    - right; split; assumption. }
  split; [exists (l1 ++ l2)%list; rewrite L2, L1, <- app_assoc; reflexivity|].
  split; [eapply Nat.le_trans; eassumption|].
  intros i Hi; rewrite F2, F1 by assumption; reflexivity.
Qed.

Lemma evolves_weaken n m c c' :
  (m <= n)%nat -> evolves n c c' -> evolves m c c'.
Proof.
  intros Hm (E & C & L & N & F).
  repeat (split; [assumption|]).
  intros i Hi; apply F; lia.
Qed.

(** [m] only moves a context with at least [n] nodes to a later one. *)
Definition evolving {A} (n : nat) (m : M A) : Prop :=
  forall c a c',
    (n <= List.length (RuleContext.nodes c))%nat ->
    m c = Ok (a, c') -> evolves n c c'.

Lemma evolving_ret {A} n (a : A) : evolving n (ret a).
Proof.
  intros c a' c' _ H; injection H as _ <-; apply evolves_refl.
Qed.

Lemma evolving_lift {A} n (o : outcome A) : evolving n (lift o).
Proof.
  intros c a c' _ H; apply lift_Ok in H as [_ ->]; apply evolves_refl.
Qed.

Lemma evolving_get_context n : evolving n get_context.
Proof.
  intros c a c' _ H; injection H as _ <-; apply evolves_refl.
Qed.

Lemma evolving_bind {A B} n (m : M A) (k : A -> M B) :
  evolving n m -> (forall a, evolving n (k a)) -> evolving n (bind m k).
Proof.
  intros Hm Hk c b c' Hn H.
  apply bind_Ok in H as (a & c1 & H1 & H2).
  pose proof (Hm _ _ _ Hn H1) as E1.
  eapply evolves_trans; [exact E1|].
  eapply Hk; [|exact H2].
  destruct E1 as (_ & _ & _ & N & _); lia.
Qed.

(** *** The primitive steps *)

Lemma evolves_unchanged n c c' :
  same_env c c' ->
  RuleContext.values_cache c' = RuleContext.values_cache c ->
  RuleContext.calls c' = RuleContext.calls c ->
  RuleContext.nodes c' = RuleContext.nodes c ->
  evolves n c c'.
Proof.
  intros E C L N.
  split; [assumption|].
  split; [intros k; left; rewrite C; reflexivity|].
  split; [exists []; rewrite app_nil_r; assumption|].
  rewrite N; split; [apply Nat.le_refl|reflexivity].
Qed.

Lemma evolves_with_nodes n c ns :
  (List.length (RuleContext.nodes c) <= List.length ns)%nat ->
  (forall i, (i < n)%nat ->
     option_map core (nth_error ns i)
     = option_map core (nth_error (RuleContext.nodes c) i)) ->
  evolves n c (RuleContext.with_nodes ns c).
Proof.
  intros N F.
  split; [repeat split|].
  split; [intros k; left; reflexivity|].
  split; [exists []; rewrite app_nil_r; reflexivity|].
  split; assumption.
Qed.

Lemma evolving_modify n (f : RuleContext.t -> RuleContext.t) :
  (forall c, (n <= List.length (RuleContext.nodes c))%nat -> evolves n c (f c)) ->
  evolving n (modify f).
Proof.
  intros Hf c a c' Hn H; injection H as _ <-; apply Hf; assumption.
Qed.

Lemma evolving_track_access n path :
  evolving n (RuleContextOps.track_access path).
Proof.
  apply evolving_modify; intros c _.
  destruct (existsb (String.eqb path) (RuleContext.accessed_paths c));
    [apply evolves_refl|].
  apply evolves_unchanged; try reflexivity; repeat split.
Qed.

Lemma evolving_pop_path n : evolving n RuleContextOps.pop_path.
Proof.
  apply evolving_modify; intros c _.
  apply evolves_unchanged; try reflexivity; repeat split.
Qed.

Lemma core_store_update (i : nat) (f : PathNode.t -> PathNode.t)
    (l : list PathNode.t) (j : nat) :
  (i = j -> forall x, core (f x) = core x) ->
  option_map core (nth_error (store_update i f l) j)
  = option_map core (nth_error l j).
Proof.
  intros Hf; rewrite store_update_nth.
  destruct (Nat.eqb_spec i j) as [E|E]; [|reflexivity].
  destruct (nth_error l j); simpl; [|reflexivity].
  rewrite (Hf E); reflexivity.
Qed.

Lemma evolving_set_result n id r :
  (n <= id)%nat -> evolving n (RuleContextOps.set_result id r).
Proof.
  intros Hid; apply evolving_modify; intros c _.
  apply evolves_with_nodes.
  - rewrite store_update_length; apply Nat.le_refl.
  - intros i Hi; apply core_store_update; intros E; lia.
Qed.

Lemma evolving_update_details n id d :
  (n <= id)%nat -> evolving n (RuleContextOps.update_details id d).
Proof.
  intros Hid; apply evolving_modify; intros c _.
  apply evolves_with_nodes.
  - rewrite store_update_length; apply Nat.le_refl.
  - intros i Hi; apply core_store_update; intros E; lia.
Qed.

Lemma evolving_append_condition_result n id d :
  (n <= id)%nat -> evolving n (append_condition_result id d).
Proof.
  intros Hid; apply evolving_modify; intros c _.
  apply evolves_with_nodes.
  - rewrite store_update_length; apply Nat.le_refl.
  - intros i Hi; apply core_store_update; intros E; lia.
Qed.

(** The node [add_to_path] creates has the next index; the nodes
    before it keep all but their children. *)
Lemma add_to_path_Ok node c id c' :
  RuleContextOps.add_to_path node c = Ok (id, c') ->
  id = List.length (RuleContext.nodes c)
  /\ List.length (RuleContext.nodes c') = S id
  /\ nth_error (RuleContext.nodes c') id = Some node
  /\ forall n, (n <= id)%nat -> evolves n c c'.
Proof.
  unfold RuleContextOps.add_to_path; intros H; injection H as <- <-.
  set (ns := match last (map Some (RuleContext.path c)) None with
             | Some top =>
                 store_update top
                   (PathNode.add_child (List.length (RuleContext.nodes c)))
                   (RuleContext.nodes c)
             | None => RuleContext.nodes c
             end).
  assert (Hlen : List.length ns = List.length (RuleContext.nodes c)).
  { unfold ns; destruct (last _ _); [apply store_update_length|reflexivity]. }
  assert (Hcore : forall i, option_map core (nth_error ns i)
                            = option_map core (nth_error (RuleContext.nodes c) i)).
  { intros i; unfold ns; destruct (last _ _); [|reflexivity].
    apply core_store_update; intros _ x; reflexivity. }
  split; [reflexivity|].
  split; [simpl; rewrite length_app, Hlen; simpl; lia|].
  split.
  { simpl; rewrite nth_error_app2 by (rewrite Hlen; apply Nat.le_refl).
    rewrite Hlen, Nat.sub_diag; reflexivity. }
  intros n Hn.
  split; [repeat split|].
  split; [intros k; left; reflexivity|].
  split; [exists []; rewrite app_nil_r; reflexivity|].
  split; [simpl; rewrite length_app, Hlen; simpl; lia|].
  intros i Hi; simpl.
  rewrite nth_error_app1 by lia; apply Hcore.
Qed.

Lemma evolving_add_to_path {B} n node (k : nat -> M B) :
  (forall id, (n <= id)%nat -> evolving n (k id)) ->
  evolving n (bind (RuleContextOps.add_to_path node) k).
Proof.
  intros Hk c b c' Hn H.
  apply bind_Ok in H as (id & c1 & H1 & H2).
  apply add_to_path_Ok in H1 as (Hid & Hlen & _ & E).
  eapply evolves_trans; [apply E; lia|].
  eapply Hk; [|rewrite Hlen|exact H2]; lia.
Qed.

(** *** resolve_value, step by step *)

(** The context once [track_access] has run. *)
Definition tracked (path : string) (c : RuleContext.t) : RuleContext.t :=
  if existsb (String.eqb path) (RuleContext.accessed_paths c) then c
  else RuleContext.with_accessed_paths
         (RuleContext.accessed_paths c ++ [path]) c.

(** The context once [values_cache[path] = value] has run. *)
Definition cached (path : string) (value : val) (c : RuleContext.t)
  : RuleContext.t :=
  RuleContext.with_values_cache
    (dict_set path value (RuleContext.values_cache c)) c.

Definition fail_as {A B} (o : outcome A) : outcome B :=
  match o with
  | Ok _ => Unmodelled
  | Raise e => Raise e
  | Unmodelled => Unmodelled
  | OutOfFuel => OutOfFuel
  end.

(** What [resolve_value] does on the reference [$path], written as one
    decision list. *)
Definition resolve_reference (path : string) (c : RuleContext.t)
  : outcome (val * RuleContext.t) :=
  let c0 := tracked path c in
  if String.eqb path "calculation_date"
  then Ok (RuleContext.calculation_date c, c0)
  else
    match dict_get path (RuleContext.definitions c) with
    | Some v => Ok (v, c0)
    | None =>
    match dict_get path (RuleContext.values_cache c) with
    | Some v => Ok (v, c0)
    | None =>
    match override_value c path with
    | Ok (Some v) => Ok (v, cached path v c0)
    | Ok None =>
        match RuleContextOps.source_value c path with
        | Ok (Some v) => Ok (v, cached path v c0)
        | Ok None =>
            match RuleContextOps.service_call c path with
            | Ok (Some (p, call)) =>
                match p (RuleContext.calls c) call with
                | Ok v =>
                    Ok (v, cached path v
                             (RuleContext.with_calls
                                (RuleContext.calls c ++ [call]) c0))
                | o => fail_as o
                end
            | Ok None => Ok (VNone, c0)
            | o => fail_as o
            end
        | o => fail_as o
        end
    | o => fail_as o
    end
    end
    end.

Lemma tracked_env path c :
  same_env c (tracked path c)
  /\ RuleContext.values_cache (tracked path c) = RuleContext.values_cache c
  /\ RuleContext.calls (tracked path c) = RuleContext.calls c
  /\ RuleContext.nodes (tracked path c) = RuleContext.nodes c.
Proof.
  unfold tracked; destruct (existsb _ _); repeat split.
Qed.

Lemma steps_tracked path p c :
  RuleContextOps.service_field_key (tracked p c) path
  = RuleContextOps.service_field_key c path
  /\ RuleContextOps.source_value (tracked p c) path
     = RuleContextOps.source_value c path
  /\ RuleContextOps.service_call (tracked p c) path
     = RuleContextOps.service_call c path.
Proof.
  unfold tracked; destruct (existsb _ _); repeat split.
Qed.

Lemma resolve_value_reference path c :
  RuleContextOps.resolve_value (VStr (String "$" path)) c
  = resolve_reference path c.
Proof.
  unfold RuleContextOps.resolve_value, resolve_reference.
  unfold bind at 1; unfold RuleContextOps.track_access, modify.
  fold (tracked path c).
  unfold bind at 1; unfold get_context.
  destruct (tracked_env path c) as ((D & P & SC & PS & OS & S & OI & CD) & VC & CL & N).
  destruct (steps_tracked path path c) as (K1 & K2 & K3).
  destruct (String.eqb path "calculation_date");
    [unfold ret; rewrite CD; reflexivity|].
  rewrite D, VC.
  destruct (dict_get path (RuleContext.definitions c)); [reflexivity|].
  destruct (dict_get path (RuleContext.values_cache c)); [reflexivity|].
  unfold override_value.
  unfold bind at 1; unfold lift at 1; rewrite K1.
  destruct (RuleContextOps.service_field_key c path) as [key| | |]; simpl;
    try reflexivity.
  rewrite OI.
  destruct (match key with
            | Some k => dict_get k (RuleContext.overwrite_input c)
            | None => None
            end) as [v|]; [reflexivity|].
  unfold bind at 1; unfold lift at 1; rewrite K2.
  destruct (RuleContextOps.source_value c path) as [[v|]| | |]; simpl;
    try reflexivity.
  unfold bind at 1; unfold lift at 1; rewrite K3.
  destruct (RuleContextOps.service_call c path) as [[[p call]|]| | |]; simpl;
    try reflexivity.
  unfold bind at 1; unfold RuleContextOps.get_value; rewrite CL.
  destruct (p (RuleContext.calls c) call); reflexivity.
Qed.

Lemma resolve_value_other (v : val) :
  (forall path, v <> VStr (String "$" path)) ->
  RuleContextOps.resolve_value v = ret v.
Proof.
  intros Hv; destruct v; try reflexivity.
  destruct s as [|ch s]; [reflexivity|].
  destruct (Ascii.eqb_spec ch "$") as [->|N];
    [exfalso; apply (Hv s); reflexivity|].
  destruct ch as [[] [] [] [] [] [] [] []]; try reflexivity.
  exfalso; apply N; reflexivity.
Qed.

Lemma reference_dec (v : val) :
  {path | v = VStr (String "$" path)}
  + {forall path, v <> VStr (String "$" path)}.
Proof.
  destruct v as [| | | |s| |]; try (right; intros p; discriminate).
  destruct s as [|ch s]; [right; intros p; discriminate|].
  destruct (Ascii.eqb_spec ch "$") as [->|N].
  - left; exists s; reflexivity.
  - right; intros p H; apply N; congruence.
Qed.

Lemma steps_same_env c c' path :
  same_env c c' ->
  override_value c' path = override_value c path
  /\ RuleContextOps.source_value c' path = RuleContextOps.source_value c path
  /\ RuleContextOps.service_call c' path = RuleContextOps.service_call c path.
Proof.
  intros (A1 & A2 & A3 & A4 & A5 & A6 & A7 & A8).
  unfold override_value, RuleContextOps.service_field_key,
    RuleContextOps.source_value, RuleContextOps.service_call.
  rewrite A2, A3, A4, A6, A7; repeat split.
Qed.

Lemma evolves_tracked n path c : evolves n c (tracked path c).
Proof.
  destruct (tracked_env path c) as (E & VC & CL & N).
  apply evolves_unchanged; assumption.
Qed.

Lemma evolves_cached n path v c calls' :
  dict_get path (RuleContext.values_cache c) = None ->
  ~ unresolvable c path ->
  (exists l, calls' = (RuleContext.calls c ++ l)%list) ->
  evolves n c
    (cached path v (RuleContext.with_calls calls' (tracked path c))).
Proof.
  intros Hc Hu Hl.
  destruct (tracked_env path c) as (E & VC & CL & N).
  split; [destruct E as (A1 & A2 & A3 & A4 & A5 & A6 & A7 & A8);
          repeat split; assumption|].
  split.
  { intros k; simpl; rewrite VC, dict_get_set.
    destruct (String.eqb_spec k path) as [->|Hk]; [right|left; reflexivity].
    split; assumption. }
  split; [exact Hl|].
  simpl; rewrite N; split; [apply Nat.le_refl|reflexivity].
Qed.

Lemma with_calls_same c :
  RuleContext.with_calls (RuleContext.calls c) c = c.
Proof. destruct c; reflexivity. Qed.

Lemma evolving_resolve_value n (v : val) :
  evolving n (RuleContextOps.resolve_value v).
Proof.
  intros c a c' Hn H.
  destruct (reference_dec v) as [[path ->]|Hv].
  2:{ rewrite (resolve_value_other v Hv) in H.
      injection H as _ <-; apply evolves_refl. }
  rewrite resolve_value_reference in H; unfold resolve_reference in H.
  destruct (String.eqb path "calculation_date");
    [injection H as _ <-; apply evolves_tracked|].
  destruct (dict_get path (RuleContext.definitions c));
    [injection H as _ <-; apply evolves_tracked|].
  destruct (dict_get path (RuleContext.values_cache c)) eqn:Hc;
    [injection H as _ <-; apply evolves_tracked|].
  destruct (override_value c path) as [[ov|]| | |] eqn:Ho; try discriminate.
  { injection H as _ <-.
    rewrite <- (with_calls_same (tracked path c)).
    apply evolves_cached; [assumption| |].
    - intros (U & _); congruence.
    - exists []; rewrite app_nil_r.
      destruct (tracked_env path c) as (_ & _ & CL & _); exact CL. }
  destruct (RuleContextOps.source_value c path) as [[sv|]| | |] eqn:Hs;
    try discriminate.
  { injection H as _ <-.
    rewrite <- (with_calls_same (tracked path c)).
    apply evolves_cached; [assumption| |].
    - intros (_ & U & _); congruence.
    - exists []; rewrite app_nil_r.
      destruct (tracked_env path c) as (_ & _ & CL & _); exact CL. }
  destruct (RuleContextOps.service_call c path) as [[[p call]|]| | |] eqn:Hp;
    try discriminate.
  - destruct (p (RuleContext.calls c) call) eqn:Hcall; try discriminate.
    injection H as _ <-.
    apply evolves_cached; [assumption| |].
    + intros (_ & _ & U); congruence.
    + exists [call]; reflexivity.
  - injection H as _ <-; apply evolves_tracked.
Qed.

(** *** The interpreter *)

Lemma evolving_mapM {A B} n (f : A -> M B) (l : list A) :
  (forall x, evolving n (f x)) -> evolving n (mapM f l).
Proof.
  intros Hf; induction l as [|x l IH]; simpl.
  - apply evolving_ret.
  - apply evolving_bind; [apply Hf|intros y].
    apply evolving_bind; [apply IH|intros ys].
    apply evolving_ret.
Qed.

(** Walks through a computation built from the steps above. *)
Ltac evolving_step :=
  match goal with
  | |- evolving _ (ret _) => apply evolving_ret
  | |- evolving _ (lift _) => apply evolving_lift
  | |- evolving _ get_context => apply evolving_get_context
  | |- evolving _ RuleContextOps.pop_path => apply evolving_pop_path
  | |- evolving _ (RuleContextOps.resolve_value _) =>
      apply evolving_resolve_value
  | |- evolving _ (RuleContextOps.set_result _ _) =>
      apply evolving_set_result; assumption
  | |- evolving _ (RuleContextOps.update_details _ _) =>
      apply evolving_update_details; assumption
  | |- evolving _ (append_condition_result _ _) =>
      apply evolving_append_condition_result; assumption
  | |- evolving _ (bind (RuleContextOps.add_to_path _) _) =>
      apply evolving_add_to_path; intros ? ?
  | |- evolving _ (bind _ _) => apply evolving_bind; [|intros ?]
  | |- evolving _ (mapM _ _) => apply evolving_mapM; intros ?
  | |- evolving _ (if ?b then _ else _) => destruct b
  | |- evolving _ (match ?x with _ => _ end) => destruct x
  | |- evolving _ (let '(_, _) := ?x in _) => destruct x
  | H : forall op n, evolving n (?f op) |- evolving _ (?f _) => apply H
  | H : forall r n, evolving n (?f r) |- evolving _ (?f _) => apply H
  end.

Section EvolvingInterpreter.
Variable evaluate_operation : val -> M val.
Hypothesis evolving_operation :
  forall op n, evolving n (evaluate_operation op).

Lemma evolving_evaluate_value_with n value :
  evolving n (evaluate_value_with evaluate_operation value).
Proof.
  unfold evaluate_value_with; repeat evolving_step.
Qed.

Lemma evolving_if_conditions n id i conditions result :
  (n <= id)%nat ->
  evolving n (if_conditions evaluate_operation id i conditions result).
Proof.
  intros Hid; revert i result.
  induction conditions as [|condition r IH]; intros i result; simpl.
  - apply evolving_ret.
  - repeat first [ apply IH
                 | apply evolving_evaluate_value_with
                 | evolving_step ].
Qed.

Lemma evolving_evaluate_if_operation_with n operation :
  evolving n (evaluate_if_operation_with evaluate_operation operation).
Proof.
  unfold evaluate_if_operation_with.
  repeat first [ apply evolving_if_conditions; assumption | evolving_step ].
Qed.

Lemma evolving_evaluate_operation_body n operation :
  evolving n (evaluate_operation_body evaluate_operation operation).
Proof.
  unfold evaluate_operation_body.
  destruct operation;
    repeat first [ apply evolving_evaluate_value_with
                 | apply evolving_evaluate_if_operation_with
                 | evolving_step ].
Qed.
End EvolvingInterpreter.

Lemma evolving_evaluate_operation fuel :
  forall op n, evolving n (_evaluate_operation fuel op).
Proof.
  induction fuel as [|fuel IH]; intros op n; simpl.
  - intros c a c' _ H; discriminate.
  - apply evolving_evaluate_operation_body; exact IH.
Qed.

Lemma evolving_evaluate_value fuel value n :
  evolving n (_evaluate_value fuel value).
Proof.
  apply evolving_evaluate_value_with, evolving_evaluate_operation.
Qed.

Section EvolvingRequirements.
Variable evaluate_requirements : val -> M bool.
Variable evaluate_operation : val -> M val.
Hypothesis evolving_requirements :
  forall r n, evolving n (evaluate_requirements r).
Hypothesis evolving_operation :
  forall op n, evolving n (evaluate_operation op).

Lemma evolving_requirement_step n req :
  evolving n (requirement_step evaluate_requirements evaluate_operation req).
Proof.
  unfold requirement_step; repeat evolving_step.
Qed.

Lemma evolving_requirements_loop n requirements :
  evolving n
    (requirements_loop evaluate_requirements evaluate_operation requirements).
Proof.
  induction requirements as [|req r IH]; simpl.
  - apply evolving_ret.
  - apply evolving_bind; [apply evolving_requirement_step|intros result].
    destruct (negb (truthy result)); [apply evolving_ret|apply IH].
Qed.

Lemma evolving_evaluate_requirements_body n requirements :
  evolving n
    (evaluate_requirements_body evaluate_requirements evaluate_operation
       requirements).
Proof.
  unfold evaluate_requirements_body.
  repeat first [ apply evolving_requirements_loop | evolving_step ].
Qed.
End EvolvingRequirements.

Lemma evolving_evaluate_requirements fuel :
  forall requirements n,
    evolving n (_evaluate_requirements fuel requirements).
Proof.
  induction fuel as [|fuel IH]; intros requirements n; simpl.
  - intros c a c' _ H; discriminate.
  - apply evolving_evaluate_requirements_body;
      [exact IH|apply evolving_evaluate_operation].
Qed.

Lemma evolving_evaluate_action self fuel action n :
  evolving n (_evaluate_action self fuel action).
Proof.
  unfold _evaluate_action.
  repeat first [ apply evolving_evaluate_value
               | apply evolving_evaluate_operation
               | evolving_step ].
Qed.

Lemma evolving_actions_loop self fuel requested_output actions n :
  forall output_values,
    evolving n (actions_loop self fuel requested_output actions output_values).
Proof.
  induction actions as [|action r IH]; intros output_values; simpl.
  - apply evolving_ret.
  - repeat first [ apply IH | apply evolving_evaluate_action | evolving_step ].
Qed.

(** ** The values cache *)

Lemma resolve_reference_again path c v c1 c2 :
  resolve_reference path c = Ok (v, c1) ->
  evolves 0 c1 c2 ->
  resolve_reference path c2 = Ok (v, tracked path c2).
Proof.
  intros H E12.
  assert (E01 : evolves 0 c c1).
  { apply (evolving_resolve_value 0 (VStr (String "$" path)) c v c1);
      [apply Nat.le_0_l|].
    rewrite resolve_value_reference; exact H. }
  pose proof (evolves_trans _ _ _ _ E01 E12) as E02.
  destruct E02 as (Env & _).
  destruct (steps_same_env c c2 path Env) as (SO & SS & SP).
  destruct Env as (D & _ & _ & _ & _ & _ & _ & CD).
  destruct E12 as (_ & C12 & _).
  unfold resolve_reference in *.
  rewrite D, CD, SO, SS, SP.
  destruct (String.eqb path "calculation_date");
    [injection H as <- _; reflexivity|].
  destruct (dict_get path (RuleContext.definitions c));
    [injection H as <- _; reflexivity|].
  assert (Hhit : forall w,
             dict_get path (RuleContext.values_cache c1) = Some w ->
             dict_get path (RuleContext.values_cache c2) = Some w).
  { intros w Hw; destruct (C12 path) as [->|[Hn _]]; congruence. }
  assert (Hset : forall w c0,
             dict_get path (RuleContext.values_cache (cached path w c0))
             = Some w).
  { intros w c0; simpl; rewrite dict_get_set, String.eqb_refl; reflexivity. }
  destruct (dict_get path (RuleContext.values_cache c)) as [w|] eqn:Hc.
  { injection H as <- <-.
    rewrite (Hhit w); [reflexivity|].
    destruct (tracked_env path c) as (_ & -> & _); exact Hc. }
  destruct (override_value c path) as [[ov|]| | |] eqn:Ho; try discriminate.
  { injection H as <- <-; rewrite (Hhit ov (Hset _ _)); reflexivity. }
  destruct (RuleContextOps.source_value c path) as [[sv|]| | |] eqn:Hs;
    try discriminate.
  { injection H as <- <-; rewrite (Hhit sv (Hset _ _)); reflexivity. }
  destruct (RuleContextOps.service_call c path) as [[[p call]|]| | |] eqn:Hp;
    try discriminate.
  - destruct (p (RuleContext.calls c) call) as [pv| | |] eqn:Hcall;
      try discriminate.
    injection H as <- <-; rewrite (Hhit pv (Hset _ _)); reflexivity.
  - injection H as <- <-.
    destruct (C12 path) as [Hk|[_ Hu]].
    + rewrite Hk.
      destruct (tracked_env path c) as (_ & -> & _); rewrite Hc; reflexivity.
    + exfalso; apply Hu.
      apply (unresolvable_same_env c (tracked path c) path);
        [apply (tracked_env path c)|].
      repeat split; assumption.
Qed.

(** C8 — within one evaluation the values cache is write-once per
    path.  Every step of an evaluation takes the context to a later
    one ([evolves]): a cached value is never replaced.  When a
    reference has been resolved to a value, resolving it again in any
    later context of the evaluation returns that same value, makes no
    call to the ServiceProvider and writes nothing to the cache. *)
Theorem values_cache_write_once :
  (forall v c x c',
      RuleContextOps.resolve_value v c = Ok (x, c') -> evolves 0 c c')
  /\ (forall fuel op c x c',
         _evaluate_operation fuel op c = Ok (x, c') -> evolves 0 c c')
  /\ (forall fuel value c x c',
         _evaluate_value fuel value c = Ok (x, c') -> evolves 0 c c')
  /\ (forall fuel requirements c x c',
         _evaluate_requirements fuel requirements c = Ok (x, c') ->
         evolves 0 c c')
  /\ (forall self fuel action c x c',
         _evaluate_action self fuel action c = Ok (x, c') -> evolves 0 c c')
  /\ (forall c c' path value,
         evolves 0 c c' ->
         dict_get path (RuleContext.values_cache c) = Some value ->
         dict_get path (RuleContext.values_cache c') = Some value)
  /\ (forall path c value c1 c2,
         RuleContextOps.resolve_value (VStr (String "$" path)) c
         = Ok (value, c1) ->
         evolves 0 c1 c2 ->
         exists c3,
           RuleContextOps.resolve_value (VStr (String "$" path)) c2
           = Ok (value, c3)
           /\ RuleContext.calls c3 = RuleContext.calls c2
           /\ RuleContext.values_cache c3 = RuleContext.values_cache c2).
Proof.
  split; [intros v c x c'; apply evolving_resolve_value, Nat.le_0_l|].
  split; [intros fuel op c x c'; apply evolving_evaluate_operation,
          Nat.le_0_l|].
  split; [intros fuel value c x c'; apply evolving_evaluate_value,
          Nat.le_0_l|].
  split; [intros fuel r c x c'; apply evolving_evaluate_requirements,
          Nat.le_0_l|].
  split; [intros self fuel a c x c'; apply evolving_evaluate_action,
          Nat.le_0_l|].
  split.
  { intros c c' path value (_ & C & _) H.
    destruct (C path) as [->|[Hn _]]; congruence. }
  intros path c value c1 c2 H E.
  rewrite resolve_value_reference in H.
  exists (tracked path c2).
  rewrite resolve_value_reference.
  split; [eapply resolve_reference_again; eassumption|].
  destruct (tracked_env path c2) as (_ & VC & CL & _); split; assumption.
Qed.

(** ** The order in which a reference is resolved *)

(** The property [path] has a service reference whose override key
    [@service.field] is among the caller's overrides, with value [v]. *)
Definition has_override (c : RuleContext.t) (path : string) (v : val) : Prop :=
  exists spec sref s f,
    dict_get path (RuleContext.property_specs c) = Some spec
    /\ dict_get "service_reference" spec = Some (VDict sref)
    /\ dict_get "service" sref = Some (VStr s)
    /\ dict_get "field" sref = Some (VStr f)
    /\ dict_get ("@" ++ s ++ "." ++ f)%string (RuleContext.overwrite_input c)
       = Some v.

(** The property [path] has a source reference whose table and field
    are among the sources, with value [v]. *)
Definition has_source (c : RuleContext.t) (path : string) (v : val) : Prop :=
  exists spec sref t f srcs tbl,
    dict_get path (RuleContext.property_specs c) = Some spec
    /\ dict_get "source_reference" spec = Some (VDict sref)
    /\ dict_get "table" sref = Some (VStr t)
    /\ dict_get "field" sref = Some (VStr f)
    /\ RuleContext.sources c = Some srcs
    /\ dict_get t srcs = Some tbl
    /\ dict_get f tbl = Some v.

(** The property [path] has a service reference and a provider [p] is
    configured; [call] is the lookup it stands for. *)
Definition has_service (c : RuleContext.t) (path : string)
    (p : AbstractServiceProvider) (call : ServiceCall.t) : Prop :=
  exists spec sref s l f t,
    dict_get path (RuleContext.property_specs c) = Some spec
    /\ dict_get "service_reference" spec = Some (VDict sref)
    /\ dict_get "service" sref = Some s
    /\ dict_get "law" sref = Some l
    /\ dict_get "field" sref = Some f
    /\ dict_get "temporal" spec = Some t
    /\ RuleContext.service_provider c = Some p
    /\ call = ServiceCall.Build s l f t (RuleContext.service_context c)
                (RuleContext.overwrite_input c).

(** Not the calculation date, not a definition, not yet cached. *)
Definition not_yet_known (c : RuleContext.t) (path : string) : Prop :=
  path <> "calculation_date"
  /\ dict_get path (RuleContext.definitions c) = None
  /\ dict_get path (RuleContext.values_cache c) = None.

Lemma truthy_dict_with (k : string) (v : val) (d : dict) :
  dict_get k d = Some v -> truthy (VDict d) = true.
Proof. destruct d; [discriminate|reflexivity]. Qed.

Lemma has_override_value c path v :
  has_override c path v -> override_value c path = Ok (Some v).
Proof.
  intros (spec & sref & s & f & H1 & H2 & H3 & H4 & H5).
  unfold override_value, RuleContextOps.service_field_key,
    RuleContextOps.service_field_key_of.
  rewrite H1, H2, (truthy_dict_with _ _ _ H3); unfold py_getitem.
  rewrite H3, H4; cbn [obind py_str]; rewrite H5; reflexivity.
Qed.

Lemma has_source_value c path v :
  has_source c path v -> RuleContextOps.source_value c path = Ok (Some v).
Proof.
  intros (spec & sref & t & f & srcs & tbl & H1 & H2 & H3 & H4 & H5 & H6 & H7).
  unfold RuleContextOps.source_value.
  rewrite H1, H2, H5.
  destruct srcs as [|s0 srcs]; [discriminate|].
  rewrite (truthy_dict_with _ _ _ H3); unfold py_get.
  rewrite H3, H4; cbn [obind py_in_table].
  unfold dict_mem at 1; rewrite H6; cbn [obind].
  unfold dict_mem; rewrite H7; reflexivity.
Qed.

Lemma has_service_call c path p call :
  has_service c path p call ->
  RuleContextOps.service_call c path = Ok (Some (p, call)).
Proof.
  intros (spec & sref & s & l & f & t & H1 & H2 & H3 & H4 & H5 & H6 & H7 & ->).
  unfold RuleContextOps.service_call.
  rewrite H1, H2, H7, (truthy_dict_with _ _ _ H3); simpl.
  rewrite H3, H5, H4, H6; reflexivity.
Qed.

Lemma resolve_not_yet_known c path :
  not_yet_known c path ->
  resolve_reference path c =
  match override_value c path with
  | Ok (Some v) => Ok (v, cached path v (tracked path c))
  | Ok None =>
      match RuleContextOps.source_value c path with
      | Ok (Some v) => Ok (v, cached path v (tracked path c))
      | Ok None =>
          match RuleContextOps.service_call c path with
          | Ok (Some (p, call)) =>
              match p (RuleContext.calls c) call with
              | Ok v =>
                  Ok (v, cached path v
                           (RuleContext.with_calls
                              (RuleContext.calls c ++ [call])
                              (tracked path c)))
              | o => fail_as o
              end
          | Ok None => Ok (VNone, tracked path c)
          | o => fail_as o
          end
      | o => fail_as o
      end
  | o => fail_as o
  end.
Proof.
  intros (Hcd & Hd & Hc); unfold resolve_reference.
  rewrite (proj2 (String.eqb_neq _ _) Hcd), Hd, Hc; reflexivity.
Qed.

(** C4 — [resolve_value] takes a reference from the first of:
    calculation_date, the definitions, the values cache, the caller's
    override keyed [@service.field], the source table, the
    ServiceProvider.  So a path with both an override and a source
    entry gets the override, and a path with both a source entry and a
    provider gets the source value, the provider not being called. *)
Theorem resolve_value_priority (c : RuleContext.t) (path : string) :
  let resolve := RuleContextOps.resolve_value (VStr (String "$" path)) c in
  (path = "calculation_date" ->
   resolve = Ok (RuleContext.calculation_date c, tracked path c))
  /\ (forall v,
         path <> "calculation_date" ->
         dict_get path (RuleContext.definitions c) = Some v ->
         resolve = Ok (v, tracked path c))
  /\ (forall v,
         path <> "calculation_date" ->
         dict_get path (RuleContext.definitions c) = None ->
         dict_get path (RuleContext.values_cache c) = Some v ->
         resolve = Ok (v, tracked path c))
  /\ (forall v,
         not_yet_known c path -> has_override c path v ->
         resolve = Ok (v, cached path v (tracked path c)))
  /\ (forall v,
         not_yet_known c path -> override_value c path = Ok None ->
         has_source c path v ->
         resolve = Ok (v, cached path v (tracked path c)))
  /\ (forall p call v,
         not_yet_known c path -> override_value c path = Ok None ->
         RuleContextOps.source_value c path = Ok None ->
         has_service c path p call ->
         p (RuleContext.calls c) call = Ok v ->
         resolve = Ok (v, cached path v
                            (RuleContext.with_calls
                               (RuleContext.calls c ++ [call])
                               (tracked path c))))
  /\ (forall v w,
         not_yet_known c path -> has_override c path v ->
         has_source c path w ->
         exists c', resolve = Ok (v, c')
                    /\ RuleContext.calls c' = RuleContext.calls c)
  /\ (forall v p call,
         not_yet_known c path -> override_value c path = Ok None ->
         has_source c path v -> has_service c path p call ->
         exists c', resolve = Ok (v, c')
                    /\ RuleContext.calls c' = RuleContext.calls c).
Proof.
  cbv zeta; rewrite resolve_value_reference.
  assert (Hcalls : forall v,
             RuleContext.calls (cached path v (tracked path c))
             = RuleContext.calls c).
  { intros v; simpl; apply (tracked_env path c). }
  split.
  { intros ->; reflexivity. }
  split.
  { intros v Hcd Hd; unfold resolve_reference.
    rewrite (proj2 (String.eqb_neq _ _) Hcd), Hd; reflexivity. }
  split.
  { intros v Hcd Hd Hc; unfold resolve_reference.
    rewrite (proj2 (String.eqb_neq _ _) Hcd), Hd, Hc; reflexivity. }
  split.
  { intros v Hn Ho; rewrite (resolve_not_yet_known _ _ Hn).
    rewrite (has_override_value _ _ _ Ho); reflexivity. }
  split.
  { intros v Hn Ho Hs; rewrite (resolve_not_yet_known _ _ Hn), Ho.
    rewrite (has_source_value _ _ _ Hs); reflexivity. }
  split.
  { intros p call v Hn Ho Hs Hp Hv.
    rewrite (resolve_not_yet_known _ _ Hn), Ho, Hs.
    rewrite (has_service_call _ _ _ _ Hp), Hv; reflexivity. }
  split.
  { intros v w Hn Ho _; rewrite (resolve_not_yet_known _ _ Hn).
    rewrite (has_override_value _ _ _ Ho).
    eexists; split; [reflexivity|apply Hcalls]. }
  intros v p call Hn Ho Hs _; rewrite (resolve_not_yet_known _ _ Hn), Ho.
  rewrite (has_source_value _ _ _ Hs).
  eexists; split; [reflexivity|apply Hcalls].
Qed.

(** ** Requirements stop at the first falsy one *)

Lemma requirements_loop_app (ev_req : val -> M bool) (ev_op : val -> M val)
    (pre post : list val) (c : RuleContext.t) :
  requirements_loop ev_req ev_op (pre ++ post) c =
  match requirements_loop ev_req ev_op pre c with
  | Ok (true, c1) => requirements_loop ev_req ev_op post c1
  | o => o
  end.
Proof.
  revert c; induction pre as [|req pre IH]; intros c; simpl; [reflexivity|].
  unfold bind.
  destruct (requirement_step ev_req ev_op req c) as [[result c1]| | |];
    try reflexivity.
  destruct (negb (truthy result)); [reflexivity|apply IH].
Qed.

Lemma evaluate_requirements_list fuel (l : list val) c :
  _evaluate_requirements (S fuel) (VList l) c =
  requirements_loop (_evaluate_requirements fuel) (_evaluate_operation fuel)
    l c.
Proof.
  destruct l as [|req l]; reflexivity.
Qed.

(** C5 — the requirements are evaluated in the order of the list, and
    the first one that evaluates falsy makes the whole set fail: the
    evaluator returns false in the very context that requirement left,
    so nothing of a later requirement is evaluated and no
    ServiceProvider call is made for one.  [pre] are the requirements
    before the first falsy one [req], [post] the ones after. *)
Theorem requirements_short_circuit fuel (pre post : list val) (req : val)
    (c c1 c2 : RuleContext.t) :
  _evaluate_requirements (S fuel) (VList pre) c = Ok (true, c1) ->
  _evaluate_requirements (S fuel) (VList [req]) c1 = Ok (false, c2) ->
  _evaluate_requirements (S fuel) (VList (pre ++ req :: post)) c
  = Ok (false, c2)
  /\ _evaluate_requirements (S fuel) (VList (pre ++ [req])) c
     = Ok (false, c2).
Proof.
  rewrite !evaluate_requirements_list; intros Hpre Hreq.
  assert (Hgo : forall post,
             requirements_loop (_evaluate_requirements fuel)
               (_evaluate_operation fuel) (pre ++ req :: post) c
             = Ok (false, c2)).
  { intros post'; rewrite requirements_loop_app, Hpre.
    revert Hreq; simpl; unfold bind.
    destruct (requirement_step _ _ req c1) as [[result c']| | |];
      try discriminate.
    destruct (negb (truthy result)); [trivial|discriminate]. }
  split; apply Hgo.
Qed.

(** ** The output map *)

Lemma dict_mem_set {A} (k k' : string) (v : A) (d : list (string * A)) :
  dict_mem k (dict_set k' v d) = String.eqb k k' || dict_mem k d.
Proof.
  unfold dict_mem; rewrite dict_get_set.
  destruct (String.eqb k k'); reflexivity.
Qed.

Lemma key_of_Ok (v : val) (s : string) : key_of v = Ok s -> v = VStr s.
Proof. destruct v; simpl; congruence. Qed.

(** Splits a run that returned into the runs of its steps. *)
Ltac split_run H :=
  repeat match type of H with
         | bind _ _ _ = Ok _ =>
             let a := fresh "a" in
             let c := fresh "c" in
             let H1 := fresh "Hstep" in
             apply bind_Ok in H as (a & c & H1 & H)
         end;
  repeat match goal with
         | H1 : lift _ _ = Ok _ |- _ => apply lift_Ok in H1 as [H1 ?]
         end.

Lemma evaluate_action_name self fuel action c output_def name c' :
  _evaluate_action self fuel action c = Ok (output_def, name, c') ->
  py_getitem action "output" = Ok (VStr name).
Proof.
  unfold _evaluate_action; intros H.
  split_run H.
  injection H as _ <- _.
  match goal with
  | K : key_of ?v = Ok ?s, G : py_getitem action "output" = Ok ?v |- _ =>
      rewrite (key_of_Ok _ _ K) in G; exact G
  end.
Qed.

(** The filter is in force when [requested_output] is a non-empty
    string: [if requested_output and ...] reads both [None] and [""]
    as no filter. *)
Definition filter_set (requested_output : option string) : bool :=
  match requested_output with
  | Some r => negb (String.eqb r "")
  | None => false
  end.

Lemma skipped_name requested_output name :
  skipped requested_output (VStr name) =
  filter_set requested_output
  && negb (match requested_output with
           | Some r => String.eqb r name
           | None => false
           end).
Proof. destruct requested_output; reflexivity. Qed.

Lemma actions_loop_keys self fuel requested_output actions :
  forall output_values c output_values' c',
    actions_loop self fuel requested_output actions output_values c
    = Ok (output_values', c') ->
    forall k,
      dict_mem k output_values' = true <->
      dict_mem k output_values = true
      \/ exists action,
           In action actions
           /\ py_getitem action "output" = Ok (VStr k)
           /\ skipped requested_output (VStr k) = false.
Proof.
  induction actions as [|action r IH]; intros out c out' c' H k.
  - injection H as <- _; split; [intros Hk; left; exact Hk|].
    intros [Hk|(a & [] & _)]; exact Hk.
  - simpl in H.
    apply bind_Ok in H as (output_name & c0 & Hname & H).
    apply lift_Ok in Hname as [Hname ->].
    destruct (skipped requested_output output_name) eqn:Hskip.
    + rewrite (IH _ _ _ _ H k); split.
      * intros [Hk|(a & Ha & Hn & Hs)]; [left; exact Hk|right].
        exists a; repeat split; try assumption; right; exact Ha.
      * intros [Hk|(a & [<-|Ha] & Hn & Hs)]; [left; exact Hk| |].
        -- rewrite Hn in Hname; injection Hname as <-; congruence.
        -- right; exists a; repeat split; assumption.
    + apply bind_Ok in H as ([output_def name] & c1 & Hact & H).
      pose proof (evaluate_action_name _ _ _ _ _ _ _ Hact) as Hout.
      rewrite Hname in Hout; injection Hout as ->.
      apply bind_Ok in H as ([] & c2 & _ & H).
      rewrite (IH _ _ _ _ H k), dict_mem_set; split.
      * intros [Hk|(a & Ha & Hn & Hs)].
        -- apply orb_true_iff in Hk as [Hk|Hk]; [right|left; exact Hk].
           apply String.eqb_eq in Hk; subst k.
           exists action; repeat split; try assumption; left; reflexivity.
        -- right; exists a; repeat split; try assumption; right; exact Ha.
      * intros [Hk|(a & [<-|Ha] & Hn & Hs)].
        -- left; rewrite Hk; apply orb_true_r.
        -- assert (k = name) by congruence; subst k.
           left; rewrite String.eqb_refl; reflexivity.
        -- right; exists a; repeat split; assumption.
Qed.

Lemma actions_loop_filtered self fuel requested_output actions X :
  requested_output = Some X -> X <> "" ->
  forall output_values c output_values' c',
    actions_loop self fuel requested_output actions output_values c
    = Ok (output_values', c') ->
    (output_values = [] \/ exists v, output_values = [(X, v)]) ->
    output_values' = [] \/ exists v, output_values' = [(X, v)].
Proof.
  intros -> HX.
  induction actions as [|action r IH]; intros out c out' c' H Hout.
  - injection H as <- _; exact Hout.
  - cbn [actions_loop] in H.
    apply bind_Ok in H as (output_name & c0 & Hname & H).
    apply lift_Ok in Hname as [Hname ->].
    destruct (skipped (Some X) output_name) eqn:Hskip.
    + eapply IH; eassumption.
    + apply bind_Ok in H as ([output_def name] & c1 & Hact & H).
      pose proof (evaluate_action_name _ _ _ _ _ _ _ Hact) as Hn.
      rewrite Hname in Hn; injection Hn as ->.
      apply bind_Ok in H as ([] & c2 & _ & H).
      rewrite skipped_name in Hskip; simpl in Hskip.
      rewrite (proj2 (String.eqb_neq _ _) HX) in Hskip; simpl in Hskip.
      apply negb_false_iff, String.eqb_eq in Hskip; subst name.
      eapply IH; [exact H|right].
      destruct Hout as [->|[v ->]]; simpl;
        [|rewrite String.eqb_refl]; eexists; reflexivity.
Qed.

Lemma evaluate_Ok self fuel service_context overwrite_input sources
    calculation_date requested_output calls res calls' :
  evaluate self fuel service_context overwrite_input sources calculation_date
    requested_output calls = Ok (res, calls') ->
  if Result.requirements_met res then
    exists acts c c',
      py_iter (actions self) = Ok acts
      /\ actions_loop self fuel requested_output acts [] c
         = Ok (Result.output res, c')
  else Result.output res = [].
Proof.
  unfold evaluate.
  match goal with
  | |- match ?run ?ctx with _ => _ end = _ -> _ =>
      destruct (run ctx) as [[r c]| | |] eqn:H; try discriminate
  end.
  intros E; injection E as <- _.
  split_run H.
  injection H as <- _.
  match goal with
  | Hget : get_context _ = Ok (?cc, _) |- _ => clear Hget
  end.
  simpl.
  match goal with
  | Hout : (if ?met then _ else _) _ = Ok (?out, _) |- _ =>
      destruct met; [|injection Hout as <- _; reflexivity];
      split_run Hout
  end.
  eexists _, _, _; split; eassumption.
Qed.

(** C9, as stated, fails: with the empty string as [requested_output]
    a filter is given and equals no output name, yet both actions of
    this law get an entry, so the map has two entries and no key is
    the requested one. *)
Definition two_outputs : val :=
  VDict
    [("service", VStr "S"); ("law", VStr "L");
     ("actions",
      VList [VDict [("output", VStr "a"); ("value", VInt 1)];
             VDict [("output", VStr "b"); ("value", VInt 2)]])].

Lemma empty_filter_keeps_every_output :
  (self <- __init__ two_outputs None ;;
   r <- evaluate self 3 None None None VNone (Some "") [] ;;
   Ok (Result.requirements_met (fst r), dict_keys (Result.output (fst r))))%outcome
  = Ok (true, ["a"; "b"]).
Proof. vm_compute; reflexivity. Qed.

(** C9, amended — in the result of [evaluate], a name that is the
    output of some action has an entry in [output] if and only if the
    requirements were met and either no filter is in force
    ([requested_output] is None or the empty string) or the filter
    equals the name; every entry is such a name; and when
    [requested_output] is a non-empty X the map has at most one entry,
    whose key is X. *)
Theorem output_entries_follow_the_filter self fuel service_context
    overwrite_input sources calculation_date requested_output calls res
    calls' :
  evaluate self fuel service_context overwrite_input sources calculation_date
    requested_output calls = Ok (res, calls') ->
  (forall acts action name,
      py_iter (actions self) = Ok acts ->
      In action acts ->
      py_getitem action "output" = Ok (VStr name) ->
      (dict_mem name (Result.output res) = true <->
       Result.requirements_met res = true
       /\ (filter_set requested_output = false
           \/ requested_output = Some name)))
  /\ (forall name,
         dict_mem name (Result.output res) = true ->
         exists acts action,
           py_iter (actions self) = Ok acts
           /\ In action acts
           /\ py_getitem action "output" = Ok (VStr name))
  /\ (forall X,
         requested_output = Some X -> X <> "" ->
         (List.length (Result.output res) <= 1)%nat
         /\ forall name,
              dict_mem name (Result.output res) = true -> name = X).
Proof.
  intros H; apply evaluate_Ok in H.
  assert (Hskip : forall name,
             skipped requested_output (VStr name) = false <->
             filter_set requested_output = false
             \/ requested_output = Some name).
  { intros name; rewrite skipped_name.
    destruct requested_output as [r|]; simpl.
    - destruct (String.eqb_spec r ""); simpl.
      + split; [left; reflexivity|reflexivity].
      + destruct (String.eqb_spec r name); simpl.
        * subst; split; [right; reflexivity|reflexivity].
        * split; [discriminate|intros [|]; congruence].
    - split; [left; reflexivity|reflexivity]. }
  destruct (Result.requirements_met res).
  - destruct H as (acts & c & c' & Hacts & Hloop).
    pose proof (actions_loop_keys _ _ _ _ _ _ _ _ Hloop) as Hkeys.
    split; [|split].
    + intros acts' action name Hacts' Hin Hname.
      rewrite Hacts in Hacts'; injection Hacts' as <-.
      rewrite Hkeys; split.
      * intros [Hk|(a & Ha & Hn & Hs)]; [discriminate|].
        split; [reflexivity|apply Hskip; exact Hs].
      * intros [_ Hf]; right; exists action; repeat split; try assumption.
        apply Hskip; exact Hf.
    + intros name Hk; apply Hkeys in Hk as [Hk|(a & Ha & Hn & _)];
        [discriminate|].
      exists acts, a; repeat split; assumption.
    + intros X HX HXne.
      destruct (actions_loop_filtered _ _ _ _ X HX HXne _ _ _ _ Hloop
                  (or_introl eq_refl)) as [->|[v ->]].
      * split; [apply Nat.le_0_l|discriminate].
      * split; [apply Nat.le_refl|].
        intros name; unfold dict_mem; simpl.
        destruct (String.eqb_spec name X); [trivial|discriminate].
  - rewrite H; split; [|split].
    + intros acts action name _ _ _; split; [discriminate|].
      intros [Hm _]; discriminate.
    + discriminate.
    + intros X _ _; split; [apply Nat.le_0_l|discriminate].
Qed.

(** ** Date kinds other than SUBTRACT_DATE *)

(** The context [add_to_path] leaves. *)
Definition after_add_to_path (node : PathNode.t) (c : RuleContext.t)
  : RuleContext.t :=
  match RuleContextOps.add_to_path node c with
  | Ok (_, c') => c'
  | _ => c
  end.

Lemma add_to_path_run node c :
  RuleContextOps.add_to_path node c
  = Ok (List.length (RuleContext.nodes c), after_add_to_path node c).
Proof. reflexivity. Qed.

Lemma date_kind_is_no_other_kind (kind : string) :
  substring_in "_DATE" kind = true ->
  truthy (VStr kind) = true
  /\ py_eq (VStr kind) (VStr "IF") = false
  /\ py_eq (VStr kind) (VStr "IN") = false
  /\ py_eq (VStr kind) (VStr "NOT_NULL") = false
  /\ py_eq (VStr kind) (VStr "AND") = false
  /\ py_eq (VStr kind) (VStr "OR") = false.
Proof.
  intros H; simpl.
  repeat split;
    match goal with
    | |- negb (String.eqb kind ?s) = true =>
        destruct (String.eqb_spec kind s) as [->|]; [discriminate|reflexivity]
    | |- String.eqb kind ?s = false =>
        destruct (String.eqb_spec kind s) as [->|]; [discriminate|reflexivity]
    end.
Qed.

(** The trace node of a date operation once it has returned [result]. *)
Definition date_node (kind : string) (vals : list val) (unit result : val)
    (children : list nat) : PathNode.t :=
  PathNode.Build "operation" ("Operation: " ++ kind) result
    [("operation_type", VStr kind); ("evaluated_values", VList vals);
     ("unit", unit)]
    children.

(** C10 — an operation whose kind contains [_DATE] without being
    SUBTRACT_DATE (ADD_DATE for one) evaluates to None: its values are
    evaluated, the date helper has no result for the kind, and the
    node of the operation records the result None with the evaluated
    values and the unit, and no [error] detail; the result is not the
    0 of an invalid operation. *)
Theorem other_date_kinds_evaluate_to_None fuel (d : dict) (kind : string)
    (raw : val) (values vals : list val) (c c1 : RuleContext.t) :
  let node := new_node "operation" ("Operation: " ++ kind)
                [("operation_type", VStr kind)] in
  let id := List.length (RuleContext.nodes c) in
  let unit := match dict_get "unit" d with
              | Some u => u
              | None => VStr "days"
              end in
  dict_get "operation" d = Some (VStr kind) ->
  substring_in "_DATE" kind = true ->
  kind <> "SUBTRACT_DATE" ->
  dict_get "values" d = Some raw ->
  py_iter raw = Ok values ->
  mapM (_evaluate_value fuel) values (after_add_to_path node c)
  = Ok (vals, c1) ->
  exists c2 children,
    _evaluate_operation (S fuel) (VDict d) c = Ok (VNone, c2)
    /\ nth_error (RuleContext.nodes c2) id
       = Some (date_node kind vals unit VNone children)
    /\ dict_get "error" (PathNode.details (date_node kind vals unit VNone children))
       = None
    /\ _evaluate_date_operation (VStr kind) vals unit = Ok VNone.
Proof.
  intros node id unit Hop Hdate Hkind Hraw Hiter Hvals.
  destruct (date_kind_is_no_other_kind kind Hdate)
    as (Ht & Hif & Hin & Hnn & Hand & Hor).
  assert (Hhelper : _evaluate_date_operation (VStr kind) vals unit = Ok VNone).
  { unfold _evaluate_date_operation; simpl py_eq.
    rewrite (proj2 (String.eqb_neq _ _) Hkind); reflexivity. }
  (* the node is still as created when the values have been evaluated *)
  assert (Hframe : exists n1,
             nth_error (RuleContext.nodes c1) id = Some n1
             /\ core n1 = core node).
  { pose proof (add_to_path_run node c) as Hadd.
    apply add_to_path_Ok in Hadd as (_ & Hlen & Hnth & _).
    assert (E : evolves (S id) (after_add_to_path node c) c1).
    { eapply (evolving_mapM (S id) (_evaluate_value fuel) values);
        [intros x; apply evolving_evaluate_value| |exact Hvals].
      rewrite Hlen; apply Nat.le_refl. }
    destruct E as (_ & _ & _ & _ & F).
    specialize (F id (Nat.lt_succ_diag_r id)).
    fold id in Hnth; rewrite Hnth in F.
    destruct (nth_error (RuleContext.nodes c1) id) as [n1|];
      [|discriminate].
    exists n1; split; [reflexivity|].
    change (Some (core n1) = Some (core node)) in F; congruence. }
  destruct Hframe as (n1 & Hn1 & Hcore).
  exists (RuleContext.with_path
            (List.removelast (RuleContext.path c1))
            (RuleContext.with_nodes
               (store_update id (PathNode.set_result VNone)
                  (store_update id
                     (fun n =>
                        PathNode.set_details
                          (fold_left
                             (fun acc kv => dict_set (fst kv) (snd kv) acc)
                             [("evaluated_values", VList vals); ("unit", unit)]
                             (PathNode.details n)) n)
                     (RuleContext.nodes c1)))
               c1)),
    (PathNode.children n1).
  split; [|split; [|split; [reflexivity|exact Hhelper]]].
  - cbn [_evaluate_operation]; unfold evaluate_operation_body.
    rewrite Hop.
    rewrite Ht, andb_false_r.
    rewrite Hif, Hin, Hnn, Hand, Hor.
    change (mapM (evaluate_value_with (_evaluate_operation fuel)) values
              (after_add_to_path node c) = Ok (vals, c1)) in Hvals.
    unfold bind, lift, py_str, py_in_str, py_getitem, py_get.
    cbv beta iota; rewrite add_to_path_run.
    cbv beta iota; rewrite Hdate.
    cbv beta iota; rewrite Hraw.
    cbv beta iota; rewrite Hiter.
    cbv beta iota; fold node; rewrite Hvals.
    cbv beta iota; fold unit; rewrite Hhelper.
    reflexivity.
  - simpl RuleContext.nodes.
    rewrite !store_update_nth, Nat.eqb_refl, Hn1; simpl.
    unfold core in Hcore; simpl in Hcore.
    injection Hcore as Ht' Hn' Hr' Hd'.
    unfold date_node, PathNode.set_result, PathNode.set_details; simpl.
    rewrite Ht', Hn', Hd'; reflexivity.
Qed.

(** ** Unresolved references *)

(** Adding to a number gives a number or raises. *)
Lemma py_add_numeric (a y : val) :
  is_numeric a = true ->
  (exists x, py_add a y = Ok x /\ is_numeric x = true)
  \/ (exists e, py_add a y = Raise e).
Proof.
  unfold is_numeric, py_add; intros Ha.
  destruct (as_num a) as [na|] eqn:Ea; [|discriminate].
  destruct (as_num y) as [ny|] eqn:Ey.
  - assert (Hf : (exists x, float_binop PrimFloat.add na ny = Ok x
                            /\ is_numeric x = true)
                 \/ (exists e, float_binop PrimFloat.add na ny = Raise e)).
    { unfold float_binop, num_to_float, float_of_int.
      destruct na as [za|fa], ny as [zy|fy]; simpl;
        repeat match goal with
               | |- context [float_of_ratio ?s ?n ?d] =>
                   destruct (float_of_ratio s n d); simpl
               end;
        try (left; eexists; split; reflexivity);
        right; eexists; reflexivity. }
    destruct na as [za|fa], ny as [zy|fy]; try exact Hf.
    left; eexists; split; reflexivity.
  - right; exists TypeError.
    destruct a; simpl in Ea; try discriminate;
      destruct na; destruct y; simpl in Ey; try discriminate; reflexivity.
Qed.

Lemma py_add_None (a : val) :
  is_numeric a = true -> py_add a VNone = Raise TypeError.
Proof.
  destruct a; simpl; try discriminate; intros _; reflexivity.
Qed.

Lemma sum_with_None_raises (vals : list val) :
  In VNone vals ->
  forall acc, is_numeric acc = true ->
              exists e, reduce py_add vals acc = Raise e.
Proof.
  induction vals as [|y vals IH]; intros Hin acc Hacc; [destruct Hin|].
  simpl.
  destruct Hin as [->|Hin].
  - rewrite (py_add_None acc Hacc); exists TypeError; reflexivity.
  - destruct (py_add_numeric acc y Hacc) as [(x & -> & Hx)|(e & ->)]; simpl.
    + apply IH; assumption.
    + exists e; reflexivity.
Qed.

Definition ordering_kinds : list string :=
  ["GREATER_THAN"; "LESS_THAN"; "GREATER_OR_EQUAL"; "LESS_OR_EQUAL"].

Lemma py_compare_None_right (v : val) : py_compare v VNone = Raise TypeError.
Proof. destruct v as [| | | | |l|d]; try reflexivity; destruct l; reflexivity. Qed.

Lemma ordering_with_None_raises (op : string) (v : val) :
  In op ordering_kinds ->
  _evaluate_comparison op VNone v = Raise TypeError
  /\ _evaluate_comparison op v VNone = Raise TypeError.
Proof.
  intros Hop; unfold ordering_kinds in Hop; simpl in Hop.
  assert (Hr := py_compare_None_right v).
  unfold _evaluate_comparison.
  destruct Hop as [<-|[<-|[<-|[<-|[]]]]]; simpl;
    unfold py_gt, py_lt, py_ge, py_le; rewrite Hr; split; reflexivity.
Qed.

(** An ordering comparison whose subject is a reference. *)
Definition compares_reference (d : dict) (op path : string) (v : val) : Prop :=
  dict_get "operation" d = Some (VStr op)
  /\ In op ordering_kinds
  /\ dict_get "subject" d = Some (VStr (String "$" path))
  /\ dict_get "value" d = Some v
  /\ is_numeric v = true.

Lemma ordering_kind_dispatch (op : string) :
  In op ordering_kinds ->
  truthy (VStr op) = true
  /\ py_eq (VStr op) (VStr "IF") = false
  /\ py_eq (VStr op) (VStr "IN") = false
  /\ py_eq (VStr op) (VStr "NOT_NULL") = false
  /\ py_eq (VStr op) (VStr "AND") = false
  /\ py_eq (VStr op) (VStr "OR") = false
  /\ substring_in "_DATE" op = false
  /\ dict_mem op COMPARISON_OPS = true.
Proof.
  unfold ordering_kinds; simpl.
  intros [<-|[<-|[<-|[<-|[]]]]]; repeat split; reflexivity.
Qed.

Lemma unresolved_resolves_to_None c path :
  not_yet_known c path -> unresolvable c path ->
  RuleContextOps.resolve_value (VStr (String "$" path)) c
  = Ok (VNone, tracked path c).
Proof.
  intros Hn (Ho & Hs & Hp).
  rewrite resolve_value_reference, (resolve_not_yet_known _ _ Hn).
  rewrite Ho, Hs, Hp; reflexivity.
Qed.

Lemma unknown_property_unresolvable c path :
  dict_get path (RuleContext.property_specs c) = None -> unresolvable c path.
Proof.
  intros H; unfold unresolvable, override_value,
    RuleContextOps.service_field_key, RuleContextOps.source_value,
    RuleContextOps.service_call.
  rewrite H; repeat split.
Qed.

Lemma comparison_of_unresolved_raises fuel d op path v c :
  compares_reference d op path v ->
  not_yet_known c path -> unresolvable c path ->
  _evaluate_operation (S fuel) (VDict d) c = Raise TypeError.
Proof.
  intros (Hop & Hkind & Hsubj & Hval & Hnum) Hn Hu.
  destruct (ordering_kind_dispatch op Hkind)
    as (Ht & Hif & Hin & Hnn & Hand & Hor & Hdate & Hcmp).
  destruct (ordering_with_None_raises op v Hkind) as [Hraise _].
  cbn [_evaluate_operation]; unfold evaluate_operation_body.
  rewrite Hop, Ht, andb_false_r, Hif, Hin, Hnn, Hand, Hor.
  assert (Hmem : dict_mem "subject" d = true)
    by (unfold dict_mem; rewrite Hsubj; reflexivity).
  rewrite Hmem.
  set (node := new_node "operation" ("Operation: " ++ op)
                 [("operation_type", VStr op)]).
  assert (Hres : RuleContextOps.resolve_value (VStr (String "$" path))
                   (after_add_to_path node c)
                 = Ok (VNone, tracked path (after_add_to_path node c))).
  { apply unresolved_resolves_to_None.
    - destruct Hn as (H1 & H2 & H3); repeat split; assumption.
    - apply (unresolvable_same_env c (after_add_to_path node c) path);
        [|exact Hu].
      repeat split. }
  assert (Hv : evaluate_value_with (_evaluate_operation fuel) v = ret v).
  { unfold evaluate_value_with; rewrite Hnum; reflexivity. }
  unfold bind, lift, py_str, py_in_str, py_in_table, py_getitem, key_of.
  cbv beta iota; fold node; rewrite add_to_path_run.
  cbv beta iota; rewrite Hdate.
  cbv beta iota; rewrite Hcmp.
  cbv beta iota delta [andb]; rewrite Hsubj.
  cbv beta iota.
  change (RuleContextOps.resolve_value (VStr (String "$" path))
            (after_add_to_path node c))
    with (evaluate_value_with (_evaluate_operation fuel)
            (VStr (String "$" path)) (after_add_to_path node c)) in Hres.
  rewrite Hres.
  cbv beta iota; rewrite Hval.
  cbv beta iota; rewrite Hv; unfold ret.
  cbv beta iota; rewrite Hraise.
  reflexivity.
Qed.

Lemma requirement_on_unresolved_raises fuel d op path v rest c :
  compares_reference d op path v ->
  dict_mem "all" d = false -> dict_mem "or" d = false ->
  not_yet_known c path -> unresolvable c path ->
  _evaluate_requirements (S (S fuel)) (VList (VDict d :: rest)) c
  = Raise TypeError.
Proof.
  intros Hd Hall Hor Hn Hu.
  rewrite evaluate_requirements_list.
  cbn [requirements_loop]; unfold requirement_step.
  unfold bind, lift, py_in_str; rewrite Hall.
  cbv beta iota; rewrite Hor.
  cbv beta iota; rewrite add_to_path_run.
  cbv beta iota.
  rewrite (comparison_of_unresolved_raises fuel d op path v _ Hd);
    [reflexivity| |].
  - destruct Hn as (H1 & H2 & H3); repeat split; assumption.
  - eapply unresolvable_same_env; [|exact Hu]; repeat split.
Qed.

(** C2, as stated, fails: in this law the reference [$age] has nothing
    to resolve it; [resolve_value] returns None for it, the comparison
    [None > 18] raises a TypeError, and [evaluate] ends with that
    exception instead of a result. *)
Definition unresolved_age : val :=
  VDict
    [("service", VStr "S"); ("law", VStr "L");
     ("requirements",
      VList [VDict [("operation", VStr "GREATER_THAN");
                    ("subject", VStr "$age"); ("value", VInt 18)]]);
     ("actions",
      VList [VDict [("output", VStr "adult"); ("value", VBool true)]])].

Lemma unresolved_reference_ends_evaluate :
  (self <- __init__ unresolved_age None ;;
   r <- RuleContextOps.resolve_value (VStr "$age")
          (initial_context self None None None VNone
             (new_node "root" "evaluation" []) []) ;;
   Ok (fst r))%outcome = Ok VNone
  /\ (self <- __init__ unresolved_age None ;;
      evaluate self 5 None None None VNone None [])%outcome
     = Raise TypeError
  /\ ~ exists r,
         (self <- __init__ unresolved_age None ;;
          evaluate self 5 None None None VNone None [])%outcome = Ok r.
Proof.
  assert (H : (self <- __init__ unresolved_age None ;;
               evaluate self 5 None None None VNone None [])%outcome
              = Raise TypeError) by (vm_compute; reflexivity).
  split; [vm_compute; reflexivity|].
  split; [exact H|].
  intros [r Hr]; rewrite H in Hr; discriminate.
Qed.

(** C2, amended — a reference that is not calculation_date, not a
    definition, not cached, and for which no override, source entry
    or service lookup applies resolves to None, the context changing
    only by the recorded access.  That None is then an ordinary value:
    EQUALS and NOT_EQUALS compare it by equality and IN by membership,
    giving booleans, not None; an ordering comparison with None and a
    sum over values that include None raise an exception; and
    [evaluate] ends with that exception when a requirement compares
    such a reference by order. *)
Theorem unresolved_reference_is_None_not_propagated :
  (forall c path,
      not_yet_known c path -> unresolvable c path ->
      RuleContextOps.resolve_value (VStr (String "$" path)) c
      = Ok (VNone, tracked path c))
  /\ (forall c path,
         dict_get path (RuleContext.property_specs c) = None ->
         unresolvable c path)
  /\ (forall v,
         _evaluate_comparison "EQUALS" VNone v
         = Ok (VBool (match v with VNone => true | _ => false end))
         /\ _evaluate_comparison "NOT_EQUALS" VNone v
            = Ok (VBool (match v with VNone => false | _ => true end)))
  /\ (forall l, list_contains VNone l = true <-> In VNone l)
  /\ (forall op v,
         In op ordering_kinds ->
         _evaluate_comparison op VNone v = Raise TypeError
         /\ _evaluate_comparison op v VNone = Raise TypeError)
  /\ (forall vals,
         In VNone vals -> exists e, _evaluate_arithmetic "ADD" vals = Raise e)
  /\ (forall fuel d op path v c,
         compares_reference d op path v ->
         not_yet_known c path -> unresolvable c path ->
         _evaluate_operation (S fuel) (VDict d) c = Raise TypeError)
  /\ (forall self fuel service_context overwrite_input sources
             calculation_date requested_output calls d op path v rest,
         requirements self = VList (VDict d :: rest) ->
         compares_reference d op path v ->
         dict_mem "all" d = false -> dict_mem "or" d = false ->
         path <> "calculation_date" ->
         dict_get path (definitions self) = None ->
         dict_get path (property_specs self) = None ->
         evaluate self (S (S fuel)) service_context overwrite_input sources
           calculation_date requested_output calls = Raise TypeError).
Proof.
  split; [exact unresolved_resolves_to_None|].
  split; [exact unknown_property_unresolvable|].
  split; [intros v; split; destruct v; reflexivity|].
  split.
  { intros l; unfold list_contains; rewrite existsb_exists; split.
    - intros (y & Hy & E); destruct y; try discriminate; exact Hy.
    - intros H; exists VNone; split; [exact H|reflexivity]. }
  split; [exact ordering_with_None_raises|].
  split.
  { intros vals Hin.
    destruct vals as [|y vals]; [destruct Hin|].
    change (_evaluate_arithmetic "ADD" (y :: vals))
      with (reduce py_add (y :: vals) (VInt 0)).
    apply sum_with_None_raises; [exact Hin|reflexivity]. }
  split; [exact comparison_of_unresolved_raises|].
  intros self fuel sc oi src cd ro calls d op path v rest
    Hreq Hd Hall Hor Hcd Hdef Hspec.
  unfold evaluate.
  unfold bind at 1; rewrite add_to_path_run.
  unfold bind at 1; rewrite Hreq.
  rewrite (requirement_on_unresolved_raises fuel d op path v rest _ Hd Hall Hor);
    [reflexivity| |].
  - repeat split; [exact Hcd|exact Hdef].
  - apply unknown_property_unresolvable; exact Hspec.
Qed.

(** * The theorems on concrete inputs *)

(** A context as [evaluate] builds it, for a law with one input
    property [income] that a service provides, a provider that answers
    with the number of the call, and no definitions. *)
Definition income_spec : dict :=
  [("name", VStr "income");
   ("service_reference",
    VDict [("service", VStr "T"); ("law", VStr "tax"); ("field", VStr "inc")]);
   ("source_reference",
    VDict [("table", VStr "people"); ("field", VStr "income")]);
   ("temporal", VNone)].

Definition counting_provider : AbstractServiceProvider :=
  fun log _ => Ok (VInt (10 + Z.of_nat (List.length log))).

Definition sample_context (overwrite_input : dict)
    (sources : option (list (string * dict))) : RuleContext.t :=
  RuleContext.Build [] (Some counting_provider) [] [("income", income_spec)]
    [] sources [] [] [0%nat] overwrite_input VNone
    [new_node "root" "evaluation" []] [].

Definition context_after {A} (r : outcome (A * RuleContext.t))
    (default : RuleContext.t) : RuleContext.t :=
  match r with
  | Ok (_, c) => c
  | _ => default
  end.

(** The override wins over the source, the source over the provider. *)
Lemma resolve_value_priority_witness :
  let c := sample_context [("@T.inc", VInt 42)]
             (Some [("people", [("income", VInt 7)])]) in
  let c' := sample_context [] (Some [("people", [("income", VInt 7)])]) in
  (exists c1, RuleContextOps.resolve_value (VStr "$income") c = Ok (VInt 42, c1)
              /\ RuleContext.calls c1 = RuleContext.calls c)
  /\ (exists c1, RuleContextOps.resolve_value (VStr "$income") c'
                 = Ok (VInt 7, c1)
                 /\ RuleContext.calls c1 = RuleContext.calls c').
Proof.
  cbv zeta; split.
  - apply (proj1 (proj2 (proj2 (proj2 (proj2 (proj2 (proj2
             (resolve_value_priority
                (sample_context [("@T.inc", VInt 42)]
                   (Some [("people", [("income", VInt 7)])]))
                "income"))))))) (VInt 42) (VInt 7)).
    + repeat split; discriminate.
    + exists income_spec, [("service", VStr "T"); ("law", VStr "tax");
                            ("field", VStr "inc")], "T", "inc".
      repeat split.
    + exists income_spec, [("table", VStr "people"); ("field", VStr "income")],
        "people", "income", [("people", [("income", VInt 7)])],
        [("income", VInt 7)].
      repeat split.
  - apply (proj2 (proj2 (proj2 (proj2 (proj2 (proj2 (proj2
             (resolve_value_priority
                (sample_context []
                   (Some [("people", [("income", VInt 7)])]))
                "income"))))))) (VInt 7) counting_provider
             (ServiceCall.Build (VStr "T") (VStr "tax") (VStr "inc") VNone
                [] [])).
    + repeat split; discriminate.
    + reflexivity.
    + exists income_spec, [("table", VStr "people"); ("field", VStr "income")],
        "people", "income", [("people", [("income", VInt 7)])],
        [("income", VInt 7)].
      repeat split.
    + exists income_spec, [("service", VStr "T"); ("law", VStr "tax");
                            ("field", VStr "inc")],
        (VStr "T"), (VStr "tax"), (VStr "inc"), VNone.
      repeat split.
Defined.

Definition add_one_to_income : val :=
  VDict [("operation", VStr "ADD"); ("values", VList [VStr "$income"; VInt 1])].

Definition income_resolved : RuleContext.t :=
  context_after
    (RuleContextOps.resolve_value (VStr "$income") (sample_context [] None))
    (sample_context [] None).

Definition income_added : RuleContext.t :=
  context_after (_evaluate_operation 2 add_one_to_income income_resolved)
    income_resolved.

(** A reference the provider resolved is resolved again after an ADD
    over it has been evaluated: same value, no new call. *)
Lemma values_cache_write_once_witness :
  RuleContextOps.resolve_value (VStr "$income") (sample_context [] None)
  = Ok (VInt 10, income_resolved)
  /\ RuleContext.calls income_resolved
     = [ServiceCall.Build (VStr "T") (VStr "tax") (VStr "inc") VNone [] []]
  /\ exists c3,
       RuleContextOps.resolve_value (VStr "$income") income_added
       = Ok (VInt 10, c3)
       /\ RuleContext.calls c3 = RuleContext.calls income_added
       /\ RuleContext.values_cache c3 = RuleContext.values_cache income_added.
Proof.
  split; [vm_compute; reflexivity|].
  split; [vm_compute; reflexivity|].
  apply (proj2 (proj2 (proj2 (proj2 (proj2 (proj2
            values_cache_write_once))))) "income" (sample_context [] None)
           (VInt 10) income_resolved income_added).
  - vm_compute; reflexivity.
  - apply (proj1 (proj2 values_cache_write_once) 2%nat add_one_to_income
             income_resolved (VInt 11) income_added).
    vm_compute; reflexivity.
Defined.

Definition always_true : val :=
  VDict [("operation", VStr "EQUALS"); ("subject", VInt 1); ("value", VInt 1)].
Definition always_false : val :=
  VDict [("operation", VStr "EQUALS"); ("subject", VInt 1); ("value", VInt 2)].
Definition needs_income : val :=
  VDict [("operation", VStr "GREATER_THAN"); ("subject", VStr "$income");
         ("value", VInt 5)].

Definition after_true : RuleContext.t :=
  context_after
    (_evaluate_requirements 3 (VList [always_true]) (sample_context [] None))
    (sample_context [] None).

Definition after_false : RuleContext.t :=
  context_after (_evaluate_requirements 3 (VList [always_false]) after_true)
    after_true.

(** A false requirement between a true one and one that would call
    the provider: the set fails and the provider is not called. *)
Lemma requirements_short_circuit_witness :
  _evaluate_requirements 3 (VList [always_true]) (sample_context [] None)
  = Ok (true, after_true)
  /\ _evaluate_requirements 3 (VList [always_false]) after_true
     = Ok (false, after_false)
  /\ RuleContext.calls after_false = []
  /\ _evaluate_requirements 3
       (VList ([always_true] ++ always_false :: [needs_income]))
       (sample_context [] None)
     = Ok (false, after_false)
  /\ _evaluate_requirements 3 (VList ([always_true] ++ [always_false]))
       (sample_context [] None)
     = Ok (false, after_false).
Proof.
  split; [vm_compute; reflexivity|].
  split; [vm_compute; reflexivity|].
  split; [vm_compute; reflexivity|].
  apply (requirements_short_circuit 2 [always_true] [needs_income]
           always_false (sample_context [] None) after_true after_false);
    vm_compute; reflexivity.
Defined.

Definition engine_of (spec : val) : RulesEngine.t :=
  match __init__ spec None with
  | Ok self => self
  | _ => RulesEngine.Build VNone VNone VNone [] VNone VNone [] [] None
  end.

Definition result_of (r : outcome (Result.t * list ServiceCall.t)) : Result.t :=
  match r with
  | Ok (res, _) => res
  | _ => Result.Build [] [] false (0%nat, [])
  end.

Definition only_b : Result.t :=
  result_of
    (evaluate (engine_of two_outputs) 3 None None None VNone (Some "b") []).

(** The law with outputs [a] and [b], asked for [b]. *)
Lemma output_entries_follow_the_filter_witness :
  evaluate (engine_of two_outputs) 3 None None None VNone (Some "b") []
  = Ok (only_b, [])
  /\ dict_keys (Result.output only_b) = ["b"]
  /\ (List.length (Result.output only_b) <= 1)%nat
  /\ forall name, dict_mem name (Result.output only_b) = true -> name = "b".
Proof.
  split; [vm_compute; reflexivity|].
  split; [vm_compute; reflexivity|].
  apply (proj2 (proj2
           (output_entries_follow_the_filter (engine_of two_outputs) 3
              None None None VNone (Some "b") [] only_b []
              ltac:(vm_compute; reflexivity))) "b" eq_refl).
  discriminate.
Defined.

Definition add_date : dict :=
  [("operation", VStr "ADD_DATE");
   ("values", VList [VStr "2024-03-10"; VInt 30])].

Definition add_date_values_evaluated : RuleContext.t :=
  context_after
    (mapM (_evaluate_value 1) [VStr "2024-03-10"; VInt 30]
       (after_add_to_path
          (new_node "operation" "Operation: ADD_DATE"
             [("operation_type", VStr "ADD_DATE")])
          (sample_context [] None)))
    (sample_context [] None).

(** ADD_DATE on a date and a number. *)
Lemma other_date_kinds_evaluate_to_None_witness :
  substring_in "_DATE" "ADD_DATE" = true
  /\ "ADD_DATE" <> "SUBTRACT_DATE"
  /\ exists c2 children,
       _evaluate_operation 2 (VDict add_date) (sample_context [] None)
       = Ok (VNone, c2)
       /\ nth_error (RuleContext.nodes c2) 1
          = Some (date_node "ADD_DATE" [VStr "2024-03-10"; VInt 30]
                    (VStr "days") VNone children)
       /\ dict_get "error"
            (PathNode.details
               (date_node "ADD_DATE" [VStr "2024-03-10"; VInt 30]
                  (VStr "days") VNone children)) = None
       /\ _evaluate_date_operation (VStr "ADD_DATE")
            [VStr "2024-03-10"; VInt 30] (VStr "days") = Ok VNone.
Proof.
  split; [reflexivity|].
  split; [discriminate|].
  apply (other_date_kinds_evaluate_to_None 1 add_date "ADD_DATE"
           (VList [VStr "2024-03-10"; VInt 30]) [VStr "2024-03-10"; VInt 30]
           [VStr "2024-03-10"; VInt 30] (sample_context [] None)
           add_date_values_evaluated);
    try reflexivity; try discriminate.
Defined.

Definition age_check : dict :=
  [("operation", VStr "GREATER_THAN"); ("subject", VStr "$age");
   ("value", VInt 18)].

(** The law whose only requirement compares the unresolved [$age]. *)
Lemma unresolved_reference_is_None_not_propagated_witness :
  RuleContextOps.resolve_value (VStr "$age") (sample_context [] None)
  = Ok (VNone, tracked "age" (sample_context [] None))
  /\ _evaluate_operation 1 (VDict age_check) (sample_context [] None)
     = Raise TypeError
  /\ evaluate (engine_of unresolved_age) 2 None None None VNone None []
     = Raise TypeError.
Proof.
  assert (Hknown : not_yet_known (sample_context [] None) "age")
    by (repeat split; discriminate).
  assert (Hnone : unresolvable (sample_context [] None) "age")
    by (apply (proj1 (proj2 unresolved_reference_is_None_not_propagated));
        reflexivity).
  assert (Hcmp : compares_reference age_check "GREATER_THAN" "age" (VInt 18))
    by (repeat split; simpl; auto).
  split; [|split].
  - apply (proj1 unresolved_reference_is_None_not_propagated); assumption.
  - apply (proj1 (proj2 (proj2 (proj2 (proj2 (proj2 (proj2
             unresolved_reference_is_None_not_propagated))))))
             0%nat age_check "GREATER_THAN" "age" (VInt 18));
      assumption.
  - apply (proj2 (proj2 (proj2 (proj2 (proj2 (proj2 (proj2
             unresolved_reference_is_None_not_propagated))))))
             (engine_of unresolved_age) 0%nat None None None VNone None []
             age_check "GREATER_THAN" "age" (VInt 18) []);
      try reflexivity; try assumption; discriminate.
Defined.

(** * More of the engine

    Properties of the parts of the engine that the sections above do
    not reach: the dispatch of [_evaluate_operation] and
    [_evaluate_action], the trace, the operator tables on integers,
    the property specifications and the result of [evaluate]. *)

(** ** Actions *)

Lemma bind_ext {A B} (m : M A) (k k' : A -> M B) c :
  (forall a c1, m c = Ok (a, c1) -> k a c1 = k' a c1) ->
  bind m k c = bind m k' c.
Proof.
  intros H; unfold bind.
  destruct (m c) as [[a c1]| | |]; try reflexivity.
  apply H; reflexivity.
Qed.





(** ** Operations that are not one of the kinds *)

(** The trace node of an operation that is none of the kinds. *)
Definition invalid_node (op_type : val) (label : string) : PathNode.t :=
  PathNode.Build "operation" ("Operation: " ++ label) (VInt 0)
    [("operation_type", op_type); ("error", VStr "Invalid operation format")]
    [].

Definition other_kinds : list string := ["IF"; "IN"; "NOT_NULL"; "AND"; "OR"].




(** ** The trace cursor *)

(** [moves p q m]: run with the cursor path [p], [m] returns with the
    cursor path [q]. *)
Definition moves {A} (p q : list nat) (m : M A) : Prop :=
  forall c a c',
    RuleContext.path c = p -> m c = Ok (a, c') -> RuleContext.path c' = q.

Lemma moves_ret {A} p (a : A) : moves p p (ret a).
Proof. intros c a' c' Hp H; injection H as _ <-; exact Hp. Qed.

Lemma moves_lift {A} p (o : outcome A) : moves p p (lift o).
Proof. intros c a c' Hp H; apply lift_Ok in H as [_ ->]; exact Hp. Qed.

Lemma moves_get_context p : moves p p get_context.
Proof. intros c a c' Hp H; injection H as _ <-; exact Hp. Qed.

Lemma moves_modify p q (f : RuleContext.t -> RuleContext.t) :
  (forall c, RuleContext.path c = p -> RuleContext.path (f c) = q) ->
  moves p q (modify f).
Proof. intros Hf c a c' Hp H; injection H as _ <-; apply Hf, Hp. Qed.

Lemma moves_bind {A B} p q r (m : M A) (k : A -> M B) :
  moves p q m -> (forall a, moves q r (k a)) -> moves p r (bind m k).
Proof.
  intros Hm Hk c b c' Hp H.
  apply bind_Ok in H as (a & c1 & H1 & H2).
  eapply Hk; [|exact H2]; eapply Hm; eassumption.
Qed.

Lemma moves_add_to_path {B} p r node (k : nat -> M B) :
  (forall id, moves (p ++ [id]) r (k id)) ->
  moves p r (bind (RuleContextOps.add_to_path node) k).
Proof.
  intros Hk c b c' Hp H.
  apply bind_Ok in H as (id & c1 & H1 & H2).
  injection H1 as <- <-.
  eapply Hk; [|exact H2]; simpl; rewrite Hp; reflexivity.
Qed.

Lemma moves_pop_path p id : moves (p ++ [id]) p RuleContextOps.pop_path.
Proof.
  apply moves_modify; intros c ->; simpl; apply removelast_last.
Qed.

Lemma moves_track_access p path : moves p p (RuleContextOps.track_access path).
Proof.
  apply moves_modify; intros c Hp.
  destruct (existsb _ _); exact Hp.
Qed.

Lemma moves_set_result p id r : moves p p (RuleContextOps.set_result id r).
Proof. apply moves_modify; intros c Hp; exact Hp. Qed.

Lemma moves_update_details p id d :
  moves p p (RuleContextOps.update_details id d).
Proof. apply moves_modify; intros c Hp; exact Hp. Qed.

Lemma moves_append_condition_result p id d :
  moves p p (append_condition_result id d).
Proof. apply moves_modify; intros c Hp; exact Hp. Qed.

Lemma moves_cache p path v : moves p p (RuleContextOps.cache path v).
Proof. apply moves_modify; intros c Hp; exact Hp. Qed.

Lemma moves_get_value p prov call :
  moves p p (RuleContextOps.get_value prov call).
Proof.
  intros c a c' Hp H; unfold RuleContextOps.get_value in H.
  destruct (prov _ _); try discriminate.
  injection H as _ <-; exact Hp.
Qed.

Lemma moves_mapM {A B} p (f : A -> M B) (l : list A) :
  (forall x, moves p p (f x)) -> moves p p (mapM f l).
Proof.
  intros Hf; induction l as [|x l IH]; simpl.
  - apply moves_ret.
  - apply (moves_bind p p); [apply Hf|intros y].
    apply (moves_bind p p); [apply IH|intros ys].
    apply moves_ret.
Qed.

(** Walks through a computation built from these steps. *)
Ltac moves_step :=
  match goal with
  | |- moves _ _ (ret _) => apply moves_ret
  | |- moves _ _ (lift _) => apply moves_lift
  | |- moves _ _ get_context => apply moves_get_context
  | |- moves _ _ (RuleContextOps.track_access _) => apply moves_track_access
  | |- moves _ _ (RuleContextOps.set_result _ _) => apply moves_set_result
  | |- moves _ _ (RuleContextOps.update_details _ _) =>
      apply moves_update_details
  | |- moves _ _ (append_condition_result _ _) =>
      apply moves_append_condition_result
  | |- moves _ _ (RuleContextOps.cache _ _) => apply moves_cache
  | |- moves _ _ (RuleContextOps.get_value _ _) => apply moves_get_value
  | |- moves _ _ (bind (RuleContextOps.add_to_path _) _) =>
      apply moves_add_to_path; intros ?
  | |- moves (?p ++ [_]) ?p (bind RuleContextOps.pop_path _) =>
      apply (moves_bind _ p); [apply moves_pop_path|intros ?]
  | |- moves ?p _ (bind _ _) => apply (moves_bind p p); [|intros ?]
  | |- moves _ _ (mapM _ _) => apply moves_mapM; intros ?
  | |- moves _ _ (if ?b then _ else _) => destruct b
  | |- moves _ _ (match ?x with _ => _ end) => destruct x
  | |- moves _ _ (let '(_, _) := ?x in _) => destruct x
  | H : forall op p, moves p p (?f op) |- moves _ _ (?f _) => apply H
  end.

Lemma moves_resolve_value p v : moves p p (RuleContextOps.resolve_value v).
Proof.
  unfold RuleContextOps.resolve_value; repeat moves_step.
Qed.

Section BalancedInterpreter.
Variable evaluate_operation : val -> M val.
Hypothesis balanced_operation : forall op p, moves p p (evaluate_operation op).

Lemma moves_evaluate_value_with p value :
  moves p p (evaluate_value_with evaluate_operation value).
Proof.
  unfold evaluate_value_with;
    repeat first [ apply moves_resolve_value | moves_step ].
Qed.

Lemma moves_if_conditions p id i conditions result :
  moves p p (if_conditions evaluate_operation id i conditions result).
Proof.
  revert i result.
  induction conditions as [|condition r IH]; intros i result; simpl.
  - apply moves_ret.
  - repeat first [ apply IH | apply moves_evaluate_value_with | moves_step ].
Qed.

Lemma moves_evaluate_if_operation_with p operation :
  moves p p (evaluate_if_operation_with evaluate_operation operation).
Proof.
  unfold evaluate_if_operation_with.
  repeat first [ apply moves_if_conditions | moves_step ].
Qed.

Lemma moves_evaluate_operation_body p operation :
  moves p p (evaluate_operation_body evaluate_operation operation).
Proof.
  unfold evaluate_operation_body.
  destruct operation;
    repeat first [ apply moves_evaluate_value_with
                 | apply moves_evaluate_if_operation_with
                 | moves_step ].
Qed.
End BalancedInterpreter.

Lemma moves_evaluate_operation fuel :
  forall op p, moves p p (_evaluate_operation fuel op).
Proof.
  induction fuel as [|fuel IH]; intros op p; simpl.
  - intros c a c' _ H; discriminate.
  - apply moves_evaluate_operation_body; exact IH.
Qed.

Section BalancedRequirements.
Variable evaluate_requirements : val -> M bool.
Variable evaluate_operation : val -> M val.
Hypothesis balanced_requirements :
  forall r p, moves p p (evaluate_requirements r).
Hypothesis balanced_operation :
  forall op p, moves p p (evaluate_operation op).

Lemma moves_requirement_step p req :
  moves p p (requirement_step evaluate_requirements evaluate_operation req).
Proof.
  unfold requirement_step; repeat moves_step.
Qed.

Lemma moves_requirements_loop p requirements :
  moves p p
    (requirements_loop evaluate_requirements evaluate_operation requirements).
Proof.
  induction requirements as [|req r IH]; simpl.
  - apply moves_ret.
  - apply (moves_bind p p); [apply moves_requirement_step|intros result].
    destruct (negb (truthy result)); [apply moves_ret|apply IH].
Qed.

Lemma moves_evaluate_requirements_body p requirements :
  moves p p
    (evaluate_requirements_body evaluate_requirements evaluate_operation
       requirements).
Proof.
  unfold evaluate_requirements_body.
  repeat first [ apply moves_requirements_loop | moves_step ].
Qed.
End BalancedRequirements.

Lemma moves_evaluate_requirements fuel :
  forall requirements p, moves p p (_evaluate_requirements fuel requirements).
Proof.
  induction fuel as [|fuel IH]; intros requirements p; simpl.
  - intros c a c' _ H; discriminate.
  - apply moves_evaluate_requirements_body;
      [exact IH|apply moves_evaluate_operation].
Qed.

(** [_evaluate_action] leaves its node on the cursor path: the loop in
    [evaluate] pops it. *)
Lemma moves_evaluate_action self fuel action p :
  forall c a c',
    RuleContext.path c = p ->
    _evaluate_action self fuel action c = Ok (a, c') ->
    RuleContext.path c' = (p ++ [List.length (RuleContext.nodes c)])%list.
Proof.
  intros c a c' Hp H.
  unfold _evaluate_action in H.
  apply bind_Ok in H as (label & c1 & H1 & H); apply lift_Ok in H1 as [_ ->].
  apply bind_Ok in H as (id & c2 & H2 & H).
  injection H2 as <- <-.
  revert H.
  match goal with
  | |- ?m ?c0 = _ -> _ =>
      assert (Hm : moves (p ++ [List.length (RuleContext.nodes c)])
                     (p ++ [List.length (RuleContext.nodes c)]) m)
  end.
  { repeat first [ apply moves_evaluate_value_with, moves_evaluate_operation
                 | apply moves_evaluate_operation
                 | moves_step ]. }
  intros H; eapply Hm; [|exact H].
  simpl; rewrite Hp; reflexivity.
Qed.

Lemma moves_actions_loop self fuel requested_output actions p :
  forall output_values,
    moves p p (actions_loop self fuel requested_output actions output_values).
Proof.
  induction actions as [|action r IH]; intros output_values; simpl.
  - apply moves_ret.
  - apply (moves_bind p p); [apply moves_lift|intros output_name].
    destruct (skipped requested_output output_name); [apply IH|].
    intros c b c' Hp H.
    apply bind_Ok in H as ([output_def name] & c1 & H1 & H).
    apply (moves_evaluate_action _ _ _ p) in H1; [|exact Hp].
    revert H; eapply (moves_bind _ p); [|intros; apply IH|exact H1].
    apply moves_pop_path.
Qed.



(** ** The trace nodes *)

(** [extends n n']: [n'] is the node [n] later in the evaluation. *)
Definition extends (n n' : PathNode.t) : Prop :=
  PathNode.type n' = PathNode.type n
  /\ PathNode.name n' = PathNode.name n
  /\ exists l, PathNode.children n' = (PathNode.children n ++ l)%list.

(** [grows c c']: every node of [c] is still there in [c'], with its
    type, its name and its children, in order, before any new child;
    every path accessed in [c] is accessed in [c']. *)
Definition grows (c c' : RuleContext.t) : Prop :=
  (forall i n,
      nth_error (RuleContext.nodes c) i = Some n ->
      exists n', nth_error (RuleContext.nodes c') i = Some n' /\ extends n n')
  /\ incl (RuleContext.accessed_paths c) (RuleContext.accessed_paths c').

Lemma extends_same n n' :
  PathNode.type n' = PathNode.type n ->
  PathNode.name n' = PathNode.name n ->
  PathNode.children n' = PathNode.children n ->
  extends n n'.
Proof.
  intros T N C; split; [exact T|split; [exact N|]].
  exists []; rewrite app_nil_r; exact C.
Qed.

Lemma extends_refl n : extends n n.
Proof. apply extends_same; reflexivity. Qed.

Lemma extends_trans n1 n2 n3 : extends n1 n2 -> extends n2 n3 -> extends n1 n3.
Proof.
  intros (T1 & N1 & l1 & C1) (T2 & N2 & l2 & C2).
  split; [congruence|split; [congruence|]].
  exists (l1 ++ l2)%list; rewrite C2, C1, app_assoc; reflexivity.
Qed.

Lemma grows_refl c : grows c c.
Proof.
  split; [|apply incl_refl].
  intros i n H; exists n; split; [exact H|apply extends_refl].
Qed.

Lemma grows_trans c1 c2 c3 : grows c1 c2 -> grows c2 c3 -> grows c1 c3.
Proof.
  intros [N1 A1] [N2 A2]; split; [|eapply incl_tran; eassumption].
  intros i n H.
  destruct (N1 i n H) as (n' & H' & E1).
  destruct (N2 i n' H') as (n'' & H'' & E2).
  exists n''; split; [exact H''|eapply extends_trans; eassumption].
Qed.

Definition growing {A} (m : M A) : Prop :=
  forall c a c', m c = Ok (a, c') -> grows c c'.

Lemma growing_ret {A} (a : A) : growing (ret a).
Proof. intros c a' c' H; injection H as _ <-; apply grows_refl. Qed.

Lemma growing_lift {A} (o : outcome A) : growing (lift o).
Proof. intros c a c' H; apply lift_Ok in H as [_ ->]; apply grows_refl. Qed.

Lemma growing_get_context : growing get_context.
Proof. intros c a c' H; injection H as _ <-; apply grows_refl. Qed.

Lemma growing_bind {A B} (m : M A) (k : A -> M B) :
  growing m -> (forall a, growing (k a)) -> growing (bind m k).
Proof.
  intros Hm Hk c b c' H.
  apply bind_Ok in H as (a & c1 & H1 & H2).
  eapply grows_trans; [eapply Hm|eapply Hk]; eassumption.
Qed.

Lemma growing_modify (f : RuleContext.t -> RuleContext.t) :
  (forall c, grows c (f c)) -> growing (modify f).
Proof. intros Hf c a c' H; injection H as _ <-; apply Hf. Qed.

Lemma grows_store_update id (f : PathNode.t -> PathNode.t) c :
  (forall n, extends n (f n)) ->
  grows c (RuleContext.with_nodes (store_update id f (RuleContext.nodes c)) c).
Proof.
  intros Hf; split; [|apply incl_refl].
  intros i n H; simpl; rewrite store_update_nth, H.
  destruct (Nat.eqb id i); eexists; split; try reflexivity;
    [apply Hf|apply extends_refl].
Qed.

Lemma growing_track_access path : growing (RuleContextOps.track_access path).
Proof.
  apply growing_modify; intros c.
  destruct (existsb _ _); [apply grows_refl|].
  split; [|simpl; apply incl_appl, incl_refl].
  intros i n H; exists n; split; [exact H|apply extends_refl].
Qed.

Lemma growing_pop_path : growing RuleContextOps.pop_path.
Proof.
  apply growing_modify; intros c; split; [|apply incl_refl].
  intros i n H; exists n; split; [exact H|apply extends_refl].
Qed.

Lemma growing_cache path v : growing (RuleContextOps.cache path v).
Proof.
  apply growing_modify; intros c; split; [|apply incl_refl].
  intros i n H; exists n; split; [exact H|apply extends_refl].
Qed.

Lemma growing_set_result id r : growing (RuleContextOps.set_result id r).
Proof.
  apply growing_modify; intros c; apply grows_store_update.
  intros n; apply extends_same; reflexivity.
Qed.

Lemma growing_update_details id d :
  growing (RuleContextOps.update_details id d).
Proof.
  apply growing_modify; intros c; apply grows_store_update.
  intros n; apply extends_same; reflexivity.
Qed.

Lemma growing_append_condition_result id d :
  growing (append_condition_result id d).
Proof.
  apply growing_modify; intros c; apply grows_store_update.
  intros n; apply extends_same; reflexivity.
Qed.

Lemma growing_get_value prov call :
  growing (RuleContextOps.get_value prov call).
Proof.
  intros c a c' H; unfold RuleContextOps.get_value in H.
  destruct (prov _ _); try discriminate.
  injection H as _ <-; split; [|apply incl_refl].
  intros i n H; exists n; split; [exact H|apply extends_refl].
Qed.

Lemma growing_add_to_path node : growing (RuleContextOps.add_to_path node).
Proof.
  intros c id c' H; injection H as _ <-.
  split; [|apply incl_refl].
  intros i n H; simpl.
  assert (Hi : (i < List.length (RuleContext.nodes c))%nat)
    by (apply nth_error_Some; congruence).
  destruct (last (map Some (RuleContext.path c)) None) as [top|].
  - rewrite nth_error_app1 by (rewrite store_update_length; exact Hi).
    rewrite store_update_nth, H.
    destruct (Nat.eqb top i); eexists; split; try reflexivity;
      [|apply extends_refl].
    split; [reflexivity|split; [reflexivity|]].
    eexists; reflexivity.
  - rewrite nth_error_app1 by exact Hi.
    exists n; split; [exact H|apply extends_refl].
Qed.

Lemma growing_mapM {A B} (f : A -> M B) (l : list A) :
  (forall x, growing (f x)) -> growing (mapM f l).
Proof.
  intros Hf; induction l as [|x l IH]; simpl.
  - apply growing_ret.
  - apply growing_bind; [apply Hf|intros y].
    apply growing_bind; [apply IH|intros ys].
    apply growing_ret.
Qed.

(** Walks through a computation built from these steps. *)
Ltac growing_step :=
  match goal with
  | |- growing (ret _) => apply growing_ret
  | |- growing (lift _) => apply growing_lift
  | |- growing get_context => apply growing_get_context
  | |- growing (RuleContextOps.track_access _) => apply growing_track_access
  | |- growing RuleContextOps.pop_path => apply growing_pop_path
  | |- growing (RuleContextOps.add_to_path _) => apply growing_add_to_path
  | |- growing (RuleContextOps.set_result _ _) => apply growing_set_result
  | |- growing (RuleContextOps.update_details _ _) =>
      apply growing_update_details
  | |- growing (append_condition_result _ _) =>
      apply growing_append_condition_result
  | |- growing (RuleContextOps.cache _ _) => apply growing_cache
  | |- growing (RuleContextOps.get_value _ _) => apply growing_get_value
  | |- growing (bind _ _) => apply growing_bind; [|intros ?]
  | |- growing (mapM _ _) => apply growing_mapM; intros ?
  | |- growing (if ?b then _ else _) => destruct b
  | |- growing (match ?x with _ => _ end) => destruct x
  | |- growing (let '(_, _) := ?x in _) => destruct x
  | H : forall op, growing (?f op) |- growing (?f _) => apply H
  end.

Lemma growing_resolve_value v : growing (RuleContextOps.resolve_value v).
Proof.
  unfold RuleContextOps.resolve_value; repeat growing_step.
Qed.

Section GrowingInterpreter.
Variable evaluate_operation : val -> M val.
Hypothesis growing_operation : forall op, growing (evaluate_operation op).

Lemma growing_evaluate_value_with value :
  growing (evaluate_value_with evaluate_operation value).
Proof.
  unfold evaluate_value_with;
    repeat first [ apply growing_resolve_value | growing_step ].
Qed.

Lemma growing_if_conditions id i conditions result :
  growing (if_conditions evaluate_operation id i conditions result).
Proof.
  revert i result.
  induction conditions as [|condition r IH]; intros i result; simpl.
  - apply growing_ret.
  - repeat first [ apply IH | apply growing_evaluate_value_with
                 | growing_step ].
Qed.

Lemma growing_evaluate_if_operation_with operation :
  growing (evaluate_if_operation_with evaluate_operation operation).
Proof.
  unfold evaluate_if_operation_with.
  repeat first [ apply growing_if_conditions | growing_step ].
Qed.

Lemma growing_evaluate_operation_body operation :
  growing (evaluate_operation_body evaluate_operation operation).
Proof.
  unfold evaluate_operation_body.
  destruct operation;
    repeat first [ apply growing_evaluate_value_with
                 | apply growing_evaluate_if_operation_with
                 | growing_step ].
Qed.
End GrowingInterpreter.

Lemma growing_evaluate_operation fuel :
  forall op, growing (_evaluate_operation fuel op).
Proof.
  induction fuel as [|fuel IH]; intros op; simpl.
  - intros c a c' H; discriminate.
  - apply growing_evaluate_operation_body; exact IH.
Qed.

Section GrowingRequirements.
Variable evaluate_requirements : val -> M bool.
Variable evaluate_operation : val -> M val.
Hypothesis growing_requirements :
  forall r, growing (evaluate_requirements r).
Hypothesis growing_operation :
  forall op, growing (evaluate_operation op).

Lemma growing_requirement_step req :
  growing (requirement_step evaluate_requirements evaluate_operation req).
Proof.
  unfold requirement_step; repeat growing_step.
Qed.

Lemma growing_requirements_loop requirements :
  growing
    (requirements_loop evaluate_requirements evaluate_operation requirements).
Proof.
  induction requirements as [|req r IH]; simpl.
  - apply growing_ret.
  - apply growing_bind; [apply growing_requirement_step|intros result].
    destruct (negb (truthy result)); [apply growing_ret|apply IH].
Qed.

Lemma growing_evaluate_requirements_body requirements :
  growing
    (evaluate_requirements_body evaluate_requirements evaluate_operation
       requirements).
Proof.
  unfold evaluate_requirements_body.
  repeat first [ apply growing_requirements_loop | growing_step ].
Qed.
End GrowingRequirements.

Lemma growing_evaluate_requirements fuel :
  forall requirements, growing (_evaluate_requirements fuel requirements).
Proof.
  induction fuel as [|fuel IH]; intros requirements; simpl.
  - intros c a c' H; discriminate.
  - apply growing_evaluate_requirements_body;
      [exact IH|apply growing_evaluate_operation].
Qed.

Lemma growing_evaluate_action self fuel action :
  growing (_evaluate_action self fuel action).
Proof.
  unfold _evaluate_action.
  repeat first [ apply growing_evaluate_value_with, growing_evaluate_operation
               | apply growing_evaluate_operation
               | growing_step ].
Qed.

Lemma growing_actions_loop self fuel requested_output actions :
  forall output_values,
    growing (actions_loop self fuel requested_output actions output_values).
Proof.
  induction actions as [|action r IH]; intros output_values; simpl.
  - apply growing_ret.
  - repeat first [ apply IH | apply growing_evaluate_action | growing_step ].
Qed.


(** The node that [_evaluate_operation] makes. *)
Definition operation_types : list string :=
  ["value"; "direct_value"; "operation"].

Lemma framed_node (node : PathNode.t) (inner : nat -> M val) c v c' :
  (forall id, growing (inner id)) ->
  bind (RuleContextOps.add_to_path node)
    (fun id =>
       bind (inner id) (fun result =>
       bind (RuleContextOps.set_result id result) (fun _ =>
       bind RuleContextOps.pop_path (fun _ => ret result)))) c
  = Ok (v, c') ->
  let id := List.length (RuleContext.nodes c) in
  (exists n,
      nth_error (RuleContext.nodes c') id = Some n
      /\ PathNode.type n = PathNode.type node
      /\ PathNode.name n = PathNode.name node
      /\ PathNode.result n = v)
  /\ forall top parent,
       last (map Some (RuleContext.path c)) None = Some top ->
       nth_error (RuleContext.nodes c) top = Some parent ->
       exists parent',
         nth_error (RuleContext.nodes c') top = Some parent'
         /\ exists l, PathNode.children parent'
                      = (PathNode.children parent ++ id :: l)%list.
Proof.
  intros Hinner H id.
  apply bind_Ok in H as (id' & c1 & H1 & H).
  pose proof (add_to_path_Ok _ _ _ _ H1) as (-> & Hlen & Hnth & _).
  fold id in Hnth, H, Hlen.
  apply bind_Ok in H as (r & c2 & H2 & H).
  apply Hinner in H2 as [G _].
  apply bind_Ok in H as ([] & c3 & H3 & H).
  injection H3 as <-.
  apply bind_Ok in H as ([] & c4 & H4 & H).
  injection H4 as <-.
  injection H as <- <-.
  split.
  - destruct (G id node Hnth) as (n' & Hn' & T & N & _).
    exists (PathNode.set_result r n'); simpl.
    rewrite store_update_nth, Nat.eqb_refl, Hn'.
    repeat split; assumption.
  - intros top parent Htop Hparent.
    assert (Ht : (top < id)%nat) by (apply nth_error_Some; congruence).
    assert (P1 : nth_error (RuleContext.nodes c1) top
                 = Some (PathNode.add_child id parent)).
    { injection H1 as <-; simpl; rewrite Htop.
      rewrite nth_error_app1 by (rewrite store_update_length; exact Ht).
      rewrite store_update_nth, Nat.eqb_refl, Hparent; reflexivity. }
    destruct (G top _ P1) as (p' & Hp' & _ & _ & l & Hl).
    exists p'; simpl.
    rewrite store_update_nth, Hp'.
    destruct (Nat.eqb_spec id top) as [E|_]; [lia|].
    split; [reflexivity|].
    exists l; rewrite Hl; simpl.
    rewrite <- app_assoc; reflexivity.
Qed.


(** ** Arithmetic on integers *)

Lemma reduce_ints (f : val -> val -> outcome val) (g : Z -> Z -> Z)
    (l : list Z) (a : Z) :
  (forall x y, f (VInt x) (VInt y) = Ok (VInt (g x y))) ->
  reduce f (map VInt l) (VInt a) = Ok (VInt (fold_left g l a)).
Proof.
  intros Hf; revert a; induction l as [|y l IH]; intros a; simpl.
  - reflexivity.
  - rewrite Hf; simpl; apply IH.
Qed.


(** ** Property specifications *)

Definition named (name : string) (prop : dict) : bool :=
  match dict_get "name" prop with
  | Some (VStr n) => String.eqb name n
  | _ => false
  end.

Definition name_is_string (prop : dict) : Prop :=
  match dict_get "name" prop with
  | Some (VStr _) | None => True
  | Some _ => False
  end.

Lemma find_last {A} (f : A -> bool) (l : list A) (x : A) :
  find f (l ++ [x])
  = match find f l with
    | Some y => Some y
    | None => if f x then Some x else None
    end.
Proof.
  induction l as [|y l IH]; simpl; [reflexivity|].
  destruct (f y); [reflexivity|exact IH].
Qed.

Lemma add_named_lookup (l : list dict) :
  Forall name_is_string l ->
  forall specs,
  exists specs',
    add_named (map VDict l) specs = Ok specs'
    /\ forall name,
         dict_get name specs'
         = match find (named name) (rev l) with
           | Some d => Some d
           | None => dict_get name specs
           end.
Proof.
  induction 1 as [|d l Hd _ IH]; intros specs.
  - exists specs; split; reflexivity.
  - cbn [map add_named].
    unfold name_is_string in Hd; unfold py_in_str, dict_mem, py_getitem.
    destruct (dict_get "name" d) as [[| | | |n| |]|] eqn:E;
      try contradiction; cbn [obind key_of rev].
    + destruct (IH (dict_set n d specs)) as (specs' & H1 & H2).
      exists specs'; split; [exact H1|intros name].
      rewrite H2, find_last, dict_get_set.
      replace (named name d) with (String.eqb name n)
        by (unfold named; rewrite E; reflexivity).
      destruct (find (named name) (rev l)); [reflexivity|].
      destruct (name =? n)%string; reflexivity.
    + destruct (IH specs) as (specs' & H1 & H2).
      exists specs'; split; [exact H1|intros name].
      rewrite H2, find_last.
      replace (named name d) with false
        by (unfold named; rewrite E; reflexivity).
      destruct (find (named name) (rev l)); reflexivity.
Qed.


(** ** IN *)


(** ** The result of evaluate *)


(** ** These properties on concrete inputs *)

(** The [value] of what an action evaluated to. *)
Definition output_value (r : outcome (val * string * RuleContext.t))
  : outcome val :=
  match r with
  | Ok (output_def, _, _) => py_getitem output_def "value"
  | Raise e => Raise e
  | Unmodelled => Unmodelled
  | OutOfFuel => OutOfFuel
  end.

(** A comparison written as an action. *)
Definition adult_action : dict :=
  [("output", VStr "a"); ("operation", VStr "GREATER_THAN");
   ("subject", VInt 30); ("value", VInt 18)].





(** ADD over [$income] and 1, evaluated in the sample context. *)
Definition income_added_first : RuleContext.t :=
  context_after
    (_evaluate_operation 2 add_one_to_income (sample_context [] None))
    (sample_context [] None).





(** The subject [$income] looked up in a list that holds a number and
    a reference. *)
Definition income_in_list : dict :=
  [("operation", VStr "IN"); ("subject", VStr "$income");
   ("values", VList [VInt 10; VStr "$income"])].

Definition in_list_subject_evaluated : RuleContext.t :=
  context_after
    (_evaluate_value 1 (VStr "$income")
       (after_add_to_path
          (new_node "operation" "Operation: IN"
             [("operation_type", VStr "IN")])
          (sample_context [] None)))
    (sample_context [] None).


(** A law whose requirement fails. *)
Definition never_met : val :=
  VDict
    [("service", VStr "S"); ("law", VStr "L");
     ("requirements", VList [always_false]);
     ("actions", VList [VDict [("output", VStr "a"); ("value", VInt 1)]])].

Definition never_met_result : Result.t :=
  result_of (evaluate (engine_of never_met) 3 None None None VNone None []).


(** ** Type enforcement *)





(** ** AND and OR *)

(** The node of an AND or an OR. *)
Definition connective_node (kind : string) : PathNode.t :=
  new_node "operation" ("Operation: " ++ kind)
    [("operation_type", VStr kind)].


(** ** The recursion budget *)

(** [within m m']: [m] ran out of budget or did what [m'] does. *)
Definition within {A} (m m' : M A) : Prop :=
  forall c, m c = OutOfFuel \/ m c = m' c.

Lemma within_refl {A} (m : M A) : within m m.
Proof. intros c; right; reflexivity. Qed.

Lemma within_trans {A} (m1 m2 m3 : M A) :
  within m1 m2 -> within m2 m3 -> within m1 m3.
Proof.
  intros H1 H2 c; destruct (H1 c) as [E|E]; [left; exact E|].
  rewrite E; apply H2.
Qed.

Lemma within_bind {A B} (m m' : M A) (k k' : A -> M B) :
  within m m' -> (forall a, within (k a) (k' a)) ->
  within (bind m k) (bind m' k').
Proof.
  intros Hm Hk c; unfold bind.
  destruct (Hm c) as [E|E]; [left; rewrite E; reflexivity|].
  rewrite E; destruct (m' c) as [[a c1]| | |]; try (right; reflexivity).
  apply Hk.
Qed.

Lemma within_mapM {A B} (f f' : A -> M B) (l : list A) :
  (forall x, within (f x) (f' x)) -> within (mapM f l) (mapM f' l).
Proof.
  intros Hf; induction l as [|x l IH]; simpl.
  - apply within_refl.
  - apply within_bind; [apply Hf|intros y].
    apply within_bind; [apply IH|intros ys].
    apply within_refl.
Qed.

(** Walks through two computations of the same shape. *)
Ltac within_step :=
  match goal with
  | |- within ?m ?m => apply within_refl
  | |- within (bind _ _) (bind _ _) => apply within_bind; [|intros ?]
  | |- within (mapM _ _) (mapM _ _) => apply within_mapM; intros ?
  | |- within (if ?b then _ else _) (if ?b then _ else _) => destruct b
  | |- within (match ?x with _ => _ end) (match ?x with _ => _ end) =>
      destruct x
  | H : forall op, within (?f op) (?g op) |- within (?f _) (?g _) => apply H
  end.

Section WithinInterpreter.
Variables ev ev' : val -> M val.
Hypothesis Hev : forall op, within (ev op) (ev' op).

Lemma within_evaluate_value_with value :
  within (evaluate_value_with ev value) (evaluate_value_with ev' value).
Proof. unfold evaluate_value_with; repeat within_step. Qed.

Lemma within_if_conditions id i conditions result :
  within (if_conditions ev id i conditions result)
    (if_conditions ev' id i conditions result).
Proof.
  revert i result.
  induction conditions as [|condition r IH]; intros i result; simpl.
  - apply within_refl.
  - repeat first [ apply IH | apply within_evaluate_value_with
                 | within_step ].
Qed.

Lemma within_evaluate_if_operation_with operation :
  within (evaluate_if_operation_with ev operation)
    (evaluate_if_operation_with ev' operation).
Proof.
  unfold evaluate_if_operation_with.
  repeat first [ apply within_if_conditions | within_step ].
Qed.

Lemma within_evaluate_operation_body operation :
  within (evaluate_operation_body ev operation)
    (evaluate_operation_body ev' operation).
Proof.
  unfold evaluate_operation_body.
  destruct operation;
    repeat first [ apply within_evaluate_value_with
                 | apply within_evaluate_if_operation_with
                 | within_step ].
Qed.
End WithinInterpreter.

Lemma within_evaluate_operation_succ fuel :
  forall op, within (_evaluate_operation fuel op)
               (_evaluate_operation (S fuel) op).
Proof.
  induction fuel as [|fuel IH]; intros op.
  - intros c; left; reflexivity.
  - cbn [_evaluate_operation].
    apply within_evaluate_operation_body; exact IH.
Qed.

Lemma within_evaluate_operation fuel fuel' :
  (fuel <= fuel')%nat ->
  forall op, within (_evaluate_operation fuel op)
               (_evaluate_operation fuel' op).
Proof.
  induction 1 as [|fuel' _ IH]; intros op; [apply within_refl|].
  eapply within_trans; [apply IH|apply within_evaluate_operation_succ].
Qed.

Section WithinRequirements.
Variables er er' : val -> M bool.
Variables ev ev' : val -> M val.
Hypothesis Her : forall r, within (er r) (er' r).
Hypothesis Hev : forall op, within (ev op) (ev' op).

Lemma within_requirement_step req :
  within (requirement_step er ev req) (requirement_step er' ev' req).
Proof.
  unfold requirement_step;
    repeat first [ apply Her | apply Hev | within_step ].
Qed.

Lemma within_requirements_loop requirements :
  within (requirements_loop er ev requirements)
    (requirements_loop er' ev' requirements).
Proof.
  induction requirements as [|req r IH]; simpl.
  - apply within_refl.
  - apply within_bind; [apply within_requirement_step|intros result].
    destruct (negb (truthy result)); [apply within_refl|apply IH].
Qed.

Lemma within_evaluate_requirements_body requirements :
  within (evaluate_requirements_body er ev requirements)
    (evaluate_requirements_body er' ev' requirements).
Proof.
  unfold evaluate_requirements_body.
  repeat first [ apply within_requirements_loop | within_step ].
Qed.
End WithinRequirements.

Lemma within_evaluate_requirements_succ fuel :
  forall r, within (_evaluate_requirements fuel r)
              (_evaluate_requirements (S fuel) r).
Proof.
  induction fuel as [|fuel IH]; intros r.
  - intros c; left; reflexivity.
  - cbn [_evaluate_requirements].
    apply within_evaluate_requirements_body;
      [exact IH|apply within_evaluate_operation_succ].
Qed.

Lemma within_evaluate_requirements fuel fuel' :
  (fuel <= fuel')%nat ->
  forall r, within (_evaluate_requirements fuel r)
              (_evaluate_requirements fuel' r).
Proof.
  induction 1 as [|fuel' _ IH]; intros r; [apply within_refl|].
  eapply within_trans; [apply IH|apply within_evaluate_requirements_succ].
Qed.

Lemma within_evaluate_action self fuel fuel' action :
  (fuel <= fuel')%nat ->
  within (_evaluate_action self fuel action)
    (_evaluate_action self fuel' action).
Proof.
  intros L; unfold _evaluate_action.
  repeat first [ apply within_evaluate_value_with;
                 apply within_evaluate_operation; exact L
               | apply within_evaluate_operation; exact L
               | within_step ].
Qed.

Lemma within_actions_loop self fuel fuel' requested_output actions :
  (fuel <= fuel')%nat ->
  forall output_values,
    within (actions_loop self fuel requested_output actions output_values)
      (actions_loop self fuel' requested_output actions output_values).
Proof.
  intros L; induction actions as [|action r IH]; intros output_values; simpl.
  - apply within_refl.
  - apply within_bind; [apply within_refl|intros output_name].
    destruct (skipped requested_output output_name); [apply IH|].
    apply within_bind; [apply within_evaluate_action; exact L|].
    intros [output_def name].
    apply within_bind; [apply within_refl|intros _; apply IH].
Qed.


(** AND over a falsy number and a reference: the reference is still
    resolved, by a call of the provider. *)
Definition zero_and_income : dict :=
  [("operation", VStr "AND"); ("values", VList [VInt 0; VStr "$income"])].

Definition zero_and_income_evaluated : RuleContext.t :=
  context_after
    (mapM (_evaluate_value 1) [VInt 0; VStr "$income"]
       (after_add_to_path (connective_node "AND") (sample_context [] None)))
    (sample_context [] None).


(** An ADD inside an ADD needs a budget of two. *)
Definition nested_add : val :=
  VDict
    [("operation", VStr "ADD");
     ("values",
      VList [VDict [("operation", VStr "ADD");
                    ("values", VList [VInt 1; VInt 2])];
             VInt 3])].

